(** * fbssdc: the container format and the C++ macro generator

    A shallow embedding of [format.py] (the container: magic, version,
    brotli frame, string table, model, tree body, lazy index) and of
    [cpp_codegen.py] (the type walker and the model id allocation),
    with the properties the specification states about them. *)

From Stdlib Require Import ZArith NArith List String Ascii Strings.Byte Lia.
From stdpp Require Import base option gmap strings list sorting.

Local Open Scope nat_scope.

(** ** Outcomes of a Python call

    A call returns a value, raises, or does not return at all. The last
    case is what a model driven by a recursion budget reports when the
    budget is used up. *)

Inductive exn : Type :=
| NotImplementedError
| KeyError
| IndexError
| AssertionError (what : string)
| BrotliError
| CorruptStream
| SchemaViolation
| AttributeError.

Inductive outcome (A : Type) : Type :=
| Returned (a : A)
| Raised (e : exn)
| OutOfFuel.

Arguments Returned {A} a.
Arguments Raised {A} e.
Arguments OutOfFuel {A}.

#[global] Instance outcome_ret : MRet outcome := fun A a => Returned a.

#[global] Instance outcome_bind : MBind outcome := fun A B k x =>
  match x with
  | Returned a => k a
  | Raised e => Raised e
  | OutOfFuel => OutOfFuel
  end.

(** [for x in xs: body(x)] over a state that the body updates. *)
Fixpoint for_each {A St} (body : A -> St -> outcome St) (xs : list A) (st : St)
  : outcome St :=
  match xs with
  | [] => Returned st
  | x :: xs' => st' ← body x st; for_each body xs' st'
  end.

(** [within E x]: the call [x] comes back, with a value or with an
    exception among [E]. *)
Definition within {A} (E : exn -> Prop) (x : outcome A) : Prop :=
  match x with
  | Returned _ => True
  | Raised e => E e
  | OutOfFuel => False
  end.

Definition terminates {A} (x : outcome A) : Prop := within (fun _ => True) x.

Definition returns {A} (x : outcome A) : Prop := within (fun _ => False) x.

(** ** The IDL type universe *)

Module idl.

(** Modelled from the spec: module [idl] is not part of the sources. The
      schema is a cyclic graph, so a type is a handle into the resolver's
      arena and two types are the same when their handles are. A handle
      outside the arena stands for [TyNone]. *)
Definition Ty := nat.

Record Attr := {
    name : string;
    resolved_ty : Ty;
    lazy : bool
  }.

Inductive TyDesc :=
  | TyInterface (name : string) (attrs : list Attr)
  | Alt (tys : list Ty)
  | TyEnum (name : string)
  | TyPrimitive (name : string)
  | TyFrozenArray (element_ty : Ty)
  | TyNone.

Record TypeResolver := {
    universe : list TyDesc;
    interfaces : gmap string Ty
  }.

Definition desc (r : TypeResolver) (ty : Ty) : TyDesc :=
    default TyNone (universe r !! ty).

#[global] Arguments desc : simpl never.

(** The types a type refers to directly. *)
Definition children (r : TypeResolver) (ty : Ty) : list Ty :=
    match desc r ty with
    | TyInterface _ attrs => map resolved_ty attrs
    | Alt tys => tys
    | TyFrozenArray element_ty => [element_ty]
    | _ => []
    end.

Inductive reachable (r : TypeResolver) (root : Ty) : Ty -> Prop :=
  | reachable_root : reachable r root root
  | reachable_step ty ty' :
      reachable r root ty -> ty' ∈ children r ty -> reachable r root ty'.

End idl.

Import idl.

(** ** cpp_codegen.py: [TypeVisitor] *)

(** The five methods a subclass of [TypeVisitor] provides. [S] is the
    state the subclass keeps in [self]. *)
Class TypeVisitorMethods (S : Type) := {
  visit_interface_type : TypeResolver -> Ty -> S -> outcome S;
  visit_alt_type : TypeResolver -> Ty -> S -> outcome S;
  visit_enum_type : TypeResolver -> Ty -> S -> outcome S;
  visit_primitive_type : TypeResolver -> Ty -> S -> outcome S;
  visit_frozen_array_type : TypeResolver -> Ty -> S -> outcome S
}.

(** [self] of a visitor: the resolver, the visited set, and the fields of
    the subclass. *)
Record TypeVisitor (S : Type) := {
  resolver : TypeResolver;
  visited_types : gset Ty;
  fields : S
}.

Arguments resolver {S} _.
Arguments visited_types {S} _.
Arguments fields {S} _.

(** [TypeVisitor.__init__] *)
Definition TypeVisitor_init {S} (r : TypeResolver) (s : S) : TypeVisitor S :=
  {| resolver := r; visited_types := ∅; fields := s |}.

Definition mark_visited {S} (ty : Ty) (self : TypeVisitor S) : TypeVisitor S :=
  {| resolver := resolver self;
     visited_types := visited_types self ∪ {[ty]};
     fields := fields self |}.

Definition call_method {S} (m : TypeResolver -> Ty -> S -> outcome S) (ty : Ty)
    (self : TypeVisitor S) : outcome (TypeVisitor S) :=
  s ← m (resolver self) ty (fields self);
  Returned {| resolver := resolver self;
              visited_types := visited_types self;
              fields := s |}.

(** The methods of the base class all raise. *)
Definition abstract_methods (S : Type) : TypeVisitorMethods S := {|
  visit_interface_type := fun _ _ _ => Raised NotImplementedError;
  visit_alt_type := fun _ _ _ => Raised NotImplementedError;
  visit_enum_type := fun _ _ _ => Raised NotImplementedError;
  visit_primitive_type := fun _ _ _ => Raised NotImplementedError;
  visit_frozen_array_type := fun _ _ _ => Raised NotImplementedError
|}.

Section Visit.
Context {S : Type} `{M : TypeVisitorMethods S}.

(** [TypeVisitor.visit]. [fuel] bounds the depth of the recursion. *)
Fixpoint visit (fuel : nat) (ty : Ty) (self : TypeVisitor S)
    : outcome (TypeVisitor S) :=
    match fuel with
    | 0 => OutOfFuel
    | Datatypes.S fuel' =>
      if decide (ty ∈ visited_types self) then Returned self
      else
        let self := mark_visited ty self in
        match desc (resolver self) ty with
        | TyInterface _ attrs =>
            self ← call_method visit_interface_type ty self;
            for_each (fun attr => visit fuel' (resolved_ty attr)) attrs self
        | Alt tys =>
            self ← call_method visit_alt_type ty self;
            for_each (fun subty => visit fuel' subty) tys self
        | TyEnum _ => call_method visit_enum_type ty self
        | TyPrimitive _ => call_method visit_primitive_type ty self
        | TyFrozenArray element_ty =>
            self ← call_method visit_frozen_array_type ty self;
            visit fuel' element_ty self
        | TyNone => Returned self
        end
    end.

End Visit.

(** ** Python string helpers used by [_cpp_name] *)

(** [c.upper()] for a character of the ASCII range, where only the letters
    [a] to [z] change. Python's [upper] also maps characters outside ASCII;
    what is proved of the case of a name is proved of ASCII names. *)
Definition upper (c : ascii) : ascii :=
  let n := nat_of_ascii c in
  if (97 <=? n) && (n <=? 122) then ascii_of_nat (n - 32) else c.

(** [s.split(' ')]: empty parts are kept, and the result is never empty. *)
Fixpoint split_space (s : string) : list string :=
  match s with
  | EmptyString => [EmptyString]
  | String c s' =>
      if Ascii.eqb c " "%char then EmptyString :: split_space s'
      else match split_space s' with
           | part :: parts => String c part :: parts
           | [] => [String c EmptyString]
           end
  end.

(** [sep.join(parts)] *)
Fixpoint join (sep : string) (parts : list string) : string :=
  match parts with
  | [] => EmptyString
  | [p] => p
  | p :: ps => p +:+ sep +:+ join sep ps
  end.

Definition cap_head (part : string) : string :=
  match part with
  | EmptyString => EmptyString
  | String c rest => String (upper c) rest
  end.

(** [[f(x) for x in xs]] for an [f] that may fail. *)
Fixpoint map_each {A B} (f : A -> outcome B) (xs : list A) : outcome (list B) :=
  match xs with
  | [] => Returned []
  | x :: xs' => y ← f x; ys ← map_each f xs'; Returned (y :: ys)
  end.

(** ** cpp_codegen.py: [CppTypeMacroGenerator] *)

Module CppTypeMacroGenerator.

Definition field := (string * string * string * nat)%type.

Record state := {
    interfaces : list (string * list field);
    alts : list (string * list string);
    enums : list string;
    primitives : list string;
    frozen_arrays : list (string * string * nat);
    model_ids : gmap (Ty * string) nat;
    next_model_id : nat
  }.

(** What [generate] assigns before it starts the traversal. *)
Definition fresh : state := {|
    interfaces := []; alts := []; enums := []; primitives := [];
    frozen_arrays := []; model_ids := ∅; next_model_id := 0
  |}.

(** [_cpp_name]: it recurses through alternations and arrays, so [fuel]
      bounds its depth. *)
Fixpoint _cpp_name (fuel : nat) (r : TypeResolver) (ty : Ty) : outcome string :=
    match fuel with
    | 0 => OutOfFuel
    | S fuel' =>
      match desc r ty with
      | Alt tys =>
          names ← map_each (_cpp_name fuel' r) tys;
          Returned (join "Or" names)
      | TyFrozenArray element_ty =>
          elem ← _cpp_name fuel' r element_ty;
          Returned ("FrozenArray_" +:+ elem)
      | TyNone => Returned "None"%string
      | TyInterface n _ | TyEnum n | TyPrimitive n =>
          Returned (join "" (map cap_head (split_space n)))
      end
    end.

Definition _get_insert_model_id (k : Ty * string) (self : state) : nat * state :=
    match model_ids self !! k with
    | Some model_id => (model_id, self)
    | None =>
        let model_id := next_model_id self in
        (model_id,
         {| interfaces := interfaces self; alts := alts self; enums := enums self;
            primitives := primitives self; frozen_arrays := frozen_arrays self;
            model_ids := <[k := model_id]> (model_ids self);
            next_model_id := next_model_id self + 1 |})
    end.

Definition append_interface (x : string * list field) (self : state) : state :=
    {| interfaces := interfaces self ++ [x]; alts := alts self; enums := enums self;
       primitives := primitives self; frozen_arrays := frozen_arrays self;
       model_ids := model_ids self; next_model_id := next_model_id self |}.

Definition append_alt (x : string * list string) (self : state) : state :=
    {| interfaces := interfaces self; alts := alts self ++ [x]; enums := enums self;
       primitives := primitives self; frozen_arrays := frozen_arrays self;
       model_ids := model_ids self; next_model_id := next_model_id self |}.

Definition append_enum (x : string) (self : state) : state :=
    {| interfaces := interfaces self; alts := alts self; enums := enums self ++ [x];
       primitives := primitives self; frozen_arrays := frozen_arrays self;
       model_ids := model_ids self; next_model_id := next_model_id self |}.

Definition append_primitive (x : string) (self : state) : state :=
    {| interfaces := interfaces self; alts := alts self; enums := enums self;
       primitives := primitives self ++ [x]; frozen_arrays := frozen_arrays self;
       model_ids := model_ids self; next_model_id := next_model_id self |}.

Definition append_frozen_array (x : string * string * nat) (self : state) : state :=
    {| interfaces := interfaces self; alts := alts self; enums := enums self;
       primitives := primitives self; frozen_arrays := frozen_arrays self ++ [x];
       model_ids := model_ids self; next_model_id := next_model_id self |}.

Section Methods.
Variable fuel : nat.

(** One turn of the loop over [ty.attrs] in [visit_interface_type]. *)
Definition interface_field (r : TypeResolver) (ty : Ty) (attr : Attr)
        (acc : state * list field) : outcome (state * list field) :=
      let '(self, fields) := acc in
      let '(model_id, self) := _get_insert_model_id (ty, name attr) self in
      ty_name ← _cpp_name fuel r (resolved_ty attr);
      Returned (self,
                fields ++ [(name attr, ty_name,
                            if lazy attr then "true" else "false", model_id)]).

Definition visit_interface_type (r : TypeResolver) (ty : Ty) (self : state)
      : outcome state :=
      match desc r ty with
      | TyInterface _ attrs =>
          '(self, fields) ← for_each (interface_field r ty) attrs (self, []);
          ty_name ← _cpp_name fuel r ty;
          Returned (append_interface (ty_name, fields) self)
      | _ => Raised AttributeError
      end.

Definition visit_alt_type (r : TypeResolver) (ty : Ty) (self : state)
      : outcome state :=
      match desc r ty with
      | Alt tys =>
          ty_name ← _cpp_name fuel r ty;
          names ← map_each (_cpp_name fuel r) tys;
          Returned (append_alt (ty_name, names) self)
      | _ => Raised AttributeError
      end.

Definition visit_enum_type (r : TypeResolver) (ty : Ty) (self : state)
      : outcome state :=
      ty_name ← _cpp_name fuel r ty;
      Returned (append_enum ty_name self).

Definition visit_primitive_type (r : TypeResolver) (ty : Ty) (self : state)
      : outcome state :=
      ty_name ← _cpp_name fuel r ty;
      Returned (append_primitive ty_name self).

Definition visit_frozen_array_type (r : TypeResolver) (ty : Ty) (self : state)
      : outcome state :=
      let '(model_id, self) := _get_insert_model_id (ty, "list-length"%string) self in
      match desc r ty with
      | TyFrozenArray element_ty =>
          ty_name ← _cpp_name fuel r ty;
          elem_name ← _cpp_name fuel r element_ty;
          Returned (append_frozen_array (ty_name, elem_name, model_id) self)
      | _ => Raised AttributeError
      end.

Definition methods : TypeVisitorMethods state :=
      Build_TypeVisitorMethods state
        visit_interface_type visit_alt_type visit_enum_type
        visit_primitive_type visit_frozen_array_type.

(** [generate]: reset the fields, then walk from [Script]. *)
Definition generate (self : TypeVisitor state) : outcome (TypeVisitor state) :=
      let self := {| resolver := resolver self;
                     visited_types := visited_types self;
                     fields := fresh |} in
      match idl.interfaces (resolver self) !! "Script"%string with
      | Some script => visit (M := methods) fuel script self
      | None => Raised KeyError
      end.

(** The module's top level: [CppTypeMacroGenerator(resolver).generate()]. *)
Definition run (r : TypeResolver) : outcome (TypeVisitor state) :=
      generate (TypeVisitor_init r fresh).

End Methods.

End CppTypeMacroGenerator.

(** ** A small cyclic schema

    [Script] holds directives and statements; a statement is a block (which
    holds statements again) or an expression statement. *)

Module Example.

Definition attr (n : string) (ty : Ty) (l : bool) : Attr :=
    {| name := n; resolved_ty := ty; lazy := l |}.

Definition schema : list TyDesc := [
    (* 0 *) TyInterface "Script" [attr "directives" 1 false; attr "statements" 3 false];
    (* 1 *) TyFrozenArray 2;
    (* 2 *) TyInterface "Directive" [attr "rawValue" 5 false];
    (* 3 *) TyFrozenArray 4;
    (* 4 *) Alt [6; 7];
    (* 5 *) TyPrimitive "string";
    (* 6 *) TyInterface "Block" [attr "statements" 3 false];
    (* 7 *) TyInterface "ExpressionStatement" [attr "expression" 8 true];
    (* 8 *) Alt [9; 10; 11];
    (* 9 *) TyInterface "IdentifierExpression" [attr "name" 12 false];
    (* 10 *) TyInterface "LiteralNumericExpression" [attr "value" 13 false];
    (* 11 *) TyNone;
    (* 12 *) TyPrimitive "identifier name";
    (* 13 *) TyPrimitive "double"
  ].

Definition types : TypeResolver :=
    {| universe := schema; idl.interfaces := {[ "Script"%string := 0 ]} |}.

(** A visitor that only records the types its methods are called on. *)
Definition record_call (_ : TypeResolver) (ty : Ty) (calls : list Ty)
    : outcome (list Ty) := Returned (calls ++ [ty]).

Definition recorder : TypeVisitorMethods (list Ty) :=
    Build_TypeVisitorMethods (list Ty)
      record_call record_call record_call record_call record_call.

End Example.


(** ** Vocabulary for the walker's properties *)

Section VisitSpec.
Context {St : Type} {M : TypeVisitorMethods St}.

(** What [visit] does for one type it has not seen: the method of its
      kind, and nothing for the null type. *)
Definition visit_one (r : TypeResolver) (ty : Ty) (s : St) : outcome St :=
    match desc r ty with
    | TyInterface _ _ => visit_interface_type r ty s
    | Alt _ => visit_alt_type r ty s
    | TyEnum _ => visit_enum_type r ty s
    | TyPrimitive _ => visit_primitive_type r ty s
    | TyFrozenArray _ => visit_frozen_array_type r ty s
    | TyNone => Returned s
    end.

(** The methods come back, with a value or an exception among [E], on
      every type the walker can hand them. *)
Definition methods_within (E : exn -> Prop) (r : TypeResolver) : Prop :=
    forall ty s, within E (visit_one r ty s).

Definition methods_terminate (r : TypeResolver) : Prop :=
    methods_within (fun _ => True) r.

(** The types of the arena the walker has not seen yet. *)
Definition unvisited (r : TypeResolver) (seen : gset Ty) : nat :=
    size ((set_seq 0 (length (universe r)) : gset Ty) ∖ seen).

(** The record of one traversal: which types it saw for the first time,
      in which order, and what that did to the fields. *)
Definition walked (self self' : TypeVisitor St) (order : list Ty) : Prop :=
    resolver self' = resolver self /\
    visited_types self' = visited_types self ∪ list_to_set order /\
    NoDup order /\
    (forall x, x ∈ order -> x ∉ visited_types self) /\
    for_each (visit_one (resolver self)) order (fields self) = Returned (fields self').

(** Depth-first closure: whatever a traversal adds to the visited set has
      all its children in the visited set when the traversal returns. *)
Definition closes (r : TypeResolver) (self self' : TypeVisitor St) : Prop :=
    resolver self' = r /\
    visited_types self ⊆ visited_types self' /\
    forall x c, x ∈ visited_types self' -> x ∉ visited_types self ->
                c ∈ children r x -> c ∈ visited_types self'.

(** A traversal adds nothing to the visited set but what its roots
      reach. *)
Definition adds_reachable (r : TypeResolver) (roots : list Ty)
      (self self' : TypeVisitor St) : Prop :=
    resolver self' = r /\
    forall x, x ∈ visited_types self' ->
      x ∈ visited_types self \/ exists root, root ∈ roots /\ reachable r root x.

End VisitSpec.

(** ** Vocabulary for the model id allocation *)

Module ModelIds.
Import CppTypeMacroGenerator.

(** The keys the generator asks an id for when it is called on [ty]. *)
Definition model_keys (r : TypeResolver) (ty : Ty) : list (Ty * string) :=
    match desc r ty with
    | TyInterface _ attrs => map (fun attr => (ty, name attr)) attrs
    | TyFrozenArray _ => [(ty, "list-length"%string)]
    | _ => []
    end.

(** The distinct keys of a sequence of uses, in the order of their first
      use. *)
Definition first_use (keys : list (Ty * string)) (k : Ty * string)
    : list (Ty * string) :=
    if decide (k ∈ keys) then keys else keys ++ [k].

Definition first_uses (uses : list (Ty * string)) : list (Ty * string) :=
    fold_left first_use uses [].

(** [g] numbers [keys]: the key at position [i] has id [i], and nothing
      else has an id. *)
Definition numbered (keys : list (Ty * string)) (g : state) : Prop :=
    NoDup keys /\
    next_model_id g = length keys /\
    forall k i, model_ids g !! k = Some i <-> keys !! i = Some k.

(** [_cpp_name] returns on every type, within the budget. *)
Definition names_return (fuel : nat) (r : TypeResolver) : Prop :=
    forall ty, returns (_cpp_name fuel r ty).

End ModelIds.

(** ** Programs over mutable objects

    A program over a state [St] either returns, raises or runs out of
    budget, and leaves a state behind in each case: what a Python call has
    done to the objects it was handed stays done when it raises. *)

Definition prog (St A : Type) : Type := St -> outcome A * St.

#[global] Instance prog_ret {St} : MRet (prog St) := fun A a st => (Returned a, st).

#[global] Instance prog_bind {St} : MBind (prog St) := fun A B k x st =>
  match x st with
  | (Returned a, st') => k a st'
  | (Raised e, st') => (Raised e, st')
  | (OutOfFuel, st') => (OutOfFuel, st')
  end.

Definition raise {St A} (e : exn) : prog St A := fun st => (Raised e, st).

Definition out_of_fuel {St A} : prog St A := fun st => (OutOfFuel, st).

Definition gets {St A} (f : St -> A) : prog St A := fun st => (Returned (f st), st).

Definition modify {St} (f : St -> St) : prog St unit := fun st => (Returned tt, f st).

(** A computation that touches no object. *)
Definition lift {St A} (x : outcome A) : prog St A := fun st => (x, st).

(** [assert cond], with the text that names the assertion. *)
Definition assert {St} (cond : bool) (what : string) : prog St unit :=
  if cond then mret tt else raise (AssertionError what).

(** [[f(x) for x in xs]] in a program. *)
Fixpoint prog_map {St A B} (f : A -> prog St B) (xs : list A) : prog St (list B) :=
  match xs with
  | [] => mret []
  | x :: xs' => y ← f x; ys ← prog_map f xs'; mret (y :: ys)
  end.

(** [xs[i]] *)
Definition index_list {A} (xs : list A) (i : nat) : outcome A :=
  match xs !! i with
  | Some x => Returned x
  | None => Raised IndexError
  end.

(** What a program leaves of its state, whatever its outcome. *)
Definition preserves {St A} (P : St -> St -> Prop) (x : prog St A) : Prop :=
  forall st, P st (x st).2.

(** ** Byte streams *)

Abbreviation bytes := (list byte).

#[global] Instance byte_eq_decision : EqDecision byte := Byte.byte_eq_dec.

(** An [io.BytesIO] opened for reading: its content and its position. *)
Record stream := {
  data : bytes;
  pos : nat
}.

(** [inp.read(n)]: up to [n] bytes from the position, which moves past
    them. *)
Definition stream_read (n : nat) (inp : stream) : bytes * stream :=
  let chunk := take n (drop (pos inp) (data inp)) in
  (chunk, {| data := data inp; pos := pos inp + length chunk |}).

(** [inp.read()]: everything from the position on. *)
Definition stream_read_all (inp : stream) : bytes * stream :=
  let chunk := drop (pos inp) (data inp) in
  (chunk, {| data := data inp; pos := pos inp + length chunk |}).

Definition stream_seek (p : nat) (inp : stream) : stream :=
  {| data := data inp; pos := p |}.

(** The content of a stream stays as it was. *)
Definition same_data (inp inp' : stream) : Prop := data inp' = data inp.

(** Modelled from the spec: the readers of the absent modules ([bits],
    [strings], [encode]) do sequential byte reads only. Such a reader is a
    function of the bytes from the position on, giving its result and the
    number of bytes it has read, by which the position moves. *)
Definition reader (A : Type) : Type := bytes -> outcome (A * nat).

Definition stream_run {A} (p : reader A) (inp : stream) : outcome A * stream :=
  let rest := drop (pos inp) (data inp) in
  match p rest with
  | Returned (a, n) =>
      (Returned a, {| data := data inp; pos := pos inp + min n (length rest) |})
  | Raised e => (Raised e, inp)
  | OutOfFuel => (OutOfFuel, inp)
  end.

(** ** format.py *)

(** The magic header for all (recent) binjs formats: [b"\x89BJS\r\n\0\n"]. *)
Definition MAGIC_HEADER : bytes := [x89; x42; x4a; x53; x0d; x0a; x00; x0a].

(** [struct.pack('b', 2)] *)
Definition FORMAT_VERSION : bytes := [x02].

(** Python's order on [str]. *)
Definition str_le (s1 s2 : string) : Prop := String.leb s1 s2 = true.

#[global] Instance str_le_decision s1 s2 : Decision (str_le s1 s2) :=
  decide (String.leb s1 s2 = true).

(** The modules [format.py] imports and the sources do not hold:
    [tycheck], [strings], [model], [encode], [lazy], [bits] and [brotli].
    Writers give the bytes they append to their stream. *)
Class Collaborators := {
  tree : Type;
  model : Type;
  (* tycheck *)
  FloatFixer_rewrite : TypeResolver -> Ty -> tree -> tree;
  TypeChecker_check_any : TypeResolver -> Ty -> tree -> bool;
  (* strings *)
  StringCollector_visit : TypeResolver -> Ty -> tree -> gset string;
  write_dict : list string -> bytes;
  read_dict : reader (list string);
  (* model, encode *)
  model_tree : TypeResolver -> Ty -> tree -> model;
  ModelWriter_write : TypeResolver -> list string -> Ty -> model -> bytes;
  ModelReader_read : TypeResolver -> list string -> Ty -> reader model;
  encode : TypeResolver -> model -> Ty -> tree -> bytes;
  decode : TypeResolver -> model -> Ty -> reader tree;
  (* lazy *)
  LazyMemberExtractor_replace :
    TypeResolver -> Ty -> tree -> tree * list (Ty * Attr * tree);
  placeholders : TypeResolver -> Ty -> tree -> list (Ty * Attr * nat);
  fill_placeholders : TypeResolver -> Ty -> tree -> list tree -> tree;
  (* bits *)
  write_varint : nat -> bytes;
  read_varint : reader nat;
  (* brotli *)
  brotli_compress : bytes -> bytes;
  brotli_decompress : bytes -> outcome bytes
}.

Section Format.
Context {C : Collaborators}.

(** Modelled from the spec: [lazy.LazyMemberRestorer(types, resolver)
    .replace(ty, node)] is not part of the sources. It rebuilds [node] with
    each placeholder replaced by [resolver(ty, attr, index)], calling the
    resolver once per placeholder in the order of the traversal:
    [placeholders] lists them, [fill_placeholders] puts the parts in. *)
Definition LazyMemberRestorer_replace {St} (types : TypeResolver)
    (restore : Ty -> Attr -> nat -> prog St tree) (ty : Ty) (node : tree)
  : prog St tree :=
  parts ← prog_map (fun '(pty, attr, index) => restore pty attr index)
                   (placeholders types ty node);
  mret (fill_placeholders types ty node parts).

(** *** [write] *)

(** [sorted(strings)] for a set that Python iterates in the order
    [iteration]. *)
Definition sorted (iteration : gset string -> list string) (strings : gset string)
  : list string :=
  merge_sort str_le (iteration strings).

(** The lazy index and the lazy parts that [write_piece] appends after the
    body: the count, the sizes, then the parts end to end. *)
Definition lazy_index_and_parts (lazy_encoded : list bytes) : bytes :=
  write_varint (length lazy_encoded)
  ++ concat (map (fun encoded_part => write_varint (length encoded_part)) lazy_encoded)
  ++ concat lazy_encoded.

(** [write_piece], the function local to [write]. [fuel] bounds the nesting
    of lazy parts. *)
Fixpoint write_piece (fuel : nat) (types : TypeResolver) (m : model) (ty : Ty)
    (node : tree) (out : bytes) : outcome bytes :=
  match fuel with
  | 0 => OutOfFuel
  | S fuel' =>
    let '(node, lazies) := LazyMemberExtractor_replace types ty node in
    let out := out ++ encode types m ty node in
    lazy_encoded ← map_each
      (fun '(_, attr, part) => write_piece fuel' types m (resolved_ty attr) part [])
      lazies;
    Returned (out ++ lazy_index_and_parts lazy_encoded)
  end.

(** The objects [write] is handed by its caller. *)
Record written := {
  w_tree : tree;
  w_string_dict : list string;
  w_out : bytes
}.

Definition set_w_tree (t : tree) (st : written) : written :=
  {| w_tree := t; w_string_dict := w_string_dict st; w_out := w_out st |}.

(** [out.write(b)] *)
Definition out_write (b : bytes) (st : written) : written :=
  {| w_tree := w_tree st; w_string_dict := w_string_dict st; w_out := w_out st ++ b |}.

(** The local string table of [write]: the strings of the tree that the
    shared dictionary lacks, sorted. *)
Definition local_strings (iteration : gset string -> list string)
    (types : TypeResolver) (string_dict : list string) (ty : Ty) (tree : tree)
  : list string :=
  sorted iteration (StringCollector_visit types ty tree ∖ list_to_set string_dict).

(** What [write] compresses. *)
Definition content_no_brotli (iteration : gset string -> list string) (fuel : nat)
    (types : TypeResolver) (string_dict : list string) (ty : Ty) (tree : tree)
  : outcome bytes :=
  let local_strings := local_strings iteration types string_dict ty tree in
  let string_dict := local_strings ++ string_dict in
  let content := write_dict local_strings in
  let m := model_tree types ty tree in
  let content := content ++ ModelWriter_write types string_dict ty m in
  write_piece fuel types m ty tree content.

Definition write (iteration : gset string -> list string) (fuel : nat)
    (types : TypeResolver) (ty : Ty) : prog written unit :=
  tree ← gets w_tree;
  (* Rewrite ints in float position to floats, in place. *)
  let tree := FloatFixer_rewrite types ty tree in
  modify (set_w_tree tree);;
  (* Check the AST conforms to the IDL. *)
  (if TypeChecker_check_any types ty tree then mret tt else raise SchemaViolation);;
  modify (out_write MAGIC_HEADER);;
  modify (out_write FORMAT_VERSION);;
  string_dict ← gets w_string_dict;
  content ← lift (content_no_brotli iteration fuel types string_dict ty tree);
  modify (out_write (brotli_compress content)).

(** *** [read] *)

(** Operations on the stream a program reads from. *)
Definition inp_read (n : nat) : prog stream bytes := fun inp =>
  let '(chunk, inp) := stream_read n inp in (Returned chunk, inp).

Definition inp_read_all : prog stream bytes := fun inp =>
  let '(chunk, inp) := stream_read_all inp in (Returned chunk, inp).

Definition inp_seek (p : nat) : prog stream unit := modify (stream_seek p).

Definition inp_tell : prog stream nat := gets pos.

Definition inp_run {A} (p : reader A) : prog stream A := stream_run p.

(** The loop of [read_piece] over the sizes of the lazy parts. *)
Fixpoint read_lazy_sizes (num_lazy_parts : nat) (lazy_offsets : list nat)
  : prog stream (list nat) :=
  match num_lazy_parts with
  | 0 => mret lazy_offsets
  | S n =>
      lazy_size ← inp_run read_varint;
      read_lazy_sizes n (lazy_offsets ++ [List.last lazy_offsets 0 + lazy_size])
  end.

(** The dictionary of lazy parts, as absolute offsets. *)
Definition read_lazy_offsets : prog stream (list nat) :=
  num_lazy_parts ← inp_run read_varint;
  lazy_offsets ← read_lazy_sizes num_lazy_parts [0];
  here ← inp_tell;
  mret (map (fun offset => offset + here) lazy_offsets).

(** [restore_lazy_part], local to [read_piece], which it calls back. *)
Definition restore_lazy_part (read_piece : Ty -> prog stream tree)
    (lazy_offsets : list nat) (ty : Ty) (attr : Attr) (index : nat)
  : prog stream tree :=
  target ← lift (index_list lazy_offsets index);
  inp_seek target;;
  part ← read_piece (resolved_ty attr);
  here ← inp_tell;
  expected ← lift (index_list lazy_offsets (index + 1));
  assert (bool_decide (here = expected)) "inp.tell() == lazy_offsets[index + 1]";;
  mret part.

(** [read_piece], the function local to [read]. [fuel] bounds the nesting of
    lazy parts. *)
Fixpoint read_piece (fuel : nat) (types : TypeResolver) (m : model) (ty : Ty)
  : prog stream tree :=
  match fuel with
  | 0 => out_of_fuel
  | S fuel' =>
      tree ← inp_run (decode types m ty);
      lazy_offsets ← read_lazy_offsets;
      tree ← LazyMemberRestorer_replace types
               (restore_lazy_part (read_piece fuel' types m) lazy_offsets) ty tree;
      inp_seek (List.last lazy_offsets 0);;
      mret tree
  end.

(** What [read] does with the decompressed content, a stream of its own. *)
Definition read_content (fuel : nat) (types : TypeResolver)
    (string_dict : list string) (ty : Ty) : prog stream tree :=
  local_strings ← inp_run read_dict;
  let string_dict := local_strings ++ string_dict in
  (* Read the probability models *)
  m ← inp_run (ModelReader_read types string_dict ty);
  tree ← read_piece fuel types m ty;
  (if TypeChecker_check_any types ty tree then mret tt else raise SchemaViolation);;
  mret tree.

(** The objects [read] is handed by its caller. *)
Record reading := {
  r_inp : stream;
  r_string_dict : list string
}.

(** A program on [inp], run on the caller's stream. *)
Definition on_inp {A} (p : prog stream A) : prog reading A := fun st =>
  let '(a, inp) := p (r_inp st) in
  (a, {| r_inp := inp; r_string_dict := r_string_dict st |}).

Definition read (fuel : nat) (types : TypeResolver) (ty : Ty) : prog reading tree :=
  (* Check that we're attempting to decompress a file with the right type. *)
  maybe_magic_header ← on_inp (inp_read (length MAGIC_HEADER));
  assert (bool_decide (maybe_magic_header = MAGIC_HEADER))
         "maybe_magic_header == MAGIC_HEADER";;
  maybe_format_version ← on_inp (inp_read (length FORMAT_VERSION));
  assert (bool_decide (maybe_format_version = FORMAT_VERSION))
         "maybe_format_version == FORMAT_VERSION";;
  (* Read and decompress the content *)
  content_brotli_compressed ← on_inp inp_read_all;
  content ← lift (brotli_decompress content_brotli_compressed);
  let content_inp := {| data := content; pos := 0 |} in
  string_dict ← gets r_string_dict;
  lift (read_content fuel types string_dict ty content_inp).1.

End Format.

(** ** Vocabulary for the container's properties *)

Section FormatSpec.
Context {C : Collaborators}.

(** [iteration] is an order in which Python may iterate a set. *)
Definition is_iteration (iteration : gset string -> list string) : Prop :=
  forall strings, iteration strings ≡ₚ elements strings.

(** The pieces [write_piece] is called on, starting from [root]: the root,
    and the lazy parts of a piece. *)
Inductive piece_of (types : TypeResolver) (root : Ty * tree) : Ty * tree -> Prop :=
| piece_root : piece_of types root root
| piece_lazy ty node pty attr part :
    piece_of types root (ty, node) ->
    (pty, attr, part) ∈ (LazyMemberExtractor_replace types ty node).2 ->
    piece_of types root (resolved_ty attr, part).

(** The lazy parts of a piece are smaller than the piece. *)
Definition lazies_smaller (types : TypeResolver) (size : tree -> nat) : Prop :=
  forall ty node pty attr part,
    (pty, attr, part) ∈ (LazyMemberExtractor_replace types ty node).2 ->
    size part < size node.

(** The layout of an encoded piece: the body, the count of lazy parts, the
    size of each, then the parts, each laid out in the same way. *)
Inductive piece_layout (types : TypeResolver) (m : model)
  : Ty -> tree -> bytes -> Prop :=
| piece_layout_intro ty node body lazies lazy_encoded :
    LazyMemberExtractor_replace types ty node = (body, lazies) ->
    Forall2 (fun (lazy : Ty * Attr * tree) encoded_part =>
               piece_layout types m (resolved_ty lazy.1.2) lazy.2 encoded_part)
            lazies lazy_encoded ->
    piece_layout types m ty node
      (encode types m ty body
       ++ write_varint (length lazy_encoded)
       ++ concat (map (fun encoded_part => write_varint (length encoded_part))
                      lazy_encoded)
       ++ concat lazy_encoded).

(** The absolute offsets of lazy parts of the given sizes that start at
    [start]: the running sums of the sizes, from [start] on. *)
Fixpoint offsets_from (start : nat) (sizes : list nat) : list nat :=
  match sizes with
  | [] => [start]
  | size :: sizes' => start :: offsets_from (start + size) sizes'
  end.

(** A reader gives back what its writer wrote, whatever follows in the
    stream, and reads no further. *)
Definition reads_back {A} (read : reader A) (written : bytes) (a : A) : Prop :=
  forall rest, read (written ++ rest) = Returned (a, length written).

(** What the container relies on from the modules it coordinates, for the
    pieces of a tree that conforms to the schema. [size] measures trees. *)
Record Contracts (types : TypeResolver) (size : tree -> nat) : Prop := {
  brotli_round_trip :
    forall content, brotli_decompress (brotli_compress content) = Returned content;
  varint_round_trip :
    forall n, reads_back read_varint (write_varint n) n;
  dict_round_trip :
    forall strings, reads_back read_dict (write_dict strings) strings;
  model_round_trip :
    forall string_dict ty tree,
      TypeChecker_check_any types ty tree = true ->
      (forall s, s ∈ StringCollector_visit types ty tree -> s ∈ string_dict) ->
      reads_back (ModelReader_read types string_dict ty)
        (ModelWriter_write types string_dict ty (model_tree types ty tree))
        (model_tree types ty tree);
  coder_round_trip :
    forall ty0 tree0 ty node,
      TypeChecker_check_any types ty0 tree0 = true ->
      piece_of types (ty0, tree0) (ty, node) ->
      let m := model_tree types ty0 tree0 in
      let body := (LazyMemberExtractor_replace types ty node).1 in
      reads_back (decode types m ty) (encode types m ty body) body;
  lazy_round_trip :
    forall ty0 tree0 ty node,
      TypeChecker_check_any types ty0 tree0 = true ->
      piece_of types (ty0, tree0) (ty, node) ->
      let '(body, lazies) := LazyMemberExtractor_replace types ty node in
      placeholders types ty body
        = imap (fun index '(pty, attr, _) => (pty, attr, index)) lazies /\
      fill_placeholders types ty body (map snd lazies) = node;
  lazy_parts_smaller : lazies_smaller types size
}.

(** The sizes the reader of variable-length integers gives when it is run
    on [inp] once per size, one after the other, which leaves the stream as
    [inp']. *)
Fixpoint reads_sizes (inp : stream) (sizes : list nat) (inp' : stream) : Prop :=
  match sizes with
  | [] => inp' = inp
  | size :: sizes' =>
      exists inp1,
        inp_run read_varint inp = (Returned size, inp1) /\
        reads_sizes inp1 sizes' inp'
  end.

(** The placeholders [holes] are resolved one after the other from [inp],
    which leaves the stream as [inp']: the part of a placeholder of index
    [index] is the piece [read_piece] reads at [lazy_offsets[index]], of the
    attribute's resolved type, and that piece ends at
    [lazy_offsets[index + 1]]. *)
Fixpoint restores (read_piece : Ty -> prog stream tree) (lazy_offsets : list nat)
    (holes : list (Ty * Attr * nat)) (inp : stream) (parts : list tree)
    (inp' : stream) : Prop :=
  match holes, parts with
  | [], [] => inp' = inp
  | hole :: holes', part :: parts' =>
      exists target inp1,
        lazy_offsets !! hole.2 = Some target /\
        read_piece (resolved_ty hole.1.2) (stream_seek target inp)
          = (Returned part, inp1) /\
        lazy_offsets !! (hole.2 + 1) = Some (pos inp1) /\
        restores read_piece lazy_offsets holes' inp1 parts' inp'
  | _, _ => False
  end.

End FormatSpec.

(** ** A small instance of the collaborators

    Trees of labelled nodes whose children are all lazy. The string table and
    the variable-length integers follow the formats the specification gives;
    the model is trivial, the coder writes a node's label and the number of
    its children, and the compressor stores its input behind a marker. *)

Module Toy.

Inductive ttree :=
| Node (label : string) (kids : list ttree)
| Placeholder (index : nat).

Fixpoint tree_size (t : ttree) : nat :=
  match t with
  | Node _ kids => S (sum_list (map tree_size kids))
  | Placeholder _ => 1
  end.

Fixpoint labels (t : ttree) : gset string :=
  match t with
  | Node label kids => {[label]} ∪ ⋃ (map labels kids)
  | Placeholder _ => ∅
  end.

(** A tree conforms when no placeholder is left in it. *)
Fixpoint check_any (t : ttree) : bool :=
  match t with
  | Node _ kids => forallb check_any kids
  | Placeholder _ => false
  end.

Definition byte_of_nat (n : nat) : byte := default x00 (Byte.of_nat n).

(** Modelled from the spec: [bits.write_varint] is not part of the sources.
    Base 128, little-endian, with a continuation bit on every byte except
    the last. *)
Fixpoint varint_digits (fuel : nat) (n : nat) : bytes :=
  match fuel with
  | 0 => []
  | S fuel' =>
      if n <? 128 then [byte_of_nat n]
      else byte_of_nat (128 + n mod 128) :: varint_digits fuel' (n / 128)
  end.

Definition write_varint (n : nat) : bytes := varint_digits (S n) n.

(** Modelled from the spec: [bits.read_varint]. *)
Fixpoint read_varint (input : bytes) : outcome (nat * nat) :=
  match input with
  | [] => Raised CorruptStream
  | b :: rest =>
      let v := Byte.to_nat b in
      if v <? 128 then Returned (v, 1)
      else '(high, read) ← read_varint rest;
           Returned (v - 128 + 128 * high, S read)
  end.

Definition write_str (s : string) : bytes :=
  write_varint (String.length s) ++ list_byte_of_string s.

Definition read_str (input : bytes) : outcome (string * nat) :=
  '(len, read) ← read_varint input;
  let rest := drop read input in
  if decide (len <= length rest)
  then Returned (string_of_list_byte (take len rest), read + len)
  else Raised CorruptStream.

(** Modelled from the spec: [strings.write_dict] without signature. A count,
    then for each string its byte length and its bytes. *)
Definition write_dict (strings : list string) : bytes :=
  write_varint (length strings) ++ concat (map write_str strings).

Fixpoint read_strs (count : nat) (input : bytes) : outcome (list string * nat) :=
  match count with
  | 0 => Returned ([], 0)
  | S count' =>
      '(s, read) ← read_str input;
      '(strings, read') ← read_strs count' (drop read input);
      Returned (s :: strings, read + read')
  end.

(** Modelled from the spec: [strings.read_dict] without signature. *)
Definition read_dict (input : bytes) : outcome (list string * nat) :=
  '(count, read) ← read_varint input;
  '(strings, read') ← read_strs count (drop read input);
  Returned (strings, read + read').

(** The one attribute of the toy schema: lazy, of the type of expressions. *)
Definition kid : Attr := Example.attr "expression" 8 true.

Definition extract (ty : Ty) (t : ttree) : ttree * list (Ty * Attr * ttree) :=
  match t with
  | Node label kids =>
      (Node label (imap (fun index _ => Placeholder index) kids),
       map (fun part => (ty, kid, part)) kids)
  | Placeholder index => (Placeholder index, [])
  end.

Definition holes (ty : Ty) (t : ttree) : list (Ty * Attr * nat) :=
  match t with
  | Node _ kids =>
      omap (fun k => match k with
                     | Placeholder index => Some (ty, kid, index)
                     | Node _ _ => None
                     end) kids
  | Placeholder _ => []
  end.

Definition fill (t : ttree) (parts : list ttree) : ttree :=
  match t with
  | Node label _ => Node label parts
  | Placeholder index => Placeholder index
  end.

Definition encode (t : ttree) : bytes :=
  match t with
  | Node label kids => write_str label ++ write_varint (length kids)
  | Placeholder _ => []
  end.

Definition decode (input : bytes) : outcome (ttree * nat) :=
  '(label, read) ← read_str input;
  '(count, read') ← read_varint (drop read input);
  Returned (Node label (map Placeholder (seq 0 count)), read + read').

Definition compress (content : bytes) : bytes := x00 :: content.

Definition decompress (compressed : bytes) : outcome bytes :=
  match compressed with
  | x00 :: content => Returned content
  | _ => Raised BrotliError
  end.

Definition collaborators : Collaborators :=
  Build_Collaborators
    ttree unit
    (fun _ _ t => t)
    (fun _ _ t => check_any t)
    (fun _ _ t => labels t)
    write_dict
    read_dict
    (fun _ _ _ => tt)
    (fun _ _ _ _ => [])
    (fun _ _ _ _ => Returned (tt, 0))
    (fun _ _ _ t => encode t)
    (fun _ _ _ => decode)
    (fun _ ty t => extract ty t)
    (fun _ ty t => holes ty t)
    (fun _ _ t parts => fill t parts)
    write_varint
    read_varint
    compress
    decompress.

(** A tree with strings in and out of the shared dictionary, and lazy parts
    nested twice. *)
Definition sample : ttree :=
  Node "script" [Node "x" []; Node "f" [Node "y" []; Node "x" []]].

Definition shared : list string := ["x"; "z"]%string.

(** The container [write] produces for the sample. *)
Definition container : bytes :=
  Eval vm_compute in
    w_out (write (C := collaborators) elements 10 Example.types 0
             (@Build_written collaborators sample shared [])).2.

(** Its content, decompressed. *)
Definition content : bytes := Eval vm_compute in drop 10 container.

(** The content as a stream that stands at [p]. *)
Definition content_at (p : nat) : stream := {| data := content; pos := p |}.

(** The content with the size of the first lazy part of the root declared
    one byte too large. *)
Definition corrupt : bytes := Eval vm_compute in <[21 := x05]> content.

Definition corrupt_at (p : nat) : stream := {| data := corrupt; pos := p |}.

End Toy.

(** ** Vocabulary for further properties *)

Section CallsSpec.
Context {St : Type} {M : TypeVisitorMethods St}.

(** The recorder on the visited set of [self], with [log] recorded so far. *)
Definition recording (self : TypeVisitor St) (log : list Ty) : TypeVisitor (list Ty) :=
  {| resolver := resolver self; visited_types := visited_types self; fields := log |}.

(** [self'] comes from [self] by the method calls [calls], in that order, and
    [calls] is what the recorder notes when [run] starts from the visited set
    of [self]. *)
Definition replays (run : TypeVisitor (list Ty) -> outcome (TypeVisitor (list Ty)))
    (self self' : TypeVisitor St) (calls : list Ty) : Prop :=
  resolver self' = resolver self /\
  (forall log, run (recording self log) = Returned (recording self' (log ++ calls))) /\
  for_each (visit_one (resolver self)) calls (fields self) = Returned (fields self').

End CallsSpec.

(** A call that does not raise: it returns or it does not come back. *)
Definition never_raises {A} (x : outcome A) : Prop := forall e, x <> Raised e.





(** ** The generator's tables, row by row *)

Module Tables.
Import CppTypeMacroGenerator.

(** The name [_cpp_name] gives a type, where it returns one. *)
Definition name_of (fuel : nat) (r : TypeResolver) (ty : Ty) : string :=
  match _cpp_name fuel r ty with
  | Returned n => n
  | _ => EmptyString
  end.

(** [model_ids[k]] *)
Definition id_of (ids : gmap (Ty * string) nat) (k : Ty * string) : nat :=
  default 0 (ids !! k).

Definition field_row (fuel : nat) (r : TypeResolver) (ids : gmap (Ty * string) nat)
    (ty : Ty) (attr : Attr) : field :=
  (name attr, name_of fuel r (resolved_ty attr),
   if lazy attr then "true"%string else "false"%string,
   id_of ids (ty, name attr)).

Definition interface_rows (fuel : nat) (r : TypeResolver)
    (ids : gmap (Ty * string) nat) (ty : Ty) : list (string * list field) :=
  match desc r ty with
  | TyInterface _ attrs => [(name_of fuel r ty, map (field_row fuel r ids ty) attrs)]
  | _ => []
  end.

Definition alt_rows (fuel : nat) (r : TypeResolver) (ty : Ty)
  : list (string * list string) :=
  match desc r ty with
  | Alt tys => [(name_of fuel r ty, map (name_of fuel r) tys)]
  | _ => []
  end.

Definition enum_rows (fuel : nat) (r : TypeResolver) (ty : Ty) : list string :=
  match desc r ty with
  | TyEnum _ => [name_of fuel r ty]
  | _ => []
  end.

Definition primitive_rows (fuel : nat) (r : TypeResolver) (ty : Ty) : list string :=
  match desc r ty with
  | TyPrimitive _ => [name_of fuel r ty]
  | _ => []
  end.

Definition frozen_array_rows (fuel : nat) (r : TypeResolver)
    (ids : gmap (Ty * string) nat) (ty : Ty) : list (string * string * nat) :=
  match desc r ty with
  | TyFrozenArray element_ty =>
      [(name_of fuel r ty, name_of fuel r element_ty,
        id_of ids (ty, "list-length"%string))]
  | _ => []
  end.

(** The tables of [g] list the rows of [calls], with the ids of [g], and
    every key of [calls] has an id in [g]. *)
Definition tabulates (fuel : nat) (r : TypeResolver) (calls : list Ty) (g : state)
  : Prop :=
  interfaces g = calls ≫= interface_rows fuel r (model_ids g) /\
  alts g = calls ≫= alt_rows fuel r /\
  enums g = calls ≫= enum_rows fuel r /\
  primitives g = calls ≫= primitive_rows fuel r /\
  frozen_arrays g = calls ≫= frozen_array_rows fuel r (model_ids g) /\
  forall ty k, ty ∈ calls -> k ∈ ModelIds.model_keys r ty -> is_Some (model_ids g !! k).

End Tables.

(** A set of types that holds the children of each of its types. *)
Definition closed (r : TypeResolver) (types : gset Ty) : Prop :=
  forall x c, x ∈ types -> c ∈ children r x -> c ∈ types.


(** * Properties *)

(** ** Outcomes and loops *)

Lemma bind_returned {A B} (x : outcome A) (k : A -> outcome B) (b : B) :
  x ≫= k = Returned b <-> exists a, x = Returned a /\ k a = Returned b.
Proof.
  destruct x as [a | e |]; simpl; split.
  - intros H. exists a. auto.
  - intros (a' & Ha & Hk). congruence.
  - discriminate.
  - intros (a' & Ha & _). discriminate.
  - discriminate.
  - intros (a' & Ha & _). discriminate.
Qed.

Lemma terminates_iff {A} (x : outcome A) : terminates x <-> x <> OutOfFuel.
Proof. destruct x; simpl; split; try done. Qed.

Lemma returns_iff {A} (x : outcome A) : returns x <-> exists a, x = Returned a.
Proof.
  destruct x as [a | e |]; simpl; split; try done.
  - intros _. by exists a.
  - intros (a & H). discriminate.
  - intros (a & H). discriminate.
Qed.

Lemma bind_within {A B} E (x : outcome A) (k : A -> outcome B) :
  within E x -> (forall a, x = Returned a -> within E (k a)) ->
  within E (x ≫= k).
Proof.
  destruct x as [a | e |]; simpl; intros Hx Hk.
  - apply Hk. reflexivity.
  - exact Hx.
  - exact Hx.
Qed.

Lemma for_each_app {A St} (body : A -> St -> outcome St) (xs ys : list A) (st : St) :
  for_each body (xs ++ ys) st = for_each body xs st ≫= for_each body ys.
Proof.
  revert st. induction xs as [| x xs IH]; intros st; simpl.
  - reflexivity.
  - destruct (body x st) as [st' | e |]; simpl; auto.
Qed.

Lemma for_each_invariant {A St} (P : St -> Prop) (body : A -> St -> outcome St)
    (xs : list A) (st st' : St) :
  (forall x s s', x ∈ xs -> P s -> body x s = Returned s' -> P s') ->
  P st -> for_each body xs st = Returned st' -> P st'.
Proof.
  revert st. induction xs as [| x xs IH]; intros st Hbody HP; simpl.
  - intros [= <-]. exact HP.
  - intros H. apply bind_returned in H as (s1 & H1 & H2).
    apply (IH s1); [| | exact H2].
    + intros y s s' Hy. apply Hbody. by apply list_elem_of_further.
    + apply (Hbody x st s1); [apply list_elem_of_here | exact HP | exact H1].
Qed.

Lemma for_each_within {A St} E (P : St -> Prop) (body : A -> St -> outcome St)
    (xs : list A) (st : St) :
  (forall x s, x ∈ xs -> P s -> within E (body x s)) ->
  (forall x s s', x ∈ xs -> P s -> body x s = Returned s' -> P s') ->
  P st -> within E (for_each body xs st).
Proof.
  revert st. induction xs as [| x xs IH]; intros st Hterm Hbody HP; simpl.
  - exact I.
  - apply bind_within.
    + apply Hterm; [apply list_elem_of_here | exact HP].
    + intros s1 H1. apply IH.
      * intros y s Hy. apply Hterm. by apply list_elem_of_further.
      * intros y s s' Hy. apply Hbody. by apply list_elem_of_further.
      * apply (Hbody x st s1); [apply list_elem_of_here | exact HP | exact H1].
Qed.

(** ** The walker *)

Section VisitFacts.
Context {St : Type} {M : TypeVisitorMethods St}.

Lemma unvisited_mono r (seen seen' : gset Ty) :
    seen ⊆ seen' -> unvisited r seen' <= unvisited r seen.
Proof. intros H. apply subseteq_size. set_solver. Qed.

Lemma unvisited_mark r (seen : gset Ty) ty :
    ty ∉ seen -> ty < length (universe r) ->
    unvisited r (seen ∪ {[ty]}) < unvisited r seen.
Proof.
    intros Hty Hlt. apply subset_size. apply strict_spec_alt. split.
    - set_solver.
    - intros Heq.
      assert (ty ∈ (set_seq 0 (length (universe r)) : gset Ty) ∖ seen) as Hin.
      { apply elem_of_difference. split; [| exact Hty].
        apply elem_of_set_seq. lia. }
      rewrite <- Heq in Hin. set_solver.
Qed.

Lemma unvisited_bound r (seen : gset Ty) :
    unvisited r seen <= length (universe r).
Proof.
    unfold unvisited.
    etransitivity; [apply subseteq_size, subseteq_difference_l; reflexivity |].
    rewrite size_set_seq. reflexivity.
Qed.

Lemma desc_outside r ty : length (universe r) <= ty -> desc r ty = TyNone.
Proof.
    intros H. unfold desc. by rewrite lookup_ge_None_2.
Qed.

Lemma call_method_returned m ty (self self' : TypeVisitor St) :
    call_method m ty self = Returned self' ->
    resolver self' = resolver self /\
    visited_types self' = visited_types self /\
    m (resolver self) ty (fields self) = Returned (fields self').
Proof.
    unfold call_method. intros H.
    apply bind_returned in H as (s & Hs & [= <-]). simpl. auto.
Qed.

Lemma call_method_within E m ty (self : TypeVisitor St) :
    within E (m (resolver self) ty (fields self)) ->
    within E (call_method m ty self).
Proof.
    intros H. unfold call_method. apply bind_within; [exact H |].
    intros; exact I.
Qed.

Lemma walked_nil self : walked self self [].
Proof.
    unfold walked. simpl. repeat split; try set_solver. constructor.
Qed.

Lemma walked_trans self1 self2 self3 o1 o2 :
    walked self1 self2 o1 -> walked self2 self3 o2 -> walked self1 self3 (o1 ++ o2).
Proof.
    intros (Hr1 & Hv1 & Hn1 & Hd1 & Hf1) (Hr2 & Hv2 & Hn2 & Hd2 & Hf2).
    unfold walked. repeat split.
    - congruence.
    - rewrite Hv2, Hv1, list_to_set_app_L. set_solver.
    - apply NoDup_app. repeat split; [exact Hn1 | | exact Hn2].
      intros x Hx1 Hx2. apply Hd2 in Hx2. rewrite Hv1 in Hx2. set_solver.
    - intros x Hx. apply elem_of_app in Hx as [Hx | Hx]; [by apply Hd1 |].
      apply Hd2 in Hx. rewrite Hv1 in Hx. set_solver.
    - rewrite for_each_app, Hf1. simpl. rewrite <- Hr1. exact Hf2.
Qed.

Lemma walked_children {A} (f : A -> Ty) fuel (xs : list A) :
    (forall ty self self', visit fuel ty self = Returned self' ->
       exists order, walked self self' order) ->
    forall self self',
      for_each (fun x => visit fuel (f x)) xs self = Returned self' ->
      exists order, walked self self' order.
Proof.
    intros IH. induction xs as [| x xs IHxs]; intros self self'; simpl.
    - intros [= <-]. exists []. apply walked_nil.
    - intros H. apply bind_returned in H as (self1 & H1 & H2).
      apply IH in H1 as (o1 & Ho1). apply IHxs in H2 as (o2 & Ho2).
      exists (o1 ++ o2). by eapply walked_trans.
Qed.

(** The first visit of [ty]: mark it, run its method, then the children. *)
Lemma walked_first ty (self self1 self' : TypeVisitor St) m order :
    ty ∉ visited_types self ->
    (forall s, visit_one (resolver self) ty s = m (resolver self) ty s) ->
    call_method m ty (mark_visited ty self) = Returned self1 ->
    walked self1 self' order ->
    walked self self' (ty :: order).
Proof.
    intros Hty Hone Hcall (Hr & Hv & Hn & Hd & Hf).
    apply call_method_returned in Hcall as (Hr1 & Hv1 & Hm). simpl in *.
    unfold walked. repeat split.
    - congruence.
    - rewrite Hv, Hv1. simpl. set_solver.
    - constructor; [| exact Hn]. intros Hin. apply Hd in Hin.
      rewrite Hv1 in Hin. set_solver.
    - intros x Hx. apply elem_of_cons in Hx as [-> | Hx]; [exact Hty |].
      apply Hd in Hx. rewrite Hv1 in Hx. set_solver.
    - simpl. rewrite Hone, Hm. simpl. rewrite <- Hr1. exact Hf.
Qed.

Lemma visit_walked fuel : forall ty self self',
    visit fuel ty self = Returned self' -> exists order, walked self self' order.
Proof.
    induction fuel as [| fuel IH]; intros ty self self'; simpl; [discriminate |].
    destruct (decide (ty ∈ visited_types self)) as [Hin | Hnin].
    { intros [= <-]. exists []. apply walked_nil. }
    assert (forall m self1 o,
      (forall s, visit_one (resolver self) ty s = m (resolver self) ty s) ->
      call_method m ty (mark_visited ty self) = Returned self1 ->
      walked self1 self' o -> exists order, walked self self' order) as Hfirst.
    { intros m self1 o Hone Hcall Ho. exists (ty :: o).
      by apply (walked_first ty self self1 self' m). }
    destruct (desc (resolver self) ty) as [n attrs | tys | n | n | elem |] eqn:Hdesc.
    - intros H. apply bind_returned in H as (self1 & H1 & H2).
      apply (walked_children resolved_ty) in H2 as (o & Ho); [| exact IH].
      apply (Hfirst visit_interface_type self1 o); [| exact H1 | exact Ho].
      intros s. unfold visit_one. by rewrite Hdesc.
    - intros H. apply bind_returned in H as (self1 & H1 & H2).
      apply (walked_children (fun x => x)) in H2 as (o & Ho); [| exact IH].
      apply (Hfirst visit_alt_type self1 o); [| exact H1 | exact Ho].
      intros s. unfold visit_one. by rewrite Hdesc.
    - intros H.
      apply (Hfirst visit_enum_type self' []); [| exact H | apply walked_nil].
      intros s. unfold visit_one. by rewrite Hdesc.
    - intros H.
      apply (Hfirst visit_primitive_type self' []); [| exact H | apply walked_nil].
      intros s. unfold visit_one. by rewrite Hdesc.
    - intros H. apply bind_returned in H as (self1 & H1 & H2).
      apply IH in H2 as (o & Ho).
      apply (Hfirst visit_frozen_array_type self1 o); [| exact H1 | exact Ho].
      intros s. unfold visit_one. by rewrite Hdesc.
    - intros [= <-]. exists [ty]. unfold walked. simpl.
      split; [reflexivity |]. split; [set_solver |].
      split; [apply NoDup_singleton |]. split; [set_solver |].
      unfold visit_one. by rewrite Hdesc.
Qed.

Lemma walked_visited_mono self self' order :
    walked self self' order -> visited_types self ⊆ visited_types self'.
Proof. intros (_ & Hv & _). rewrite Hv. set_solver. Qed.

Lemma visit_marks fuel ty self self' :
    visit fuel ty self = Returned self' -> ty ∈ visited_types self'.
Proof.
    destruct fuel as [| fuel]; simpl; [discriminate |].
    destruct (decide (ty ∈ visited_types self)) as [Hin | Hnin].
    { by intros [= <-]. }
    assert (ty ∈ visited_types (mark_visited ty self)) as Hmark.
    { simpl. set_solver. }
    assert (forall m self1, call_method m ty (mark_visited ty self) = Returned self1 ->
            ty ∈ visited_types self1) as Hcall.
    { intros m self1 H. apply call_method_returned in H as (_ & -> & _). exact Hmark. }
    destruct (desc (resolver self) ty); intros H.
    - apply bind_returned in H as (self1 & H1 & H2).
      apply (walked_children resolved_ty) in H2 as (o & Ho);
        [| apply visit_walked].
      eapply walked_visited_mono; eauto.
    - apply bind_returned in H as (self1 & H1 & H2).
      apply (walked_children (fun x => x)) in H2 as (o & Ho);
        [| apply visit_walked].
      eapply walked_visited_mono; eauto.
    - eauto.
    - eauto.
    - apply bind_returned in H as (self1 & H1 & H2).
      apply visit_walked in H2 as (o & Ho).
      eapply walked_visited_mono; eauto.
    - by injection H as <-.
Qed.

(** The budget [visit] needs: one more than the number of types of the
      arena it has not seen. *)
Lemma visit_within E r :
    methods_within E r ->
    forall fuel ty self,
      resolver self = r ->
      unvisited r (visited_types self) < fuel ->
      within E (visit fuel ty self).
Proof.
    intros Hterm. induction fuel as [| fuel IH]; intros ty self Hr Hfuel; [lia |].
    simpl. destruct (decide (ty ∈ visited_types self)) as [Hin | Hnin]; [exact I |].
    pose proof (Hterm ty (fields self)) as Hone. unfold visit_one in Hone.
    rewrite <- Hr in Hone.
    destruct (desc (resolver self) ty) as [n attrs | tys | n | n | elem |] eqn:Hdesc;
      try exact I.
    all: assert (ty < length (universe r)) as Hlt
      by (destruct (decide (ty < length (universe r))) as [|Hge]; [done |];
          rewrite Hr, desc_outside in Hdesc by lia; discriminate).
    all: pose proof (unvisited_mark r _ ty Hnin Hlt) as Hdec.
    all: set (P := fun s : TypeVisitor St =>
                     resolver s = r /\ unvisited r (visited_types s) < fuel).
    all: assert (forall (A : Type) (f : A -> Ty) (x : A) s s',
                   P s -> visit fuel (f x) s = Returned s' -> P s') as Hstep
      by (intros A f x s s' [Hrs Hs] Hv; apply visit_walked in Hv as (o & Ho);
          split; [destruct Ho as (-> & _); exact Hrs |];
          eapply Nat.le_lt_trans; [| exact Hs];
          apply unvisited_mono; eapply walked_visited_mono; eauto).
    all: assert (forall m self1,
                   call_method m ty (mark_visited ty self) = Returned self1 -> P self1)
           as Hcall
      by (intros m self1 H; apply call_method_returned in H as (Hr1 & Hv1 & _);
          split; [by rewrite Hr1 |];
          rewrite Hv1; eapply Nat.lt_le_trans; [exact Hdec | lia]).
    - apply bind_within.
      + by apply call_method_within.
      + intros self1 H1. apply (for_each_within E P).
        * intros x s _ [Hrs Hs]. by apply IH.
        * intros x s s' _. apply (Hstep _ resolved_ty).
        * eauto.
    - apply bind_within.
      + by apply call_method_within.
      + intros self1 H1. apply (for_each_within E P).
        * intros x s _ [Hrs Hs]. by apply IH.
        * intros x s s' _. apply (Hstep _ (fun y => y)).
        * eauto.
    - by apply call_method_within.
    - by apply call_method_within.
    - apply bind_within.
      + by apply call_method_within.
      + intros self1 H1. destruct (Hcall _ _ H1) as [Hr1 Hs1]. by apply IH.
Qed.

Lemma closes_trans r (self1 self2 self3 : TypeVisitor St) :
    closes r self1 self2 -> closes r self2 self3 -> closes r self1 self3.
Proof.
    intros (Hr1 & Hm1 & Hc1) (Hr2 & Hm2 & Hc2). split; [exact Hr2 |].
    split; [set_solver |]. intros x c Hx Hnx Hc.
    destruct (decide (x ∈ visited_types self2)) as [Hin | Hnin].
    - apply Hm2. by apply (Hc1 x).
    - by apply (Hc2 x).
Qed.

Lemma closes_children {A} (f : A -> Ty) r fuel (xs : list A) :
    (forall ty self self', resolver self = r ->
       visit fuel ty self = Returned self' -> closes r self self') ->
    forall self self', resolver self = r ->
      for_each (fun x => visit fuel (f x)) xs self = Returned self' ->
      closes r self self' /\ forall x, x ∈ xs -> f x ∈ visited_types self'.
Proof.
    intros IH. induction xs as [| x xs IHxs]; intros self self' Hr; simpl.
    - intros [= <-]. split; [| set_solver]. split; [exact Hr |]. set_solver.
    - intros H. apply bind_returned in H as (self1 & H1 & H2).
      pose proof (visit_marks _ _ _ _ H1) as Hmark.
      apply IH in H1 as Hc1; [| exact Hr].
      destruct (IHxs self1 self') as [Hc2 Hin]; [by destruct Hc1 | exact H2 |].
      split; [by eapply closes_trans |].
      intros y Hy. apply elem_of_cons in Hy as [-> | Hy]; [| by apply Hin].
      destruct Hc2 as (_ & Hm & _). by apply Hm.
Qed.

Lemma closes_first r ty (self self1 self' : TypeVisitor St) m :
    resolver self = r ->
    call_method m ty (mark_visited ty self) = Returned self1 ->
    closes r self1 self' ->
    (forall c, c ∈ children r ty -> c ∈ visited_types self') ->
    closes r self self'.
Proof.
    intros Hr Hcall (Hr' & Hm & Hc) Hty.
    apply call_method_returned in Hcall as (Hr1 & Hv1 & _). simpl in *.
    split; [exact Hr' |]. split; [rewrite Hv1 in Hm; set_solver |].
    intros x c Hx Hnx Hcx.
    destruct (decide (x = ty)) as [-> | Hne]; [by apply Hty |].
    apply (Hc x); [exact Hx | rewrite Hv1; set_solver | exact Hcx].
Qed.

Lemma closes_refl r (self : TypeVisitor St) : resolver self = r -> closes r self self.
Proof. intros Hr. split; [exact Hr |]. split; [done |]. intros x c Hx Hnx. done. Qed.

Lemma visit_closes r fuel : forall ty self self',
    resolver self = r -> visit fuel ty self = Returned self' -> closes r self self'.
Proof.
    induction fuel as [| fuel IH]; intros ty self self' Hr; simpl; [discriminate |].
    destruct (decide (ty ∈ visited_types self)) as [Hin | Hnin].
    { intros [= <-]. by apply closes_refl. }
    assert (forall m self1, call_method m ty (mark_visited ty self) = Returned self1 ->
                            resolver self1 = r) as Hres.
    { intros m self1 H. by apply call_method_returned in H as (-> & _). }
    unfold children in *.
    destruct (desc (resolver self) ty) as [n attrs | tys | n | n | elem |] eqn:Hdesc;
      rewrite Hr in Hdesc; intros H.
    - apply bind_returned in H as (self1 & H1 & H2).
      apply (closes_children resolved_ty r) in H2 as [Hc Hin]; eauto.
      eapply closes_first; eauto. unfold children. rewrite Hdesc.
      intros c Hc'. apply list_elem_of_fmap in Hc' as (a & -> & Ha). by apply Hin.
    - apply bind_returned in H as (self1 & H1 & H2).
      apply (closes_children (fun x => x) r) in H2 as [Hc Hin]; eauto.
      eapply closes_first; eauto. unfold children. by rewrite Hdesc.
    - eapply closes_first; eauto.
      + apply closes_refl. eauto.
      + unfold children. rewrite Hdesc. set_solver.
    - eapply closes_first; eauto.
      + apply closes_refl. eauto.
      + unfold children. rewrite Hdesc. set_solver.
    - apply bind_returned in H as (self1 & H1 & H2).
      pose proof (visit_marks _ _ _ _ H2) as Hmark.
      apply IH in H2; eauto.
      eapply closes_first; eauto. unfold children. rewrite Hdesc.
      intros c Hc'. apply list_elem_of_singleton in Hc' as ->. exact Hmark.
    - injection H as <-. split; [exact Hr |]. split; [simpl; set_solver |].
      simpl. intros x c Hx Hnx Hc. assert (x = ty) as -> by set_solver.
      unfold children in Hc. rewrite Hdesc in Hc. set_solver.
Qed.

Lemma reachable_from_child r ty c x :
    c ∈ children r ty -> reachable r c x -> reachable r ty x.
Proof.
    intros Hc Hx. induction Hx as [| y y' _ IH Hy].
    - eapply reachable_step; [apply reachable_root | exact Hc].
    - eapply reachable_step; [exact IH | exact Hy].
Qed.

Lemma adds_reachable_children {A} (f : A -> Ty) r fuel (xs : list A) :
    (forall ty self self', resolver self = r ->
       visit fuel ty self = Returned self' -> adds_reachable r [ty] self self') ->
    forall self self', resolver self = r ->
      for_each (fun x => visit fuel (f x)) xs self = Returned self' ->
      adds_reachable r (map f xs) self self'.
Proof.
    intros IH. induction xs as [| x xs IHxs]; intros self self' Hr; simpl.
    - intros [= <-]. split; [exact Hr |]. intros y Hy. by left.
    - intros H. apply bind_returned in H as (self1 & H1 & H2).
      apply IH in H1 as [Hr1 H1]; [| exact Hr].
      apply IHxs in H2 as [Hr2 H2]; [| exact Hr1].
      split; [exact Hr2 |]. intros y Hy.
      destruct (H2 y Hy) as [Hy1 | (root & Hroot & Hreach)].
      + destruct (H1 y Hy1) as [Hy0 | (root & Hroot & Hreach)]; [by left |].
        right. exists root. split; [| exact Hreach].
        apply list_elem_of_singleton in Hroot as ->. apply list_elem_of_here.
      + right. exists root. split; [| exact Hreach].
        by apply list_elem_of_further.
Qed.

Lemma adds_reachable_first r ty (self self1 self' : TypeVisitor St) m roots :
    resolver self = r ->
    call_method m ty (mark_visited ty self) = Returned self1 ->
    (forall c, c ∈ roots -> c ∈ children r ty) ->
    adds_reachable r roots self1 self' ->
    adds_reachable r [ty] self self'.
Proof.
    intros Hr Hcall Hroots [Hr' Hadd].
    apply call_method_returned in Hcall as (_ & Hv1 & _). simpl in Hv1.
    split; [exact Hr' |]. intros x Hx.
    destruct (Hadd x Hx) as [Hx1 | (root & Hroot & Hreach)].
    - rewrite Hv1 in Hx1. apply elem_of_union in Hx1 as [Hx0 | Hx0]; [by left |].
      apply elem_of_singleton in Hx0 as ->. right. exists ty.
      split; [apply list_elem_of_here | apply reachable_root].
    - right. exists ty. split; [apply list_elem_of_here |].
      eapply reachable_from_child; [apply Hroots |]; eauto.
Qed.

Lemma adds_reachable_refl r roots (self : TypeVisitor St) :
    resolver self = r -> adds_reachable r roots self self.
Proof. intros Hr. split; [exact Hr |]. intros x Hx. by left. Qed.

Lemma visit_adds_reachable r fuel : forall ty self self',
    resolver self = r -> visit fuel ty self = Returned self' ->
    adds_reachable r [ty] self self'.
Proof.
    induction fuel as [| fuel IH]; intros ty self self' Hr; simpl; [discriminate |].
    destruct (decide (ty ∈ visited_types self)) as [Hin | Hnin].
    { intros [= <-]. by apply adds_reachable_refl. }
    assert (forall m self1, call_method m ty (mark_visited ty self) = Returned self1 ->
                            resolver self1 = r) as Hres.
    { intros m self1 H. by apply call_method_returned in H as (-> & _). }
    destruct (desc (resolver self) ty) as [n attrs | tys | n | n | elem |] eqn:Hdesc;
      rewrite Hr in Hdesc; intros H.
    - apply bind_returned in H as (self1 & H1 & H2).
      apply (adds_reachable_children resolved_ty r) in H2; eauto.
      eapply adds_reachable_first; eauto.
      unfold children. by rewrite Hdesc.
    - apply bind_returned in H as (self1 & H1 & H2).
      apply (adds_reachable_children (fun x => x) r) in H2; eauto.
      rewrite map_id in H2.
      eapply adds_reachable_first; eauto.
      unfold children. by rewrite Hdesc.
    - eapply (adds_reachable_first _ _ _ _ _ _ []); eauto.
      + set_solver.
      + apply adds_reachable_refl. eauto.
    - eapply (adds_reachable_first _ _ _ _ _ _ []); eauto.
      + set_solver.
      + apply adds_reachable_refl. eauto.
    - apply bind_returned in H as (self1 & H1 & H2).
      apply IH in H2; eauto.
      eapply adds_reachable_first; eauto.
      unfold children. by rewrite Hdesc.
    - injection H as <-. split; [exact Hr |]. simpl. intros x Hx.
      apply elem_of_union in Hx as [Hx | Hx]; [by left |].
      apply elem_of_singleton in Hx as ->. right. exists ty.
      split; [apply list_elem_of_here | apply reachable_root].
Qed.

(** A traversal from an empty visited set sees everything reachable from
      its root. *)
Lemma visit_reachable r fuel root (self self' : TypeVisitor St) :
    resolver self = r -> visited_types self = ∅ ->
    visit fuel root self = Returned self' ->
    forall ty, reachable r root ty -> ty ∈ visited_types self'.
Proof.
    intros Hr Hempty Hv ty Hreach.
    pose proof (visit_marks _ _ _ _ Hv) as Hroot.
    apply (visit_closes r) in Hv as (_ & _ & Hc); [| exact Hr].
    induction Hreach as [| ty ty' _ IH Hchild]; [exact Hroot |].
    apply (Hc ty); [exact IH | rewrite Hempty; set_solver | exact Hchild].
Qed.

End VisitFacts.

(** ** Budgets: a larger one gives the same result *)

Lemma for_each_mono {A St} (body1 body2 : A -> St -> outcome St) (xs : list A) :
  (forall x s s', body1 x s = Returned s' -> body2 x s = Returned s') ->
  forall st st', for_each body1 xs st = Returned st' ->
                 for_each body2 xs st = Returned st'.
Proof.
  intros Hbody. induction xs as [| x xs IH]; intros st st'; simpl; [done |].
  intros H. apply bind_returned in H as (s1 & H1 & H2).
  apply Hbody in H1. rewrite H1. simpl. by apply IH.
Qed.

Lemma map_each_mono {A B} (f1 f2 : A -> outcome B) (xs : list A) :
  (forall x y, f1 x = Returned y -> f2 x = Returned y) ->
  forall ys, map_each f1 xs = Returned ys -> map_each f2 xs = Returned ys.
Proof.
  intros Hf. induction xs as [| x xs IH]; intros ys; simpl; [done |].
  intros H. apply bind_returned in H as (y & H1 & H2).
  apply bind_returned in H2 as (ys' & H2 & H3).
  apply Hf in H1. rewrite H1. simpl. rewrite (IH _ H2). exact H3.
Qed.

Lemma visit_mono {St} (M1 M2 : TypeVisitorMethods St) :
  (forall r ty s s',
     (visit_interface_type (TypeVisitorMethods := M1) r ty s = Returned s' ->
      visit_interface_type (TypeVisitorMethods := M2) r ty s = Returned s') /\
     (visit_alt_type (TypeVisitorMethods := M1) r ty s = Returned s' ->
      visit_alt_type (TypeVisitorMethods := M2) r ty s = Returned s') /\
     (visit_enum_type (TypeVisitorMethods := M1) r ty s = Returned s' ->
      visit_enum_type (TypeVisitorMethods := M2) r ty s = Returned s') /\
     (visit_primitive_type (TypeVisitorMethods := M1) r ty s = Returned s' ->
      visit_primitive_type (TypeVisitorMethods := M2) r ty s = Returned s') /\
     (visit_frozen_array_type (TypeVisitorMethods := M1) r ty s = Returned s' ->
      visit_frozen_array_type (TypeVisitorMethods := M2) r ty s = Returned s')) ->
  forall fuel1 fuel2 ty self self',
    fuel1 <= fuel2 ->
    visit (M := M1) fuel1 ty self = Returned self' ->
    visit (M := M2) fuel2 ty self = Returned self'.
Proof.
  intros HM.
  assert (forall m1 m2 ty (self self' : TypeVisitor St),
    (forall r ty s s', m1 r ty s = Returned s' -> m2 r ty s = Returned s') ->
    call_method m1 ty self = Returned self' ->
    call_method m2 ty self = Returned self') as Hcall.
  { intros m1 m2 ty self self' Hm H. unfold call_method in *.
    apply bind_returned in H as (s & H1 & H2). apply Hm in H1. by rewrite H1. }
  induction fuel1 as [| fuel1 IH]; intros fuel2 ty self self' Hle; [discriminate |].
  destruct fuel2 as [| fuel2]; [lia |]. simpl.
  destruct (decide (ty ∈ visited_types self)) as [Hin | Hnin]; [done |].
  destruct (desc (resolver self) ty) as [n attrs | tys | n | n | elem |]; intros H.
  - apply bind_returned in H as (self1 & H1 & H2).
    apply (Hcall _ (visit_interface_type (TypeVisitorMethods := M2))) in H1;
      [| intros; by apply HM].
    rewrite H1. simpl. revert H2. apply for_each_mono.
    intros x s s'. apply IH. lia.
  - apply bind_returned in H as (self1 & H1 & H2).
    apply (Hcall _ (visit_alt_type (TypeVisitorMethods := M2))) in H1;
      [| intros; by apply HM].
    rewrite H1. simpl. revert H2. apply for_each_mono.
    intros x s s'. apply IH. lia.
  - revert H. apply Hcall. intros; by apply HM.
  - revert H. apply Hcall. intros; by apply HM.
  - apply bind_returned in H as (self1 & H1 & H2).
    apply (Hcall _ (visit_frozen_array_type (TypeVisitorMethods := M2))) in H1;
      [| intros; by apply HM].
    rewrite H1. simpl. revert H2. apply IH. lia.
  - exact H.
Qed.

(** ** The walker terminates and sees each type once *)

(** C8. On every type graph, cyclic or not, [visit] returns once its budget
    exceeds the size of the arena, provided the methods of the subclass
    return. A type already in the visited set is not entered again. A
    traversal that returns has marked its root, and has run the methods on a
    duplicate-free list of types that were not visited before, once each and
    in that order. For a type it sees for the first time, [visit] runs the
    interface's method and then visits each attribute's resolved type, runs
    the alternation's method and then visits each member, runs the array's
    method and then visits the element type. *)
Theorem visit_terminates_once {St : Type} {M : TypeVisitorMethods St}
    (fuel : nat) (ty : Ty) (self : TypeVisitor St) :
  methods_terminate (resolver self) ->
  length (universe (resolver self)) <= fuel ->
  terminates (visit (S fuel) ty self) /\
  (ty ∈ visited_types self -> visit (S fuel) ty self = Returned self) /\
  (forall self', visit (S fuel) ty self = Returned self' ->
     ty ∈ visited_types self' /\ exists order, walked self self' order) /\
  (ty ∉ visited_types self ->
     match desc (resolver self) ty with
     | TyInterface _ attrs =>
         visit (S fuel) ty self =
         (self1 ← call_method visit_interface_type ty (mark_visited ty self);
          for_each (fun attr => visit fuel (resolved_ty attr)) attrs self1)
     | Alt tys =>
         visit (S fuel) ty self =
         (self1 ← call_method visit_alt_type ty (mark_visited ty self);
          for_each (fun subty => visit fuel subty) tys self1)
     | TyFrozenArray element_ty =>
         visit (S fuel) ty self =
         (self1 ← call_method visit_frozen_array_type ty (mark_visited ty self);
          visit fuel element_ty self1)
     | TyEnum _ =>
         visit (S fuel) ty self =
         call_method visit_enum_type ty (mark_visited ty self)
     | TyPrimitive _ =>
         visit (S fuel) ty self =
         call_method visit_primitive_type ty (mark_visited ty self)
     | TyNone => visit (S fuel) ty self = Returned (mark_visited ty self)
     end).
Proof.
  intros Hterm Hfuel. repeat split.
  - apply (visit_within _ (resolver self)); [exact Hterm | reflexivity |].
    pose proof (unvisited_bound (resolver self) (visited_types self)). lia.
  - intros Hin. simpl. by rewrite decide_True.
  - eapply visit_marks; eauto.
  - eapply visit_walked; eauto.
  - intros Hnin. simpl. rewrite decide_False by exact Hnin.
    by destruct (desc (resolver self) ty).
Qed.

Lemma recorder_terminates r : methods_terminate (M := Example.recorder) r.
Proof. intros ty s. unfold visit_one. by destruct (desc r ty). Qed.

Lemma visit_terminates_once_witness :
  let self := TypeVisitor_init Example.types ([] : list Ty) in
  methods_terminate (M := Example.recorder) (resolver self) /\
  length (universe (resolver self)) <= 14 /\
  terminates (visit (M := Example.recorder) 15 0 self) /\
  (forall self', visit (M := Example.recorder) 15 0 self = Returned self' ->
     0 ∈ visited_types self' /\
     exists order, walked (M := Example.recorder) self self' order).
Proof.
  intros self.
  assert (methods_terminate (M := Example.recorder) (resolver self)) as Hterm
    by apply recorder_terminates.
  assert (length (universe (resolver self)) <= 14) as Hlen by (simpl; lia).
  destruct (visit_terminates_once (M := Example.recorder) 14 0 self Hterm Hlen)
    as (H1 & _ & H3 & _).
  auto.
Defined.

(** The recorder sees the example schema in depth-first order. *)
Example recorder_order :
  fields <$> (match visit (M := Example.recorder) 15 0
                      (TypeVisitor_init Example.types []) with
              | Returned self => Some self
              | _ => None
              end)
  = Some [0; 1; 2; 5; 3; 4; 6; 7; 8; 9; 12; 10; 13].
Proof. vm_compute. reflexivity. Qed.

(** ** The model id allocation *)

Section GeneratorFacts.
Import CppTypeMacroGenerator ModelIds.

Lemma cpp_name_mono r : forall fuel fuel' ty n,
    fuel <= fuel' ->
    _cpp_name fuel r ty = Returned n -> _cpp_name fuel' r ty = Returned n.
Proof.
    induction fuel as [| fuel IH]; intros fuel' ty n Hle; [discriminate |].
    destruct fuel' as [| fuel']; [lia |]. simpl.
    destruct (desc r ty) as [? ? | tys | ? | ? | elem |]; try done.
    - intros H. apply bind_returned in H as (names & H1 & H2).
      rewrite (map_each_mono (_cpp_name fuel r) (_cpp_name fuel' r) tys
                 (fun x y => IH fuel' x y ltac:(lia)) names H1).
      exact H2.
    - intros H. apply bind_returned in H as (e & H1 & H2).
      rewrite (IH fuel' elem e); auto. lia.
Qed.

Lemma first_use_numbered k keys g :
    numbered keys g ->
    numbered (first_use keys k) (_get_insert_model_id k g).2 /\
    model_ids (_get_insert_model_id k g).2 !! k = Some (_get_insert_model_id k g).1.
Proof.
    intros (Hnd & Hnext & Hnum). unfold _get_insert_model_id, first_use.
    destruct (model_ids g !! k) as [id |] eqn:Hk; simpl.
    - split; [| exact Hk]. rewrite decide_True.
      + by split.
      + apply Hnum in Hk. by eapply list_elem_of_lookup_2.
    - assert (k ∉ keys) as Hnin.
      { intros Hin. apply list_elem_of_lookup in Hin as (i & Hi).
        apply Hnum in Hi. congruence. }
      rewrite decide_False by exact Hnin.
      split; [| by rewrite lookup_insert_eq].
      unfold numbered. cbn [model_ids next_model_id].
      split; [| split].
      + apply NoDup_app. repeat split; [exact Hnd | | apply NoDup_singleton].
        intros x Hx Hx'. apply list_elem_of_singleton in Hx' as ->. done.
      + rewrite length_app. simpl. lia.
      + intros k' i. destruct (decide (k = k')) as [<- | Hne].
        * rewrite lookup_insert_eq. split.
          -- intros [= <-]. rewrite Hnext, lookup_app_r by lia.
             by rewrite Nat.sub_diag.
          -- intros Hi. f_equal. rewrite Hnext.
             destruct (decide (i < length keys)) as [Hlt | Hge].
             ++ rewrite lookup_app_l in Hi by exact Hlt.
                exfalso. apply Hnin. by eapply list_elem_of_lookup_2.
             ++ rewrite lookup_app_r in Hi by lia.
                destruct (i - length keys) as [| j] eqn:Hj; [lia | done].
        * rewrite lookup_insert_ne by exact Hne. rewrite Hnum. split.
          -- intros Hi. rewrite lookup_app_l; [exact Hi |].
             by eapply lookup_lt_Some.
          -- intros Hi. destruct (decide (i < length keys)) as [Hlt | Hge].
             ++ by rewrite lookup_app_l in Hi.
             ++ rewrite lookup_app_r in Hi by lia.
                destruct (i - length keys) as [| j]; simpl in Hi; [congruence | done].
Qed.

Lemma numbered_same keys g g' :
    model_ids g' = model_ids g -> next_model_id g' = next_model_id g ->
    numbered keys g -> numbered keys g'.
Proof. intros Hm Hn (? & ? & ?). unfold numbered. rewrite Hm, Hn. auto. Qed.

Lemma interface_fields_numbered fuel r ty attrs : forall g fs g' fs' keys,
    for_each (interface_field fuel r ty) attrs (g, fs) = Returned (g', fs') ->
    numbered keys g ->
    numbered (fold_left first_use (map (fun attr => (ty, name attr)) attrs) keys) g'.
Proof.
    induction attrs as [| a attrs IH]; intros g fs g' fs' keys; simpl.
    - by intros [= <- <-].
    - intros H Hnum. apply bind_returned in H as ([g1 fs1] & H1 & H2).
      unfold interface_field in H1.
      pose proof (first_use_numbered (ty, name a) keys g Hnum) as [Hnum1 _].
      destruct (_get_insert_model_id (ty, name a) g) as [id g0]. simpl in *.
      apply bind_returned in H1 as (nm & _ & [= <- <-]).
      by eapply IH.
Qed.

Lemma visit_one_numbered fuel r ty g g' keys :
    visit_one (M := methods fuel) r ty g = Returned g' ->
    numbered keys g ->
    numbered (fold_left first_use (model_keys r ty) keys) g'.
Proof.
    unfold visit_one, model_keys. simpl.
    destruct (desc r ty) as [n attrs | tys | n | n | elem |] eqn:Hdesc; simpl.
    - unfold visit_interface_type. rewrite Hdesc. intros H Hnum.
      apply bind_returned in H as ([g1 fs] & H1 & H2).
      apply bind_returned in H2 as (nm & _ & [= <-]).
      eapply numbered_same; [| | by eapply interface_fields_numbered]; done.
    - unfold visit_alt_type. rewrite Hdesc. intros H Hnum.
      apply bind_returned in H as (nm & _ & H).
      apply bind_returned in H as (nms & _ & [= <-]).
      by eapply numbered_same.
    - unfold visit_enum_type. intros H Hnum.
      apply bind_returned in H as (nm & _ & [= <-]). by eapply numbered_same.
    - unfold visit_primitive_type. intros H Hnum.
      apply bind_returned in H as (nm & _ & [= <-]). by eapply numbered_same.
    - unfold visit_frozen_array_type. rewrite Hdesc. intros H Hnum.
      pose proof (first_use_numbered (ty, "list-length"%string) keys g Hnum)
        as [Hnum1 _].
      destruct (_get_insert_model_id (ty, "list-length"%string) g) as [id g0].
      simpl in *.
      apply bind_returned in H as (nm & _ & H).
      apply bind_returned in H as (nm' & _ & [= <-]).
      by eapply numbered_same.
    - by intros [= <-].
Qed.

Lemma walk_numbered fuel r order : forall g g' keys,
    for_each (visit_one (M := methods fuel) r) order g = Returned g' ->
    numbered keys g ->
    numbered (fold_left first_use (order ≫= model_keys r) keys) g'.
Proof.
    induction order as [| ty order IH]; intros g g' keys; simpl.
    - by intros [= <-].
    - intros H Hnum. apply bind_returned in H as (g1 & H1 & H2).
      rewrite fold_left_app. eapply IH; [exact H2 |].
      by eapply visit_one_numbered.
Qed.

Lemma numbered_fresh : numbered [] fresh.
Proof.
    split; [constructor |]. split; [reflexivity |].
    intros k i. simpl. by rewrite lookup_empty.
Qed.

Lemma first_uses_elem k uses : forall keys,
    k ∈ fold_left first_use uses keys <-> k ∈ keys \/ k ∈ uses.
Proof.
    induction uses as [| u uses IH]; intros keys; simpl.
    - set_solver.
    - rewrite IH. unfold first_use. destruct (decide (u ∈ keys)); set_solver.
Qed.

(** *** A larger budget changes nothing *)

Lemma interface_field_mono fuel fuel' r ty a acc acc' :
    fuel <= fuel' ->
    interface_field fuel r ty a acc = Returned acc' ->
    interface_field fuel' r ty a acc = Returned acc'.
Proof.
    intros Hle. unfold interface_field. destruct acc as [g fs].
    destruct (_get_insert_model_id (ty, name a) g) as [id g1].
    intros H. apply bind_returned in H as (nm & H1 & H2).
    by rewrite (cpp_name_mono r fuel fuel' _ nm Hle H1).
Qed.

Lemma methods_mono fuel fuel' r ty s s' :
    fuel <= fuel' ->
    (visit_interface_type fuel r ty s = Returned s' ->
     visit_interface_type fuel' r ty s = Returned s') /\
    (visit_alt_type fuel r ty s = Returned s' ->
     visit_alt_type fuel' r ty s = Returned s') /\
    (visit_enum_type fuel r ty s = Returned s' ->
     visit_enum_type fuel' r ty s = Returned s') /\
    (visit_primitive_type fuel r ty s = Returned s' ->
     visit_primitive_type fuel' r ty s = Returned s') /\
    (visit_frozen_array_type fuel r ty s = Returned s' ->
     visit_frozen_array_type fuel' r ty s = Returned s').
Proof.
    intros Hle.
    pose proof (cpp_name_mono r fuel fuel') as Hname.
    repeat split.
    - unfold visit_interface_type. destruct (desc r ty); try done.
      intros H. apply bind_returned in H as ([g1 fs] & H1 & H2).
      apply bind_returned in H2 as (nm & H2 & H3).
      rewrite (for_each_mono (interface_field fuel r ty) (interface_field fuel' r ty)
                 attrs (fun x a b => interface_field_mono fuel fuel' r ty x a b Hle)
                 _ _ H1).
      simpl. by rewrite (Hname _ _ Hle H2).
    - unfold visit_alt_type. destruct (desc r ty); try done.
      intros H. apply bind_returned in H as (nm & H1 & H2).
      apply bind_returned in H2 as (nms & H2 & H3).
      rewrite (Hname _ _ Hle H1). simpl.
      by rewrite (map_each_mono (_cpp_name fuel r) (_cpp_name fuel' r) tys
                    (fun x y => Hname x y Hle) nms H2).
    - unfold visit_enum_type. intros H. apply bind_returned in H as (nm & H1 & H2).
      by rewrite (Hname _ _ Hle H1).
    - unfold visit_primitive_type. intros H.
      apply bind_returned in H as (nm & H1 & H2).
      by rewrite (Hname _ _ Hle H1).
    - unfold visit_frozen_array_type.
      destruct (_get_insert_model_id (ty, "list-length"%string) s) as [id g1].
      destruct (desc r ty); try done.
      intros H. apply bind_returned in H as (nm & H1 & H2).
      apply bind_returned in H2 as (nm' & H2 & H3).
      by rewrite (Hname _ _ Hle H1), (Hname _ _ Hle H2).
Qed.

Lemma run_mono fuel fuel' r self' :
    fuel <= fuel' -> run fuel r = Returned self' -> run fuel' r = Returned self'.
Proof.
    intros Hle. unfold run, generate. simpl.
    destruct (idl.interfaces r !! "Script"%string) as [script |]; [| done].
    apply (visit_mono (methods fuel) (methods fuel')); [| exact Hle].
    intros r0 ty s s'. by apply methods_mono.
Qed.

Lemma run_deterministic fuel fuel' r self' self'' :
    run fuel r = Returned self' -> run fuel' r = Returned self'' -> self'' = self'.
Proof.
    intros H1 H2.
    apply (run_mono _ (Nat.max fuel fuel')) in H1; [| lia].
    apply (run_mono _ (Nat.max fuel fuel')) in H2; [| lia].
    congruence.
Qed.

(** *** The generator returns *)

Lemma map_each_returns {A B} (f : A -> outcome B) (xs : list A) :
    (forall x, returns (f x)) -> returns (map_each f xs).
Proof.
    intros Hf. induction xs as [| x xs IH]; simpl; [exact I |].
    apply bind_within; [apply Hf |]. intros y _.
    apply bind_within; [exact IH |]. intros ys _. exact I.
Qed.

Lemma methods_return fuel r :
    names_return fuel r -> methods_within (M := methods fuel) (fun _ => False) r.
Proof.
    intros Hnames ty s. unfold visit_one. simpl.
    destruct (desc r ty) as [n attrs | tys | n | n | elem |] eqn:Hdesc.
    - unfold visit_interface_type. rewrite Hdesc.
      apply bind_within.
      + apply (for_each_within _ (fun _ => True)); [| done | done].
        intros a [g fs] _ _. unfold interface_field.
        destruct (_get_insert_model_id (ty, name a) g) as [id g1].
        apply bind_within; [apply Hnames |]. intros; exact I.
      + intros [g fs] _. apply bind_within; [apply Hnames |]. intros; exact I.
    - unfold visit_alt_type. rewrite Hdesc.
      apply bind_within; [apply Hnames |]. intros nm _.
      apply bind_within; [by apply map_each_returns |]. intros; exact I.
    - unfold visit_enum_type. apply bind_within; [apply Hnames |]. intros; exact I.
    - unfold visit_primitive_type.
      apply bind_within; [apply Hnames |]. intros; exact I.
    - unfold visit_frozen_array_type. rewrite Hdesc.
      destruct (_get_insert_model_id (ty, "list-length"%string) s) as [id g1].
      apply bind_within; [apply Hnames |]. intros nm _.
      apply bind_within; [apply Hnames |]. intros; exact I.
    - exact I.
Qed.

End GeneratorFacts.

(** C7. With [Script] in the resolver, a budget above the size of the arena
    and type names that resolve, the generator returns, having walked
    exactly the types reachable from [Script], each once. The ids it hands
    out number the keys in the order of their first use in that traversal:
    the key used first gets 0, the next new key 1, and so on. So every
    (interface, attribute name) pair and every (array, list-length) key of a
    reachable type has an id, two keys never share one, the ids in use are
    exactly [0 .. next_model_id - 1], and another run over the same schema,
    with whatever budget, ends in the same state. *)
Theorem model_ids_first_use (fuel : nat) (r : TypeResolver) (script : Ty) :
  idl.interfaces r !! "Script"%string = Some script ->
  length (universe r) < fuel ->
  ModelIds.names_return fuel r ->
  exists self' order,
    CppTypeMacroGenerator.run fuel r = Returned self' /\
    walked (M := CppTypeMacroGenerator.methods fuel)
      (TypeVisitor_init r CppTypeMacroGenerator.fresh) self' order /\
    (forall ty, ty ∈ order <-> reachable r script ty) /\
    ModelIds.numbered (ModelIds.first_uses (order ≫= ModelIds.model_keys r))
      (fields self') /\
    (forall ty k, reachable r script ty -> k ∈ ModelIds.model_keys r ty ->
       is_Some (CppTypeMacroGenerator.model_ids (fields self') !! k)) /\
    (forall k1 k2 id,
       CppTypeMacroGenerator.model_ids (fields self') !! k1 = Some id ->
       CppTypeMacroGenerator.model_ids (fields self') !! k2 = Some id ->
       k1 = k2) /\
    (forall id,
       id < CppTypeMacroGenerator.next_model_id (fields self') <->
       exists k, CppTypeMacroGenerator.model_ids (fields self') !! k = Some id) /\
    (forall fuel' self'',
       CppTypeMacroGenerator.run fuel' r = Returned self'' -> self'' = self').
Proof.
  intros Hscript Hfuel Hnames.
  set (self := TypeVisitor_init r CppTypeMacroGenerator.fresh).
  assert (CppTypeMacroGenerator.run fuel r =
          visit (M := CppTypeMacroGenerator.methods fuel) fuel script self) as Hrun.
  { unfold CppTypeMacroGenerator.run, CppTypeMacroGenerator.generate. simpl.
    by rewrite Hscript. }
  assert (returns (visit (M := CppTypeMacroGenerator.methods fuel) fuel script self))
    as Hret.
  { apply (visit_within _ r); [by apply methods_return | reflexivity |].
    pose proof (unvisited_bound r (visited_types self)). lia. }
  apply returns_iff in Hret as (self' & Hv).
  destruct (visit_walked _ _ _ _ Hv) as (order & Hwalk).
  pose proof Hwalk as (Hr' & Hvis & Hnd & _ & Hfold).
  assert (forall ty, ty ∈ order <-> reachable r script ty) as Horder.
  { intros ty. split.
    - intros Hin.
      destruct (visit_adds_reachable r fuel script self self' eq_refl Hv) as [_ Hadd].
      destruct (Hadd ty) as [Hin0 | (root & Hroot & Hreach)].
      + rewrite Hvis. set_solver.
      + simpl in Hin0. set_solver.
      + by apply list_elem_of_singleton in Hroot as ->.
    - intros Hreach.
      pose proof (visit_reachable r fuel script self self' eq_refl eq_refl Hv ty Hreach)
        as Hin.
      rewrite Hvis in Hin. simpl in Hin. set_solver. }
  pose proof (walk_numbered fuel r order _ _ [] Hfold numbered_fresh) as Hnum.
  fold (ModelIds.first_uses (order ≫= ModelIds.model_keys r)) in Hnum.
  exists self', order. rewrite Hrun.
  split; [exact Hv |]. split; [exact Hwalk |]. split; [exact Horder |].
  split; [exact Hnum |].
  destruct Hnum as (Hkn & Hnext & Hids).
  split; [| split; [| split]].
  - intros ty k Hreach Hk.
    assert (k ∈ ModelIds.first_uses (order ≫= ModelIds.model_keys r)) as Hin.
    { unfold ModelIds.first_uses. apply first_uses_elem. right.
      apply list_elem_of_bind. exists ty. split; [exact Hk |]. by apply Horder. }
    apply list_elem_of_lookup in Hin as (i & Hi). exists i. by apply Hids.
  - intros k1 k2 id H1 H2. apply Hids in H1, H2. congruence.
  - intros id. rewrite Hnext. split.
    + intros Hlt. apply lookup_lt_is_Some in Hlt as (k & Hk).
      exists k. by apply Hids.
    + intros (k & Hk). apply Hids in Hk. by eapply lookup_lt_Some.
  - intros fuel' self'' Hrun'. rewrite <- Hrun in Hv.
    by eapply run_deterministic.
Qed.

(** [generate] does not reset the visited set: called again on the same
    generator it finds [Script] visited already, and returns with the fields
    it has just reset, no id allocated. *)
Remark generate_again (fuel fuel' : nat) (r : TypeResolver)
    (self : TypeVisitor CppTypeMacroGenerator.state) :
  CppTypeMacroGenerator.run fuel r = Returned self ->
  CppTypeMacroGenerator.generate (S fuel') self
  = Returned {| resolver := resolver self;
                visited_types := visited_types self;
                fields := CppTypeMacroGenerator.fresh |}.
Proof.
  unfold CppTypeMacroGenerator.run, CppTypeMacroGenerator.generate. simpl.
  destruct (idl.interfaces r !! "Script"%string) as [script |] eqn:Hscript;
    [| discriminate].
  intros Hrun.
  pose proof (visit_marks _ _ _ _ Hrun) as Hmark.
  apply visit_walked in Hrun as (order & Hr & _). simpl in Hr.
  rewrite Hr, Hscript. simpl. by rewrite decide_True.
Qed.

Lemma example_names_return : ModelIds.names_return 15 Example.types.
Proof.
  intros ty.
  do 14 (destruct ty as [| ty]; [vm_compute; exact I |]).
  vm_compute. exact I.
Qed.

Lemma model_ids_first_use_witness :
  idl.interfaces Example.types !! "Script"%string = Some 0 /\
  length (universe Example.types) < 15 /\
  ModelIds.names_return 15 Example.types /\
  exists self' order,
    CppTypeMacroGenerator.run 15 Example.types = Returned self' /\
    walked (M := CppTypeMacroGenerator.methods 15)
      (TypeVisitor_init Example.types CppTypeMacroGenerator.fresh) self' order /\
    (forall ty, ty ∈ order <-> reachable Example.types 0 ty) /\
    ModelIds.numbered
      (ModelIds.first_uses (order ≫= ModelIds.model_keys Example.types))
      (fields self') /\
    (forall ty k, reachable Example.types 0 ty ->
       k ∈ ModelIds.model_keys Example.types ty ->
       is_Some (CppTypeMacroGenerator.model_ids (fields self') !! k)) /\
    (forall k1 k2 id,
       CppTypeMacroGenerator.model_ids (fields self') !! k1 = Some id ->
       CppTypeMacroGenerator.model_ids (fields self') !! k2 = Some id ->
       k1 = k2) /\
    (forall id,
       id < CppTypeMacroGenerator.next_model_id (fields self') <->
       exists k, CppTypeMacroGenerator.model_ids (fields self') !! k = Some id) /\
    (forall fuel' self'',
       CppTypeMacroGenerator.run fuel' Example.types = Returned self'' ->
       self'' = self').
Proof.
  assert (idl.interfaces Example.types !! "Script"%string = Some 0) as H1
    by reflexivity.
  assert (length (universe Example.types) < 15) as H2 by (simpl; lia).
  pose proof example_names_return as H3.
  split; [exact H1 |]. split; [exact H2 |]. split; [exact H3 |].
  exact (model_ids_first_use 15 Example.types 0 H1 H2 H3).
Defined.

(** The ids of the example schema, by key. *)
Example example_model_ids :
  (fun self => map (fun k => CppTypeMacroGenerator.model_ids (fields self) !! k)
     [(0, "directives"); (0, "statements"); (1, "list-length"); (2, "rawValue");
      (3, "list-length"); (6, "statements"); (7, "expression"); (9, "name");
      (10, "value"); (4, "list-length")]%string)
  <$> (match CppTypeMacroGenerator.run 15 Example.types with
       | Returned self => Some self
       | _ => None
       end)
  = Some [Some 0; Some 1; Some 2; Some 3; Some 4; Some 5; Some 6; Some 7; Some 8;
          None].
Proof. vm_compute. reflexivity. Qed.

(** ** Programs *)

Lemma prog_bind_returned {St A B} (x : prog St A) (k : A -> prog St B) st b st' :
  (x ≫= k) st = (Returned b, st') <->
  exists a st1, x st = (Returned a, st1) /\ k a st1 = (Returned b, st').
Proof.
  unfold mbind, prog_bind.
  destruct (x st) as [[a | e |] st1]; split.
  - intros H. exists a, st1. auto.
  - intros (a' & st2 & [= <- <-] & Hk). exact Hk.
  - discriminate.
  - intros (a' & st2 & [=] & _).
  - discriminate.
  - intros (a' & st2 & [=] & _).
Qed.

Lemma prog_bind_step {St A B} (x : prog St A) (k : A -> prog St B) st a st1 :
  x st = (Returned a, st1) -> (x ≫= k) st = k a st1.
Proof. intros H. unfold mbind, prog_bind. by rewrite H. Qed.

Lemma prog_bind_raised {St A B} (x : prog St A) (k : A -> prog St B) st e st1 :
  x st = (Raised e, st1) -> (x ≫= k) st = (Raised e, st1).
Proof. intros H. unfold mbind, prog_bind. by rewrite H. Qed.

Lemma preserves_bind {St A B} (P : St -> St -> Prop) (x : prog St A)
    (k : A -> prog St B) :
  (forall st1 st2 st3, P st1 st2 -> P st2 st3 -> P st1 st3) ->
  preserves P x -> (forall a, preserves P (k a)) -> preserves P (x ≫= k).
Proof.
  intros Htrans Hx Hk st. unfold mbind, prog_bind.
  specialize (Hx st). destruct (x st) as [[a | e |] st1]; simpl in *; try exact Hx.
  eapply Htrans; [exact Hx | apply Hk].
Qed.

(** ** Streams *)

Lemma stream_read_data n inp : data (stream_read n inp).2 = data inp.
Proof. reflexivity. Qed.

Lemma stream_run_data {A} (p : reader A) inp : data (stream_run p inp).2 = data inp.
Proof. unfold stream_run. by destruct (p _) as [[a n] | e |]. Qed.

(** A reader that gives back what was written moves the position past it. *)
Lemma stream_run_reads_back {A} (p : reader A) written a before rest :
  reads_back p written a ->
  stream_run p {| data := before ++ written ++ rest; pos := length before |}
  = (Returned a, {| data := before ++ written ++ rest;
                    pos := length before + length written |}).
Proof.
  intros Hp. unfold stream_run. simpl.
  rewrite drop_app_length, Hp. simpl. f_equal. f_equal.
  rewrite length_app. lia.
Qed.

(** ** The container *)

Section FormatFacts.
Context {C : Collaborators}.

Lemma read_header (fuel : nat) (types : TypeResolver) (ty : Ty) (st : reading) :
  let rest := drop (pos (r_inp st)) (data (r_inp st)) in
  let moved n := {| r_inp := {| data := data (r_inp st); pos := pos (r_inp st) + n |};
                    r_string_dict := r_string_dict st |} in
  (take 8 rest <> MAGIC_HEADER ->
   read fuel types ty st
   = (Raised (AssertionError "maybe_magic_header == MAGIC_HEADER"),
      moved (length (take 8 rest)))) /\
  (take 8 rest = MAGIC_HEADER -> take 1 (drop 8 rest) <> FORMAT_VERSION ->
   read fuel types ty st
   = (Raised (AssertionError "maybe_format_version == FORMAT_VERSION"),
      moved (8 + length (take 1 (drop 8 rest))))).
Proof.
  intros rest moved. split.
  - intros Hmagic. unfold read.
    rewrite (prog_bind_step _ _ st (take 8 rest) (moved (length (take 8 rest))))
      by reflexivity.
    apply prog_bind_raised. unfold assert.
    by rewrite bool_decide_eq_false_2.
  - intros Hmagic Hversion. unfold read.
    rewrite (prog_bind_step _ _ st (take 8 rest) (moved (length (take 8 rest))))
      by reflexivity.
    rewrite (prog_bind_step _ _ _ tt (moved (length (take 8 rest)))).
    2: { unfold assert. by rewrite bool_decide_eq_true_2. }
    assert (length (take 8 rest) = 8) as Hlen by (by rewrite Hmagic).
    rewrite (prog_bind_step _ _ _ (take 1 (drop 8 rest))
               (moved (8 + length (take 1 (drop 8 rest))))).
    2: { unfold on_inp, inp_read, stream_read. simpl. rewrite Hlen.
         rewrite <- drop_drop. fold rest. unfold moved. do 3 f_equal. lia. }
    apply prog_bind_raised. unfold assert.
    by rewrite bool_decide_eq_false_2.
Qed.

End FormatFacts.

Section ContainerEdges.
Context {C : Collaborators}.

(** Once the nine bytes of the header are accepted, [read] takes the rest of
    the stream, whatever it is. *)
Lemma read_after_header (fuel : nat) (types : TypeResolver) (ty : Ty) (st : reading) :
  let rest := drop (pos (r_inp st)) (data (r_inp st)) in
  take 9 rest = MAGIC_HEADER ++ FORMAT_VERSION ->
  read fuel types ty st
  = (content ← brotli_decompress (drop 9 rest);
     (read_content fuel types (r_string_dict st) ty {| data := content; pos := 0 |}).1,
     {| r_inp := {| data := data (r_inp st); pos := length (data (r_inp st)) |};
        r_string_dict := r_string_dict st |}).
Proof.
  intros rest Hheader.
  assert (take 8 rest = MAGIC_HEADER) as Hmagic.
  { replace (take 8 rest) with (take 8 (take 9 rest))
      by (rewrite take_take; f_equal).
    by rewrite Hheader. }
  assert (take 1 (drop 8 rest) = FORMAT_VERSION) as Hversion.
  { pose proof (take_take_drop rest 8 1) as Hsplit. simpl in Hsplit.
    rewrite Hheader, Hmagic in Hsplit. by apply app_inv_head in Hsplit. }
  assert (pos (r_inp st) + 9 <= length (data (r_inp st))) as Hlen.
  { apply (f_equal length) in Hheader. rewrite length_take in Hheader.
    unfold rest in Hheader. rewrite length_drop in Hheader.
    change (length (MAGIC_HEADER ++ FORMAT_VERSION)) with 9 in Hheader. lia. }
  set (moved n := {| r_inp := {| data := data (r_inp st); pos := pos (r_inp st) + n |};
                     r_string_dict := r_string_dict st |}).
  unfold read.
  rewrite (prog_bind_step _ _ st MAGIC_HEADER (moved 8)).
  2: { unfold on_inp, inp_read, stream_read. simpl. fold rest. by rewrite Hmagic. }
  rewrite (prog_bind_step _ _ _ tt (moved 8))
    by (unfold assert; by rewrite bool_decide_eq_true_2).
  rewrite (prog_bind_step _ _ _ FORMAT_VERSION (moved 9)).
  2: { unfold on_inp, inp_read, stream_read. simpl.
       rewrite <- drop_drop. fold rest. rewrite Hversion. unfold moved. simpl.
       do 3 f_equal. lia. }
  rewrite (prog_bind_step _ _ _ tt (moved 9))
    by (unfold assert; by rewrite bool_decide_eq_true_2).
  rewrite (prog_bind_step _ _ _ (drop 9 rest)
             {| r_inp := {| data := data (r_inp st);
                            pos := length (data (r_inp st)) |};
                r_string_dict := r_string_dict st |}).
  2: { unfold on_inp, inp_read_all, stream_read_all. simpl.
       rewrite <- drop_drop. fold rest. do 3 f_equal.
       unfold rest. rewrite !length_drop. lia. }
  unfold mbind at 1, prog_bind, lift, gets. simpl.
  by destruct (brotli_decompress (drop 9 rest)).
Qed.

End ContainerEdges.

(** C4. When the first nine bytes of the stream are not the magic header
    followed by the version byte 02, [read] raises an assertion error and
    leaves the stream at most nine bytes further, whatever follows those
    bytes, whatever the collaborators would do and whatever the budget: the
    rest of the stream is neither read nor decompressed. The magic header is
    checked first: when it is wrong, the stream has moved by at most eight
    bytes and the version byte has not been read. *)
Theorem read_rejects_header {C : Collaborators}
    (fuel : nat) (types : TypeResolver) (ty : Ty) (st : reading) :
  let rest := drop (pos (r_inp st)) (data (r_inp st)) in
  take 9 rest <> MAGIC_HEADER ++ FORMAT_VERSION ->
  exists what n,
    read fuel types ty st
    = (Raised (AssertionError what),
       {| r_inp := {| data := data (r_inp st); pos := pos (r_inp st) + n |};
          r_string_dict := r_string_dict st |}) /\
    n <= 9 /\
    (take 8 rest <> MAGIC_HEADER ->
     what = "maybe_magic_header == MAGIC_HEADER"%string /\ n <= 8) /\
    (take 8 rest = MAGIC_HEADER ->
     what = "maybe_format_version == FORMAT_VERSION"%string).
Proof.
  intros rest Hbad.
  destruct (read_header fuel types ty st) as [Hm Hv]. fold rest in Hm, Hv.
  destruct (decide (take 8 rest = MAGIC_HEADER)) as [Hmagic | Hmagic].
  - assert (take 1 (drop 8 rest) <> FORMAT_VERSION) as Hversion.
    { intros Heq. apply Hbad.
      change 9 with (8 + 1). rewrite <- take_take_drop.
      by rewrite Hmagic, Heq. }
    eexists _, _. split; [exact (Hv Hmagic Hversion) |].
    split; [rewrite length_take; lia |]. split; [done | reflexivity].
  - eexists _, _. split; [exact (Hm Hmagic) |].
    split; [rewrite length_take; lia |].
    split; [| done]. intros _. split; [reflexivity | rewrite length_take; lia].
Qed.

Lemma read_rejects_header_witness :
  let st := {| r_inp := {| data := [x89; x42; x4a; x53; x0d; x0a; x00; x0a; x01; x00];
                           pos := 0 |};
               r_string_dict := Toy.shared |} in
  take 9 (drop (pos (r_inp st)) (data (r_inp st))) <> MAGIC_HEADER ++ FORMAT_VERSION /\
  exists what n,
    read (C := Toy.collaborators) 10 Example.types 0 st
    = (Raised (AssertionError what),
       {| r_inp := {| data := data (r_inp st); pos := pos (r_inp st) + n |};
          r_string_dict := r_string_dict st |}) /\
    n <= 9.
Proof.
  intros st.
  assert (take 9 (drop (pos (r_inp st)) (data (r_inp st)))
          <> MAGIC_HEADER ++ FORMAT_VERSION) as Hbad by (vm_compute; discriminate).
  split; [exact Hbad |].
  destruct (read_rejects_header (C := Toy.collaborators) 10 Example.types 0 st Hbad)
    as (what & n & Hread & Hn & _).
  exists what, n. auto.
Defined.

(** C10. A tree that [read] returns has passed [TypeChecker.check_any] for
    the requested type. The tree checked is the one [read_piece] gave back,
    decoded and with its lazy parts restored: when it conforms it is
    returned, and when it does not, [read] raises instead. *)
Theorem read_returns_checked {C : Collaborators}
    (fuel : nat) (types : TypeResolver) (ty : Ty) :
  (forall st tree st',
     read fuel types ty st = (Returned tree, st') ->
     TypeChecker_check_any types ty tree = true) /\
  (forall string_dict inp local_strings inp1 m inp2 tree inp3,
     inp_run read_dict inp = (Returned local_strings, inp1) ->
     inp_run (ModelReader_read types (local_strings ++ string_dict) ty) inp1
       = (Returned m, inp2) ->
     read_piece fuel types m ty inp2 = (Returned tree, inp3) ->
     read_content fuel types string_dict ty inp
     = (if TypeChecker_check_any types ty tree
        then Returned tree else Raised SchemaViolation, inp3)).
Proof.
  assert (forall string_dict inp tree inp',
            read_content fuel types string_dict ty inp = (Returned tree, inp') ->
            TypeChecker_check_any types ty tree = true) as Hcontent.
  { intros string_dict inp tree inp'. unfold read_content. intros H.
    apply prog_bind_returned in H as (local_strings & inp1 & _ & H).
    apply prog_bind_returned in H as (m & inp2 & _ & H).
    apply prog_bind_returned in H as (tree' & inp3 & _ & H).
    apply prog_bind_returned in H as ([] & inp4 & Hcheck & H).
    injection H as <- <-.
    by destruct (TypeChecker_check_any types ty tree'). }
  split.
  - intros st tree st'. unfold read. intros H.
    apply prog_bind_returned in H as (magic & st1 & _ & H).
    apply prog_bind_returned in H as ([] & st2 & _ & H).
    apply prog_bind_returned in H as (version & st3 & _ & H).
    apply prog_bind_returned in H as ([] & st4 & _ & H).
    apply prog_bind_returned in H as (compressed & st5 & _ & H).
    apply prog_bind_returned in H as (content & st6 & _ & H).
    apply prog_bind_returned in H as (string_dict & st7 & _ & H).
    unfold lift in H.
    destruct (read_content fuel types string_dict ty {| data := content; pos := 0 |})
      as [o inp'] eqn:Hc.
    simpl in H. injection H as -> _. by eapply Hcontent.
  - intros string_dict inp local_strings inp1 m inp2 tree inp3 H1 H2 H3.
    unfold read_content.
    rewrite (prog_bind_step _ _ _ _ _ H1).
    rewrite (prog_bind_step _ _ _ _ _ H2).
    rewrite (prog_bind_step _ _ _ _ _ H3).
    by destruct (TypeChecker_check_any types ty tree).
Qed.

Lemma read_returns_checked_witness :
  let st := {| r_inp := {| data := Toy.container; pos := 0 |};
               r_string_dict := Toy.shared |} in
  let inp := {| data := Toy.content; pos := 0 |} in
  read (C := Toy.collaborators) 10 Example.types 0 st
    = (Returned Toy.sample,
       {| r_inp := {| data := Toy.container; pos := length Toy.container |};
          r_string_dict := Toy.shared |}) /\
  TypeChecker_check_any (Collaborators := Toy.collaborators)
Example.types 0 Toy.sample = true /\
  read_content (C := Toy.collaborators) 10 Example.types Toy.shared 0 inp
    = (Returned Toy.sample, {| data := Toy.content; pos := length Toy.content |}).
Proof.
  intros st inp.
  assert (read (C := Toy.collaborators) 10 Example.types 0 st
          = (Returned Toy.sample,
             {| r_inp := {| data := Toy.container; pos := length Toy.container |};
                r_string_dict := Toy.shared |})) as Hread by (vm_compute; reflexivity).
  destruct (read_returns_checked (C := Toy.collaborators) 10 Example.types 0)
    as [Hchecked Hcontent].
  split; [exact Hread |]. split; [exact (Hchecked _ _ _ Hread) |].
  rewrite (Hcontent Toy.shared inp ["f"; "script"; "y"]%string
             {| data := Toy.content; pos := 12 |} tt
             {| data := Toy.content; pos := 12 |} Toy.sample
             {| data := Toy.content; pos := length Toy.content |});
    by vm_compute.
Defined.

(** C9. Whatever its outcome, [write] leaves its caller's tree as the
    [FloatFixer] pass made it, leaves the caller's [string_dict] as it was,
    and only appends to the output stream. Whatever its outcome, [read]
    leaves the caller's [string_dict] and the content of the input stream as
    they were. *)
Theorem write_read_frame {C : Collaborators}
    (iteration : gset string -> list string) (fuel : nat) (types : TypeResolver)
    (ty : Ty) :
  (forall st,
     let st' := (write iteration fuel types ty st).2 in
     w_tree st' = FloatFixer_rewrite types ty (w_tree st) /\
     w_string_dict st' = w_string_dict st /\
     exists appended, w_out st' = w_out st ++ appended) /\
  (forall st,
     let st' := (read fuel types ty st).2 in
     r_string_dict st' = r_string_dict st /\
     data (r_inp st') = data (r_inp st)).
Proof.
  split.
  - intros st. unfold write, mbind, prog_bind, gets, modify, raise, lift, mret,
      prog_ret. simpl.
    destruct (TypeChecker_check_any types ty _); simpl.
    + destruct (content_no_brotli _ _ _ _ _ _) as [content | e |]; simpl.
      * repeat split. rewrite <- !app_assoc. by eexists.
      * repeat split. rewrite <- !app_assoc. by eexists.
      * repeat split. rewrite <- !app_assoc. by eexists.
    + repeat split. exists []. by rewrite app_nil_r.
  - intros st. unfold read, mbind, prog_bind, assert, on_inp, inp_read,
      inp_read_all, gets, raise, lift, mret, prog_ret. simpl.
    destruct (bool_decide _); simpl; [| done].
    destruct (bool_decide _); simpl; [| done].
    destruct (brotli_decompress _) as [content | e |]; simpl; [| done | done].
    done.
Qed.

(** ** The order on strings and the sorted string table *)

Lemma str_compare_lt_trans s1 : forall s2 s3,
  String.compare s1 s2 = Lt -> String.compare s2 s3 = Lt ->
  String.compare s1 s3 = Lt.
Proof.
  induction s1 as [| c1 s1 IH]; intros [| c2 s2] [| c3 s3]; simpl; try done.
  destruct (Ascii.compare c1 c2) eqn:H12; destruct (Ascii.compare c2 c3) eqn:H23;
    try done.
  - apply Ascii.compare_eq_iff in H12 as ->. rewrite H23. apply IH.
  - apply Ascii.compare_eq_iff in H12 as ->. by rewrite H23.
  - apply Ascii.compare_eq_iff in H23 as <-. by rewrite H12.
  - unfold Ascii.compare in *. intros _ _.
    rewrite N.compare_lt_iff in H12, H23.
    assert (N_of_ascii c1 < N_of_ascii c3)%N as H13 by lia.
    rewrite <- N.compare_lt_iff in H13. by rewrite H13.
Qed.

#[global] Instance str_le_total : Total str_le.
Proof. intros s1 s2. apply String.leb_total. Qed.

#[global] Instance str_le_antisymm : AntiSymm (=) str_le.
Proof. intros s1 s2. apply String.leb_antisym. Qed.

#[global] Instance str_le_transitive : Transitive str_le.
Proof.
  intros s1 s2 s3. unfold str_le, String.leb.
  destruct (String.compare s1 s2) eqn:H12; [| | done].
  - apply String.compare_eq_iff in H12 as ->. done.
  - destruct (String.compare s2 s3) eqn:H23; [| | done].
    + apply String.compare_eq_iff in H23 as <-. by rewrite H12.
    + by rewrite (str_compare_lt_trans s1 s2 s3 H12 H23).
Qed.

Lemma sorted_iteration_independent
    (iteration1 iteration2 : gset string -> list string) (strings : gset string) :
  is_iteration iteration1 -> is_iteration iteration2 ->
  sorted iteration1 strings = sorted iteration2 strings.
Proof.
  intros H1 H2. unfold sorted.
  apply (Sorted_unique str_le).
  - apply Sorted_merge_sort. apply _.
  - apply Sorted_merge_sort. apply _.
  - rewrite !merge_sort_Permutation. by rewrite (H1 strings), (H2 strings).
Qed.

Lemma elem_of_sorted iteration (strings : gset string) s :
  is_iteration iteration -> s ∈ sorted iteration strings <-> s ∈ strings.
Proof.
  intros Hit. unfold sorted.
  rewrite merge_sort_Permutation, (Hit strings). apply elem_of_elements.
Qed.

Lemma NoDup_sorted iteration (strings : gset string) :
  is_iteration iteration -> NoDup (sorted iteration strings).
Proof.
  intros Hit. unfold sorted.
  rewrite merge_sort_Permutation, (Hit strings). apply NoDup_elements.
Qed.

Lemma is_iteration_elements : is_iteration elements.
Proof. intros strings. reflexivity. Qed.

Lemma is_iteration_reverse : is_iteration (fun strings => reverse (elements strings)).
Proof. intros strings. apply reverse_Permutation. Qed.

Lemma elem_of_local_strings {C : Collaborators}
    (iteration : gset string -> list string) (types : TypeResolver)
    (string_dict : list string) (ty : Ty) (tree : tree) (s : string) :
  is_iteration iteration ->
  s ∈ local_strings iteration types string_dict ty tree
  <-> s ∈ StringCollector_visit types ty tree /\ s ∉ string_dict.
Proof.
  intros Hit. unfold local_strings. rewrite elem_of_sorted by exact Hit.
  rewrite elem_of_difference, elem_of_list_to_set. reflexivity.
Qed.

(** Every string of the tree is in the local table or in the shared
    dictionary. *)
Lemma collected_resolvable {C : Collaborators}
    (iteration : gset string -> list string) (types : TypeResolver)
    (string_dict : list string) (ty : Ty) (tree : tree) (s : string) :
  is_iteration iteration ->
  s ∈ StringCollector_visit types ty tree ->
  s ∈ local_strings iteration types string_dict ty tree ++ string_dict.
Proof.
  intros Hit Hs. apply elem_of_app.
  destruct (decide (s ∈ string_dict)) as [Hin | Hnin]; [by right |].
  left. by apply elem_of_local_strings.
Qed.

Lemma write_piece_extends {C : Collaborators} (fuel : nat) (types : TypeResolver)
    (m : model) (ty : Ty) (node : tree) (out written : bytes) :
  write_piece fuel types m ty node out = Returned written ->
  exists piece, written = out ++ piece.
Proof.
  destruct fuel as [| fuel]; [discriminate |]. simpl.
  destruct (LazyMemberExtractor_replace types ty node) as [body lazies].
  intros H. apply bind_returned in H as (lazy_encoded & _ & [= <-]).
  eexists. by rewrite <- app_assoc.
Qed.

(** [write] returns exactly when the coerced tree passes the check and the
    content is built, and then it has written the header, the version and
    the compressed content. *)
Lemma write_returned {C : Collaborators}
    (iteration : gset string -> list string) (fuel : nat) (types : TypeResolver)
    (ty : Ty) (st st' : written) :
  let tree := FloatFixer_rewrite types ty (w_tree st) in
  write iteration fuel types ty st = (Returned tt, st') <->
  TypeChecker_check_any types ty tree = true /\
  exists content,
    content_no_brotli iteration fuel types (w_string_dict st) ty tree
    = Returned content /\
    st' = {| w_tree := tree; w_string_dict := w_string_dict st;
             w_out := w_out st ++ MAGIC_HEADER ++ FORMAT_VERSION
                      ++ brotli_compress content |}.
Proof.
  intros tree. unfold write, mbind, prog_bind, gets, modify, raise, lift, mret,
    prog_ret.
  cbn -[content_no_brotli MAGIC_HEADER FORMAT_VERSION]. fold tree.
  destruct (TypeChecker_check_any types ty tree);
    cbn -[content_no_brotli MAGIC_HEADER FORMAT_VERSION].
  - destruct (content_no_brotli iteration fuel types (w_string_dict st) ty tree)
      as [content | e |].
    + unfold out_write. simpl. rewrite <- !app_assoc. split.
      * intros [= <-]. split; [reflexivity |]. by exists content.
      * intros (_ & content' & [= <-] & ->). reflexivity.
    + split; [discriminate |]. by intros (_ & content' & [=] & _).
    + split; [discriminate |]. by intros (_ & content' & [=] & _).
  - split; [discriminate |]. by intros ([=] & _).
Qed.

(** C6. The local string table of [write] holds exactly the strings
    collected from the coerced tree that are not in the shared dictionary,
    each once, in lexicographic order, and every collected string is in the
    local table followed by the shared dictionary. [write] writes that table
    first in the content it compresses, and hands the model writer the
    local table followed by the shared dictionary. [read] reads a table from
    the start of the decompressed content and hands the model reader that
    table followed by its shared dictionary. On what [write] has written,
    with a table reader and a decompressor that give back what was written,
    the table [read] reads is the local table of [write], so both index
    strings in the same combined list. *)
Theorem local_strings_table {C : Collaborators}
    (iteration : gset string -> list string) (fuel_w fuel_r : nat)
    (types : TypeResolver) (ty : Ty) (st : written) :
  is_iteration iteration ->
  let read_with (dict : list string) : prog stream tree :=
    m ← inp_run (ModelReader_read types dict ty);
    tree ← read_piece fuel_r types m ty;
    (if TypeChecker_check_any types ty tree then mret tt else raise SchemaViolation);;
    mret tree in
  let tree := FloatFixer_rewrite types ty (w_tree st) in
  let string_dict := w_string_dict st in
  let collected := StringCollector_visit types ty tree in
  let local := local_strings iteration types string_dict ty tree in
  let m := model_tree types ty tree in
  (forall s, s ∈ local <-> s ∈ collected /\ s ∉ string_dict) /\
  StronglySorted str_le local /\
  NoDup local /\
  (forall s, s ∈ collected -> s ∈ local ++ string_dict) /\
  (forall content,
     TypeChecker_check_any types ty tree = true ->
     content_no_brotli iteration fuel_w types string_dict ty tree = Returned content ->
     (exists pieces,
        content = write_dict local
                  ++ ModelWriter_write types (local ++ string_dict) ty m ++ pieces) /\
     write iteration fuel_w types ty st
     = (Returned tt,
        {| w_tree := tree; w_string_dict := string_dict;
           w_out := w_out st ++ MAGIC_HEADER ++ FORMAT_VERSION
                    ++ brotli_compress content |})) /\
  (forall st',
     write iteration fuel_w types ty st = (Returned tt, st') ->
     exists pieces,
       w_out st'
       = w_out st ++ MAGIC_HEADER ++ FORMAT_VERSION
         ++ brotli_compress
              (write_dict local
               ++ ModelWriter_write types (local ++ string_dict) ty m ++ pieces)) /\
  (forall (rst : reading) content local_read inp1,
     take 9 (drop (pos (r_inp rst)) (data (r_inp rst)))
       = MAGIC_HEADER ++ FORMAT_VERSION ->
     brotli_decompress (drop 9 (drop (pos (r_inp rst)) (data (r_inp rst))))
       = Returned content ->
     inp_run read_dict {| data := content; pos := 0 |} = (Returned local_read, inp1) ->
     (read fuel_r types ty rst).1
     = (read_with (local_read ++ r_string_dict rst) inp1).1) /\
  ((forall strings, reads_back read_dict (write_dict strings) strings) ->
   (forall content, brotli_decompress (brotli_compress content) = Returned content) ->
   forall st',
     write iteration fuel_w types ty st = (Returned tt, st') ->
     exists content,
       inp_run read_dict {| data := content; pos := 0 |}
       = (Returned local, {| data := content; pos := length (write_dict local) |}) /\
       (read fuel_r types ty
          {| r_inp := {| data := w_out st'; pos := length (w_out st) |};
             r_string_dict := w_string_dict st' |}).1
       = (read_with (local ++ string_dict)
            {| data := content; pos := length (write_dict local) |}).1).
Proof.
  intros Hit read_with tree string_dict collected local m.
  assert (forall content,
            content_no_brotli iteration fuel_w types string_dict ty tree
            = Returned content ->
            exists pieces,
              content = write_dict local
                        ++ ModelWriter_write types (local ++ string_dict) ty m
                        ++ pieces) as Hshape.
  { intros content Hcontent. unfold content_no_brotli in Hcontent.
    apply write_piece_extends in Hcontent as (pieces & ->).
    exists pieces. by rewrite <- app_assoc. }
  assert (forall (rst : reading) content local_read inp1,
            take 9 (drop (pos (r_inp rst)) (data (r_inp rst)))
              = MAGIC_HEADER ++ FORMAT_VERSION ->
            brotli_decompress (drop 9 (drop (pos (r_inp rst)) (data (r_inp rst))))
              = Returned content ->
            inp_run read_dict {| data := content; pos := 0 |}
              = (Returned local_read, inp1) ->
            (read fuel_r types ty rst).1
            = (read_with (local_read ++ r_string_dict rst) inp1).1) as Hread.
  { intros rst content local_read inp1 Hheader Hdecompress Hdict.
    rewrite (read_after_header fuel_r types ty rst Hheader).
    rewrite Hdecompress. cbn [fst mbind outcome_bind].
    unfold read_content. by rewrite (prog_bind_step _ _ _ _ _ Hdict). }
  split; [intros s; by apply elem_of_local_strings |].
  split; [apply StronglySorted_merge_sort; apply _ |].
  split; [by apply NoDup_sorted |].
  split; [intros s Hs; by apply collected_resolvable |].
  split; [| split; [| split]].
  - intros content Hcheck Hcontent. split; [by apply Hshape |].
    apply write_returned. split; [exact Hcheck |]. by exists content.
  - intros st' Hwrite.
    apply write_returned in Hwrite as (_ & content & Hcontent & ->).
    destruct (Hshape content Hcontent) as (pieces & ->). by exists pieces.
  - exact Hread.
  - intros Hdict Hbrotli st' Hwrite.
    apply write_returned in Hwrite as (_ & content & Hcontent & ->).
    destruct (Hshape content Hcontent) as (pieces & Hpieces).
    exists content. split.
    + rewrite Hpieces.
      exact (stream_run_reads_back read_dict (write_dict local) local []
               (ModelWriter_write types (local ++ string_dict) ty m ++ pieces)
               (Hdict local)).
    + cbn [w_out w_string_dict].
      set (rst := {| r_inp := {| data := w_out st ++ MAGIC_HEADER ++ FORMAT_VERSION
                                         ++ brotli_compress content;
                                 pos := length (w_out st) |};
                     r_string_dict := string_dict |}).
      assert (drop (pos (r_inp rst)) (data (r_inp rst))
              = (MAGIC_HEADER ++ FORMAT_VERSION) ++ brotli_compress content)
        as Hrest.
      { unfold rst. cbn [r_inp data pos]. by rewrite drop_app_length. }
      apply (Hread rst content local).
      * rewrite Hrest.
        by rewrite (take_app_length' (MAGIC_HEADER ++ FORMAT_VERSION)).
      * rewrite Hrest.
        rewrite (drop_app_length' (MAGIC_HEADER ++ FORMAT_VERSION)) by reflexivity.
        apply Hbrotli.
      * rewrite Hpieces.
        exact (stream_run_reads_back read_dict (write_dict local) local []
                 (ModelWriter_write types (local ++ string_dict) ty m ++ pieces)
                 (Hdict local)).
Qed.

Lemma local_strings_table_witness :
  (* the hypotheses, on the sample and its container *)
  is_iteration elements /\
  TypeChecker_check_any (Collaborators := Toy.collaborators) Example.types 0
    Toy.sample = true /\
  content_no_brotli (C := Toy.collaborators) elements 10 Example.types Toy.shared 0
    Toy.sample = Returned Toy.content /\
  take 9 (drop 0 Toy.container) = MAGIC_HEADER ++ FORMAT_VERSION /\
  brotli_decompress (Collaborators := Toy.collaborators)
    (drop 9 (drop 0 Toy.container)) = Returned Toy.content /\
  inp_run (read_dict (Collaborators := Toy.collaborators))
    {| data := Toy.content; pos := 0 |}
    = (Returned ["f"; "script"; "y"]%string, Toy.content_at 12) /\
  (* what the theorem gives there *)
  (forall s,
     s ∈ local_strings (C := Toy.collaborators) elements Example.types Toy.shared 0
           Toy.sample
     <-> s ∈ Toy.labels Toy.sample /\ s ∉ Toy.shared) /\
  StronglySorted str_le
    (local_strings (C := Toy.collaborators) elements Example.types Toy.shared 0
       Toy.sample) /\
  write (C := Toy.collaborators) elements 10 Example.types 0
    (@Build_written Toy.collaborators Toy.sample Toy.shared [])
  = (Returned tt,
     @Build_written Toy.collaborators Toy.sample Toy.shared
       ([] ++ MAGIC_HEADER ++ FORMAT_VERSION ++ Toy.compress Toy.content)) /\
  (read (C := Toy.collaborators) 10 Example.types 0
     {| r_inp := {| data := Toy.container; pos := 0 |};
        r_string_dict := Toy.shared |}).1
  = ((m ← inp_run (ModelReader_read (Collaborators := Toy.collaborators)
Example.types (["f"; "script"; "y"]%string ++ Toy.shared) 0);
      tree ← read_piece (C := Toy.collaborators) 10 Example.types m 0;
      (if TypeChecker_check_any (Collaborators := Toy.collaborators)
Example.types 0 tree
       then mret tt else raise SchemaViolation);;
      mret tree) (Toy.content_at 12)).1.
Proof.
  pose proof is_iteration_elements as Hit.
  assert (TypeChecker_check_any (Collaborators := Toy.collaborators) Example.types 0
            Toy.sample = true) as Hcheck by reflexivity.
  assert (content_no_brotli (C := Toy.collaborators) elements 10 Example.types
            Toy.shared 0 Toy.sample = Returned Toy.content) as Hcontent
    by (vm_compute; reflexivity).
  assert (take 9 (drop 0 Toy.container) = MAGIC_HEADER ++ FORMAT_VERSION)
    as Hheader by reflexivity.
  assert (brotli_decompress (Collaborators := Toy.collaborators)
            (drop 9 (drop 0 Toy.container)) = Returned Toy.content) as Hdecompress
    by reflexivity.
  assert (inp_run (read_dict (Collaborators := Toy.collaborators))
            {| data := Toy.content; pos := 0 |}
          = (Returned ["f"; "script"; "y"]%string, Toy.content_at 12)) as Hdict
    by (vm_compute; reflexivity).
  destruct (local_strings_table (C := Toy.collaborators) elements 10 10
Example.types 0
              (@Build_written Toy.collaborators Toy.sample Toy.shared []) Hit)
    as (H1 & H2 & _ & _ & Hwrite & _ & Hread & _).
  split; [exact Hit |]. split; [exact Hcheck |]. split; [exact Hcontent |].
  split; [exact Hheader |]. split; [exact Hdecompress |]. split; [exact Hdict |].
  split; [exact H1 |]. split; [exact H2 |]. split.
  - exact (proj2 (Hwrite Toy.content Hcheck Hcontent)).
  - exact (Hread {| r_inp := {| data := Toy.container; pos := 0 |};
                    r_string_dict := Toy.shared |}
             Toy.content ["f"; "script"; "y"]%string (Toy.content_at 12)
             Hheader Hdecompress Hdict).
Defined.

(** The local table of the sample: its labels but the shared ["x"]. *)
Example sample_local_strings :
  local_strings (C := Toy.collaborators) elements Example.types Toy.shared 0
    Toy.sample
  = ["f"; "script"; "y"]%string.
Proof. vm_compute. reflexivity. Qed.

(** C2. The bytes [write] produces, and all it does to its caller's objects,
    are a function of its arguments: the one thing in [write] that varies
    from run to run, the order in which Python iterates the set of collected
    strings, does not show, because the set is sorted before use. *)
Theorem write_deterministic {C : Collaborators}
    (iteration1 iteration2 : gset string -> list string) (fuel : nat)
    (types : TypeResolver) (ty : Ty) (st : written) :
  is_iteration iteration1 -> is_iteration iteration2 ->
  write iteration1 fuel types ty st = write iteration2 fuel types ty st.
Proof.
  intros H1 H2.
  assert (forall string_dict tree,
            content_no_brotli iteration1 fuel types string_dict ty tree
            = content_no_brotli iteration2 fuel types string_dict ty tree) as Hcontent.
  { intros string_dict tree. unfold content_no_brotli, local_strings.
    by rewrite (sorted_iteration_independent iteration1 iteration2 _ H1 H2). }
  unfold write, mbind, prog_bind, gets, modify, raise, lift, mret, prog_ret.
  cbn -[content_no_brotli].
  destruct (TypeChecker_check_any types ty _); cbn -[content_no_brotli]; [| done].
  by rewrite Hcontent.
Qed.

Lemma write_deterministic_witness :
  let st := @Build_written Toy.collaborators Toy.sample Toy.shared [] in
  is_iteration elements /\
  is_iteration (fun strings => reverse (elements strings)) /\
  write (C := Toy.collaborators) elements 10 Example.types 0 st
  = write (C := Toy.collaborators) (fun strings => reverse (elements strings))
      10 Example.types 0 st.
Proof.
  intros st.
  pose proof is_iteration_elements as H1.
  pose proof is_iteration_reverse as H2.
  split; [exact H1 |]. split; [exact H2 |].
  exact (write_deterministic (C := Toy.collaborators) elements
           (fun strings => reverse (elements strings)) 10 Example.types 0 st H1 H2).
Defined.

(** ** The layout of the container *)

Section LayoutFacts.
Context {C : Collaborators}.

Lemma write_piece_layout types m size :
  lazies_smaller types size ->
  forall fuel ty node out,
    size node < fuel ->
    exists piece,
      write_piece fuel types m ty node out = Returned (out ++ piece) /\
      piece_layout types m ty node piece.
Proof.
  intros Hsmaller. induction fuel as [| fuel IH]; intros ty node out Hfuel; [lia |].
  simpl. pose proof (Hsmaller ty node) as Hparts.
  destruct (LazyMemberExtractor_replace types ty node) as [body lazies] eqn:Hextract.
  simpl in Hparts.
  assert (exists lazy_encoded,
    map_each (fun '(_, attr, part) =>
                write_piece fuel types m (resolved_ty attr) part []) lazies
    = Returned lazy_encoded /\
    Forall2 (fun (lazy : Ty * Attr * tree) encoded_part =>
               piece_layout types m (resolved_ty lazy.1.2) lazy.2 encoded_part)
            lazies lazy_encoded) as (lazy_encoded & Hmap & Hall).
  { clear Hextract. induction lazies as [| [[pty attr] part] lazies IHl].
    - exists []. split; [reflexivity | constructor].
    - destruct (IH (resolved_ty attr) part []) as (piece & Hpiece & Hlayout).
      { specialize (Hparts pty attr part (list_elem_of_here _ _)). lia. }
      destruct IHl as (rest & Hrest & Hall).
      { intros pty' attr' part' Hin. apply (Hparts pty' attr' part').
        by apply list_elem_of_further. }
      exists (piece :: rest). split.
      + simpl. rewrite Hpiece. simpl. by rewrite Hrest.
      + by constructor. }
  rewrite Hmap. simpl.
  exists (encode types m ty body ++ lazy_index_and_parts lazy_encoded).
  split; [by rewrite app_assoc |].
  by apply (piece_layout_intro types m ty node body lazies lazy_encoded).
Qed.

End LayoutFacts.

(** [write] on a conforming tree: what it returns and leaves behind. *)
Lemma write_returns {C : Collaborators}
    (iteration : gset string -> list string) (fuel : nat) (types : TypeResolver)
    (ty : Ty) (st : written) (size : tree -> nat) :
  lazies_smaller types size ->
  let tree := FloatFixer_rewrite types ty (w_tree st) in
  let string_dict := w_string_dict st in
  let local := local_strings iteration types string_dict ty tree in
  let m := model_tree types ty tree in
  TypeChecker_check_any types ty tree = true ->
  size tree < fuel ->
  exists piece,
    piece_layout types m ty tree piece /\
    write iteration fuel types ty st
    = (Returned tt,
       {| w_tree := tree;
          w_string_dict := string_dict;
          w_out := w_out st ++ MAGIC_HEADER ++ FORMAT_VERSION
                   ++ brotli_compress
                        (write_dict local
                         ++ ModelWriter_write types (local ++ string_dict) ty m
                         ++ piece) |}).
Proof.
  intros Hsmaller tree string_dict local m Hcheck Hfuel.
  destruct (write_piece_layout types m size Hsmaller fuel ty tree
              (write_dict local ++ ModelWriter_write types (local ++ string_dict) ty m)
              Hfuel) as (piece & Hpiece & Hlayout).
  exists piece. split; [exact Hlayout |].
  unfold write, mbind, prog_bind, gets, modify, raise, lift, mret, prog_ret.
  cbn -[content_no_brotli MAGIC_HEADER FORMAT_VERSION].
  fold tree. rewrite Hcheck. cbn -[content_no_brotli MAGIC_HEADER FORMAT_VERSION].
  unfold content_no_brotli. fold string_dict local m. rewrite Hpiece.
  cbn -[MAGIC_HEADER FORMAT_VERSION].
  unfold out_write, set_w_tree. cbn -[MAGIC_HEADER FORMAT_VERSION].
  by rewrite <- !app_assoc.
Qed.

(** C3. For an input that conforms once the [FloatFixer] has passed, and a
    budget above the size of the tree, [write] returns, having appended to
    its output exactly: the eight magic bytes 89 42 4A 53 0D 0A 00 0A, the
    version byte 02, and the compression of an inner frame made of the local
    string table, the model section, and the encoded tree. The encoded tree
    is its body, the count of its lazy parts, the byte length of each, and
    the parts end to end, each part encoded in this same way. *)
Theorem write_layout {C : Collaborators}
    (iteration : gset string -> list string) (fuel : nat) (types : TypeResolver)
    (ty : Ty) (st : written) (size : tree -> nat) :
  lazies_smaller types size ->
  let tree := FloatFixer_rewrite types ty (w_tree st) in
  let string_dict := w_string_dict st in
  let local := local_strings iteration types string_dict ty tree in
  let m := model_tree types ty tree in
  TypeChecker_check_any types ty tree = true ->
  size tree < fuel ->
  MAGIC_HEADER = [x89; x42; x4a; x53; x0d; x0a; x00; x0a] /\
  FORMAT_VERSION = [x02] /\
  exists piece,
    piece_layout types m ty tree piece /\
    write iteration fuel types ty st
    = (Returned tt,
       {| w_tree := tree;
          w_string_dict := string_dict;
          w_out := w_out st ++ MAGIC_HEADER ++ FORMAT_VERSION
                   ++ brotli_compress
                        (write_dict local
                         ++ ModelWriter_write types (local ++ string_dict) ty m
                         ++ piece) |}).
Proof.
  intros Hsmaller tree string_dict local m Hcheck Hfuel.
  split; [reflexivity |]. split; [reflexivity |].
  by apply (write_returns iteration fuel types ty st size).
Qed.

Lemma sum_list_elem (x : nat) (xs : list nat) : x ∈ xs -> x <= sum_list xs.
Proof.
  induction xs as [| y xs IH]; intros Hin; [by apply elem_of_nil in Hin |].
  simpl. apply elem_of_cons in Hin as [-> | Hin]; [lia |].
  specialize (IH Hin). lia.
Qed.

Lemma toy_lazies_smaller types :
  lazies_smaller (C := Toy.collaborators) types Toy.tree_size.
Proof.
  intros ty node pty attr part. simpl. destruct node as [label kids | index]; simpl.
  - intros Hin. apply list_elem_of_fmap in Hin as (kid & [= _ _ ->] & Hkid).
    apply Nat.lt_succ_r, sum_list_elem, list_elem_of_fmap. by exists kid.
  - intros Hin. by apply elem_of_nil in Hin.
Qed.

Lemma write_layout_witness :
  let st := @Build_written Toy.collaborators Toy.sample Toy.shared [] in
  lazies_smaller (C := Toy.collaborators) Example.types Toy.tree_size /\
  Toy.check_any Toy.sample = true /\
  Toy.tree_size Toy.sample < 10 /\
  exists piece,
    piece_layout (C := Toy.collaborators) Example.types tt 0 Toy.sample piece /\
    write (C := Toy.collaborators) elements 10 Example.types 0 st
    = (Returned tt,
       @Build_written Toy.collaborators Toy.sample Toy.shared
         (MAGIC_HEADER ++ FORMAT_VERSION
          ++ Toy.compress (Toy.write_dict ["f"; "script"; "y"]%string ++ piece))).
Proof.
  intros st.
  pose proof (toy_lazies_smaller Example.types) as H1.
  assert (Toy.check_any Toy.sample = true) as H2 by reflexivity.
  assert (Toy.tree_size Toy.sample < 10) as H3 by (simpl; lia).
  destruct (write_layout (C := Toy.collaborators) elements 10 Example.types 0 st
              Toy.tree_size H1 H2 H3) as (_ & _ & piece & Hlayout & Hwrite).
  split; [exact H1 |]. split; [exact H2 |]. split; [exact H3 |].
  exists piece. split; [exact Hlayout |].
  rewrite Hwrite. reflexivity.
Defined.

(** ** The lazy index *)

Lemma offsets_from_shift (shift start : nat) (sizes : list nat) :
  map (fun offset => offset + shift) (offsets_from start sizes)
  = offsets_from (start + shift) sizes.
Proof.
  revert start. induction sizes as [| size sizes IH]; intros start; simpl.
  - reflexivity.
  - f_equal. rewrite IH. f_equal. lia.
Qed.

Lemma offsets_from_last (start : nat) (sizes : list nat) :
  List.last (offsets_from start sizes) 0 = start + sum_list sizes.
Proof.
  revert start. induction sizes as [| size sizes IH]; intros start.
  - simpl. lia.
  - change (offsets_from start (size :: sizes))
      with (start :: offsets_from (start + size) sizes).
    assert (forall a b, exists x xs, offsets_from a b = x :: xs) as Hne
      by (intros a []; simpl; eauto).
    destruct (Hne (start + size) sizes) as (x & xs & Heq).
    rewrite Heq. change (List.last (start :: x :: xs) 0) with (List.last (x :: xs) 0).
    rewrite <- Heq, IH. simpl. lia.
Qed.

Lemma offsets_from_lookup (start : nat) (sizes : list nat) (i : nat) :
  i <= length sizes ->
  offsets_from start sizes !! i = Some (start + sum_list (take i sizes)).
Proof.
  revert start i. induction sizes as [| size sizes IH]; intros start i Hi.
  - simpl in Hi. assert (i = 0) as -> by lia. simpl. f_equal. lia.
  - destruct i as [| i]; simpl.
    + f_equal. lia.
    + rewrite IH by (simpl in Hi; lia). f_equal. lia.
Qed.

Lemma offsets_from_app (lst : nat) (start : nat) (sizes : list nat) :
  offsets_from start sizes ++ [start + sum_list sizes + lst]
  = offsets_from start (sizes ++ [lst]).
Proof.
  revert start. induction sizes as [| size sizes IH]; intros start; simpl.
  - do 2 f_equal. lia.
  - f_equal. rewrite <- IH. do 2 f_equal. lia.
Qed.

Lemma length_concat {A} (xss : list (list A)) :
  length (concat xss) = sum_list (map length xss).
Proof.
  induction xss as [| xs xss IH]; simpl; [reflexivity |].
  rewrite length_app, IH. reflexivity.
Qed.

Lemma stream_eta (inp : stream) : {| data := data inp; pos := pos inp |} = inp.
Proof. by destruct inp. Qed.

Section LazyIndexFacts.
Context {C : Collaborators}.

Lemma inp_run_data {A} (p : reader A) inp o inp' :
  inp_run p inp = (o, inp') -> data inp' = data inp.
Proof.
  intros H. pose proof (stream_run_data p inp) as Hd.
  unfold inp_run in H. by rewrite H in Hd.
Qed.

(** The loop over the sizes extends the running sums by the sizes it
    reads. *)
Lemma read_lazy_sizes_sums n : forall sizes inp lazy_offsets inp',
  read_lazy_sizes n (offsets_from 0 sizes) inp = (Returned lazy_offsets, inp') ->
  exists more,
    length more = n /\
    lazy_offsets = offsets_from 0 (sizes ++ more) /\
    data inp' = data inp.
Proof.
  induction n as [| n IH]; intros sizes inp lazy_offsets inp'; simpl.
  - intros [= <- <-]. exists []. by rewrite app_nil_r.
  - intros H. apply prog_bind_returned in H as (lazy_size & inp1 & H1 & H2).
    rewrite offsets_from_last in H2. simpl in H2.
    rewrite offsets_from_app in H2.
    apply IH in H2 as (more & Hlen & -> & Hdata).
    exists (lazy_size :: more). split; [simpl; lia |].
    split; [by rewrite <- app_assoc |].
    rewrite Hdata. by eapply inp_run_data.
Qed.

Lemma read_lazy_offsets_sums inp lazy_offsets inp' :
  read_lazy_offsets inp = (Returned lazy_offsets, inp') ->
  exists sizes,
    lazy_offsets = offsets_from (pos inp') sizes /\ data inp' = data inp.
Proof.
  unfold read_lazy_offsets. intros H.
  apply prog_bind_returned in H as (n & inp1 & H1 & H).
  apply prog_bind_returned in H as (offsets & inp2 & H2 & H).
  apply prog_bind_returned in H as (here & inp3 & [= <- <-] & [= <- <-]).
  apply (read_lazy_sizes_sums n []) in H2 as (sizes & _ & -> & Hdata).
  exists sizes. split; [apply offsets_from_shift |].
  rewrite Hdata. by eapply inp_run_data.
Qed.

(** With the sizes in the stream as [write_piece] writes them, the loop
    reads them back. *)
Lemma read_lazy_sizes_written :
  (forall n, reads_back read_varint (write_varint n) n) ->
  forall more sizes before rest,
    read_lazy_sizes (length more) (offsets_from 0 sizes)
      {| data := before ++ concat (map write_varint more) ++ rest;
         pos := length before |}
    = (Returned (offsets_from 0 (sizes ++ more)),
       {| data := before ++ concat (map write_varint more) ++ rest;
          pos := length before + length (concat (map write_varint more)) |}).
Proof.
  intros Hvarint. induction more as [| size more IH]; intros sizes before rest.
  - simpl. rewrite app_nil_r. unfold mret, prog_ret. do 3 f_equal. lia.
  - cbn [length map concat read_lazy_sizes].
    rewrite <- app_assoc.
    rewrite (prog_bind_step _ _ _ _ _
               (stream_run_reads_back read_varint (write_varint size) size before
                  (concat (map write_varint more) ++ rest) (Hvarint size))).
    rewrite offsets_from_last. simpl.
    rewrite offsets_from_app.
    pose proof (IH (sizes ++ [size]) (before ++ write_varint size) rest) as Hrest.
    rewrite <- !app_assoc in Hrest. rewrite length_app in Hrest.
    rewrite Hrest. rewrite <- ?app_assoc.
    rewrite (length_app (write_varint size)), Nat.add_assoc. reflexivity.
Qed.

Lemma read_lazy_offsets_written :
  (forall n, reads_back read_varint (write_varint n) n) ->
  forall sizes before rest,
    let index := write_varint (length sizes) ++ concat (map write_varint sizes) in
    read_lazy_offsets {| data := before ++ index ++ rest; pos := length before |}
    = (Returned (offsets_from (length before + length index) sizes),
       {| data := before ++ index ++ rest;
          pos := length before + length index |}).
Proof.
  intros Hvarint sizes before rest index. unfold read_lazy_offsets, index.
  rewrite <- app_assoc.
  rewrite (prog_bind_step _ _ _ _ _
             (stream_run_reads_back read_varint (write_varint (length sizes))
                (length sizes) before _ (Hvarint (length sizes)))).
  pose proof (read_lazy_sizes_written Hvarint sizes []
                (before ++ write_varint (length sizes)) rest) as Hsizes.
  rewrite <- !app_assoc, length_app in Hsizes.
  change (offsets_from 0 []) with [0] in Hsizes.
  rewrite (prog_bind_step _ _ _ _ _ Hsizes).
  unfold inp_tell, gets, mbind, prog_bind, mret, prog_ret. simpl.
  rewrite offsets_from_shift. simpl. rewrite !length_app.
  by rewrite Nat.add_assoc.
Qed.

(** What resolving one lazy index does. *)
Lemma restore_lazy_part_steps (read_piece : Ty -> prog stream tree)
    (lazy_offsets : list nat) (ty : Ty) (attr : Attr) (index : nat)
    (inp inp1 : stream) (target expected : nat) (part : tree) :
  lazy_offsets !! index = Some target ->
  read_piece (resolved_ty attr) (stream_seek target inp) = (Returned part, inp1) ->
  lazy_offsets !! (index + 1) = Some expected ->
  restore_lazy_part read_piece lazy_offsets ty attr index inp
  = (if decide (pos inp1 = expected) then Returned part
     else Raised (AssertionError "inp.tell() == lazy_offsets[index + 1]"),
     inp1).
Proof.
  intros Htarget Hread Hexpected. unfold restore_lazy_part, index_list.
  rewrite Htarget, Hexpected.
  unfold mbind, prog_bind, lift, inp_seek, modify, inp_tell, gets, assert,
    mret, prog_ret, raise.
  rewrite Hread.
  destruct (decide (pos inp1 = expected)) as [Heq | Hne].
  - by rewrite bool_decide_eq_true_2.
  - by rewrite bool_decide_eq_false_2.
Qed.

(** What [restore_lazy_part] has done when it returns. *)
Lemma restore_lazy_part_returned (read_piece : Ty -> prog stream tree)
    (lazy_offsets : list nat) (pty : Ty) (attr : Attr) (index : nat)
    (inp inp' : stream) (part : tree) :
  restore_lazy_part read_piece lazy_offsets pty attr index inp = (Returned part, inp') ->
  exists target,
    lazy_offsets !! index = Some target /\
    read_piece (resolved_ty attr) (stream_seek target inp) = (Returned part, inp') /\
    lazy_offsets !! (index + 1) = Some (pos inp').
Proof.
  unfold restore_lazy_part, index_list. intros H.
  apply prog_bind_returned in H as (target & inp0 & Htarget & H).
  unfold lift in Htarget.
  destruct (lazy_offsets !! index) as [target' |]; [| discriminate].
  injection Htarget as <- <-.
  apply prog_bind_returned in H as ([] & inp1 & [= <-] & H).
  apply prog_bind_returned in H as (part' & inp2 & Hread & H).
  apply prog_bind_returned in H as (here & inp3 & [= <- <-] & H).
  apply prog_bind_returned in H as (expected & inp4 & Hexpected & H).
  unfold lift in Hexpected.
  destruct (lazy_offsets !! (index + 1)) as [expected' |]; [| discriminate].
  injection Hexpected as <- <-.
  apply prog_bind_returned in H as ([] & inp5 & Hassert & [= <- <-]).
  unfold assert in Hassert.
  destruct (bool_decide (pos inp2 = expected')) eqn:Hpos; [| discriminate].
  injection Hassert as <-. apply bool_decide_eq_true in Hpos as <-.
  by exists target'.
Qed.

(** The loop over the sizes returns exactly when the reader gives one size
    after the other, and its result is the running sums extended by them. *)
Lemma read_lazy_sizes_reads n : forall sizes inp lazy_offsets inp',
  read_lazy_sizes n (offsets_from 0 sizes) inp = (Returned lazy_offsets, inp') <->
  exists more,
    length more = n /\ reads_sizes inp more inp' /\
    lazy_offsets = offsets_from 0 (sizes ++ more).
Proof.
  induction n as [| n IH]; intros sizes inp lazy_offsets inp'.
  - simpl. split.
    + intros [= <- <-]. exists []. by rewrite app_nil_r.
    + intros (more & Hlen & Hreads & ->). destruct more; [| discriminate].
      simpl in Hreads. subst inp'. by rewrite app_nil_r.
  - cbn [read_lazy_sizes]. split.
    + intros H. apply prog_bind_returned in H as (lazy_size & inp1 & H1 & H2).
      rewrite offsets_from_last in H2. simpl in H2.
      rewrite offsets_from_app in H2.
      apply IH in H2 as (more & Hlen & Hreads & ->).
      exists (lazy_size :: more). split; [simpl; lia |].
      split; [by exists inp1 | by rewrite <- app_assoc].
    + intros (more & Hlen & Hreads & ->).
      destruct more as [| size more]; [discriminate |].
      destruct Hreads as (inp1 & H1 & Hreads).
      apply prog_bind_returned. exists size, inp1. split; [exact H1 |].
      rewrite offsets_from_last. simpl. rewrite offsets_from_app.
      apply IH. exists more. split; [simpl in Hlen; lia |].
      split; [exact Hreads | by rewrite <- app_assoc].
Qed.

Lemma read_lazy_offsets_reads inp lazy_offsets inp' :
  read_lazy_offsets inp = (Returned lazy_offsets, inp') <->
  exists inp1 sizes,
    inp_run read_varint inp = (Returned (length sizes), inp1) /\
    reads_sizes inp1 sizes inp' /\
    lazy_offsets = offsets_from (pos inp') sizes.
Proof.
  unfold read_lazy_offsets. split.
  - intros H. apply prog_bind_returned in H as (n & inp1 & H1 & H).
    apply prog_bind_returned in H as (offsets & inp2 & H2 & H).
    apply prog_bind_returned in H as (here & inp3 & [= <- <-] & [= <- <-]).
    apply (read_lazy_sizes_reads n []) in H2 as (sizes & <- & Hreads & ->).
    exists inp1, sizes. split; [exact H1 |]. split; [exact Hreads |].
    apply offsets_from_shift.
  - intros (inp1 & sizes & H1 & Hreads & ->).
    apply prog_bind_returned. exists (length sizes), inp1. split; [exact H1 |].
    apply prog_bind_returned. exists (offsets_from 0 sizes), inp'. split.
    + apply (read_lazy_sizes_reads (length sizes) []). by exists sizes.
    + unfold inp_tell, gets, mbind, prog_bind, mret, prog_ret. simpl.
      by rewrite offsets_from_shift.
Qed.

(** The restorer's loop returns exactly when every placeholder is resolved
    at its offset and ends at the next one. *)
Lemma prog_map_restores (read_piece : Ty -> prog stream tree)
    (lazy_offsets : list nat) (holes : list (Ty * Attr * nat)) :
  forall inp parts inp',
    prog_map (fun '(pty, attr, index) =>
                restore_lazy_part read_piece lazy_offsets pty attr index)
             holes inp
    = (Returned parts, inp')
    <-> restores read_piece lazy_offsets holes inp parts inp'.
Proof.
  induction holes as [| [[pty attr] index] holes IH]; intros inp parts inp'.
  - simpl. split.
    + by intros [= <- <-].
    + destruct parts; [by intros -> | done].
  - cbn [prog_map restores]. split.
    + intros H. apply prog_bind_returned in H as (part & inp1 & Hpart & H).
      apply prog_bind_returned in H as (parts' & inp2 & Hparts & [= <- <-]).
      apply restore_lazy_part_returned in Hpart as (target & Ht & Hread & Hnext).
      exists target, inp1. repeat split; try done. by apply IH.
    + destruct parts as [| part parts']; [done |].
      intros (target & inp1 & Ht & Hread & Hnext & Hrest).
      apply prog_bind_returned. exists part, inp1. split.
      * simpl in Ht, Hread, Hnext.
        rewrite (restore_lazy_part_steps read_piece lazy_offsets pty attr index
                   inp inp1 target (pos inp1) part Ht Hread Hnext).
        by rewrite decide_True.
      * apply prog_bind_returned. exists parts', inp'. split; [by apply IH | done].
Qed.

End LazyIndexFacts.

(** ** Reading back what was written *)

Section RoundTripFacts.
Context {C : Collaborators} (types : TypeResolver) (size : tree -> nat).
Context (K : Contracts types size).
Context (ty0 : Ty) (tree0 : tree).
Context (Hroot : TypeChecker_check_any types ty0 tree0 = true).

Local Abbreviation m := (model_tree types ty0 tree0).
Local Abbreviation root := (ty0, tree0).

(** Resolving the placeholders of a piece, given that [read_piece] reads
    back each lazy part: the parts lie end to end from [pre] on, and the
    offsets from index [k] on point at them. *)
Lemma restore_all (fuel : nat) :
  (forall ty node piece before rest,
     piece_of types root (ty, node) -> size node < fuel ->
     piece_layout types m ty node piece ->
     read_piece fuel types m ty
       {| data := before ++ piece ++ rest; pos := length before |}
     = (Returned node,
        {| data := before ++ piece ++ rest; pos := length before + length piece |})) ->
  forall lazies lazy_encoded,
    Forall2 (fun (lazy : Ty * Attr * tree) encoded_part =>
               piece_layout types m (resolved_ty lazy.1.2) lazy.2 encoded_part)
            lazies lazy_encoded ->
    (forall lazy, lazy ∈ lazies ->
       piece_of types root (resolved_ty lazy.1.2, lazy.2) /\ size lazy.2 < fuel) ->
    forall k pre rest lazy_offsets,
      (forall i, i <= length lazy_encoded ->
         lazy_offsets !! (k + i)
         = Some (length pre + length (concat (take i lazy_encoded)))) ->
      forall inp,
        data inp = pre ++ concat lazy_encoded ++ rest ->
        exists inp',
          prog_map (fun '(pty, attr, index) =>
                      restore_lazy_part (read_piece fuel types m) lazy_offsets
                        pty attr index)
                   (imap (fun i (lazy : Ty * Attr * tree) =>
                            (lazy.1.1, lazy.1.2, k + i)) lazies) inp
          = (Returned (map snd lazies), inp') /\
          data inp' = data inp.
Proof.
  intros IH lazies lazy_encoded Hall.
  induction Hall as [| lazy encoded_part lazies lazy_encoded Hlayout Hall IHall];
    intros Hin k pre rest lazy_offsets Hoffsets inp Hdata.
  - exists inp. split; reflexivity.
  - destruct (Hin lazy (list_elem_of_here _ _)) as [Hpiece Hsize].
    assert (lazy_offsets !! (k + 0) = Some (length pre)) as Htarget.
    { rewrite (Hoffsets 0) by lia. simpl. f_equal. lia. }
    assert (lazy_offsets !! (k + 0 + 1) = Some (length pre + length encoded_part))
      as Hexpected.
    { replace (k + 0 + 1) with (k + 1) by lia.
      rewrite (Hoffsets 1) by (simpl; lia). simpl. by rewrite app_nil_r. }
    assert (read_piece fuel types m (resolved_ty lazy.1.2)
              (stream_seek (length pre) inp)
            = (Returned lazy.2,
               {| data := data inp; pos := length pre + length encoded_part |}))
      as Hread.
    { unfold stream_seek. rewrite Hdata. simpl. rewrite <- app_assoc.
      by apply IH. }
    pose proof (restore_lazy_part_steps (read_piece fuel types m) lazy_offsets
                  lazy.1.1 lazy.1.2 (k + 0) inp _ _ _ _
                  Htarget Hread Hexpected) as Hstep.
    rewrite decide_True in Hstep by reflexivity.
    assert (forall i, i <= length lazy_encoded ->
              lazy_offsets !! (S k + i)
              = Some (length (pre ++ encoded_part)
                      + length (concat (take i lazy_encoded)))) as Hoffsets'.
    { intros i Hi. specialize (Hoffsets (S i) ltac:(simpl; lia)).
      simpl in Hoffsets. rewrite length_app in Hoffsets.
      replace (S k + i) with (k + S i) by lia. rewrite Hoffsets.
      rewrite length_app. f_equal. lia. }
    set (inp1 := {| data := data inp; pos := length pre + length encoded_part |}).
    assert (data inp1 = (pre ++ encoded_part) ++ concat lazy_encoded ++ rest)
      as Hdata1.
    { simpl. rewrite Hdata. simpl. by rewrite <- !app_assoc. }
    destruct (IHall (fun l Hl => Hin l (list_elem_of_further _ _ _ Hl))
                (S k) (pre ++ encoded_part) rest lazy_offsets Hoffsets' inp1 Hdata1)
      as (inp' & Hrest & Hdata').
    exists inp'. split; [| exact Hdata'].
    cbn [imap prog_map]. cbn beta iota.
    rewrite (prog_bind_step _ _ _ _ _ Hstep).
    rewrite (imap_ext _ (fun i (lazy : Ty * Attr * tree) =>
                           (lazy.1.1, lazy.1.2, S k + i))).
    2: { intros i x _. simpl. f_equal. lia. }
    rewrite (prog_bind_step _ _ _ _ _ Hrest). reflexivity.
Qed.

(** [read_piece] reads back a piece laid out as [write_piece] lays it out,
    and stops at its end. *)
Lemma read_piece_layout (fuel : nat) :
  forall ty node piece before rest,
    piece_of types root (ty, node) -> size node < fuel ->
    piece_layout types m ty node piece ->
    read_piece fuel types m ty
      {| data := before ++ piece ++ rest; pos := length before |}
    = (Returned node,
       {| data := before ++ piece ++ rest; pos := length before + length piece |}).
Proof.
  induction fuel as [| fuel IH]; intros ty node piece before rest Hpiece Hsize Hlayout;
    [lia |].
  destruct Hlayout as [ty node body lazies lazy_encoded Hextract Hall].
  set (sizes := map length lazy_encoded).
  set (index := write_varint (length sizes) ++ concat (map write_varint sizes)).
  assert (write_varint (length lazy_encoded)
          ++ concat (map (fun encoded_part => write_varint (length encoded_part))
                         lazy_encoded)
          ++ concat lazy_encoded
          = index ++ concat lazy_encoded) as Hindex.
  { unfold index, sizes. rewrite length_map, map_map. by rewrite <- app_assoc. }
  rewrite Hindex. clear Hindex.
  set (body_bytes := encode types m ty body).
  set (whole := before ++ (body_bytes ++ index ++ concat lazy_encoded) ++ rest).
  assert (whole = before ++ body_bytes ++ (index ++ concat lazy_encoded ++ rest))
    as Hwhole1 by (unfold whole; by rewrite <- !app_assoc).
  assert (whole = (before ++ body_bytes) ++ index ++ (concat lazy_encoded ++ rest))
    as Hwhole2 by (unfold whole; by rewrite <- !app_assoc).
  assert (whole = (before ++ body_bytes ++ index) ++ concat lazy_encoded ++ rest)
    as Hwhole3 by (unfold whole; by rewrite <- !app_assoc).
  (* the body *)
  pose proof (coder_round_trip types size K ty0 tree0 ty node Hroot Hpiece) as Hcoder.
  rewrite Hextract in Hcoder. simpl in Hcoder.
  cbn [read_piece].
  rewrite (prog_bind_step _ _ _ body
             {| data := whole; pos := length (before ++ body_bytes) |}).
  2: { rewrite Hwhole1, length_app.
       by apply (stream_run_reads_back (decode types m ty) body_bytes). }
  (* the lazy index *)
  rewrite (prog_bind_step _ _ _
             (offsets_from (length (before ++ body_bytes) + length index) sizes)
             {| data := whole;
                pos := length (before ++ body_bytes) + length index |}).
  2: { rewrite Hwhole2.
       apply (read_lazy_offsets_written (varint_round_trip types size K) sizes). }
  set (start := length (before ++ body_bytes) + length index).
  (* the lazy parts *)
  pose proof (lazy_round_trip types size K ty0 tree0 ty node Hroot Hpiece) as Hlazy.
  rewrite Hextract in Hlazy. destruct Hlazy as [Hholes Hfill].
  destruct (restore_all fuel IH lazies lazy_encoded Hall) with
    (k := 0) (pre := before ++ body_bytes ++ index) (rest := rest)
    (lazy_offsets := offsets_from start sizes)
    (inp := {| data := whole; pos := start |})
    as (inp' & Hrestore & Hdata').
  { intros lazy Hin. split.
    - destruct lazy as [[pty attr] part].
      apply (piece_lazy types root ty node pty attr part Hpiece).
      by rewrite Hextract.
    - destruct lazy as [[pty attr] part].
      pose proof (lazy_parts_smaller types size K ty node pty attr part) as Hsmall.
      rewrite Hextract in Hsmall. specialize (Hsmall Hin). simpl. lia. }
  { intros i Hi. simpl. rewrite offsets_from_lookup.
    - f_equal. unfold start, sizes.
      rewrite !length_app, length_concat, <- fmap_take.
      change (map length (take i lazy_encoded))
        with (length <$> take i lazy_encoded). lia.
    - unfold sizes. by rewrite length_map. }
  { exact Hwhole3. }
  unfold LazyMemberRestorer_replace.
  rewrite Hholes.
  rewrite (imap_ext _ (fun i (lazy : Ty * Attr * tree) =>
                         (lazy.1.1, lazy.1.2, 0 + i))).
  2: { intros i [[pty attr] part] _. reflexivity. }
  rewrite (prog_bind_step _ _ _ _ _
             (prog_bind_step _ _ _ _ _ Hrestore)).
  rewrite Hfill.
  unfold inp_seek, modify, stream_seek, mbind, prog_bind, mret, prog_ret.
  rewrite offsets_from_last. simpl in Hdata'. rewrite Hdata'.
  do 2 f_equal. unfold start, sizes.
  rewrite !length_app, length_concat. lia.
Qed.

End RoundTripFacts.

Section ContainerRoundTrip.
Context {C : Collaborators} (types : TypeResolver) (size : tree -> nat).
Context (K : Contracts types size).

Lemma read_content_written (iteration : gset string -> list string) (fuel : nat)
    (string_dict : list string) (ty : Ty) (tree : tree) (piece : bytes) :
  is_iteration iteration ->
  TypeChecker_check_any types ty tree = true ->
  size tree < fuel ->
  let local := local_strings iteration types string_dict ty tree in
  let m := model_tree types ty tree in
  piece_layout types m ty tree piece ->
  let content :=
    write_dict local ++ ModelWriter_write types (local ++ string_dict) ty m ++ piece in
  read_content fuel types string_dict ty {| data := content; pos := 0 |}
  = (Returned tree, {| data := content; pos := length content |}).
Proof.
  intros Hit Hcheck Hsize local m Hlayout content.
  set (dict_bytes := write_dict local).
  set (model_bytes := ModelWriter_write types (local ++ string_dict) ty m).
  unfold read_content.
  rewrite (prog_bind_step _ _ _ local
             {| data := content; pos := length dict_bytes |}).
  2: { apply (stream_run_reads_back read_dict dict_bytes local []
                (model_bytes ++ piece)).
       apply (dict_round_trip types size K). }
  rewrite (prog_bind_step _ _ _ m
             {| data := content; pos := length dict_bytes + length model_bytes |}).
  2: { apply (stream_run_reads_back _ model_bytes m dict_bytes piece).
       apply (model_round_trip types size K); [exact Hcheck |].
       intros s Hs.
       by apply collected_resolvable. }
  rewrite (prog_bind_step _ _ _ tree
             {| data := content; pos := length content |}).
  2: { pose proof (read_piece_layout types size K ty tree Hcheck fuel ty tree piece
                     (dict_bytes ++ model_bytes) []
                     (piece_root types (ty, tree)) Hsize Hlayout) as Hread.
       rewrite app_nil_r in Hread. unfold content.
       rewrite <- app_assoc, length_app in Hread.
       etransitivity; [exact Hread |].
       do 2 f_equal. unfold content. rewrite !length_app. fold dict_bytes model_bytes.
       lia. }
  rewrite Hcheck. reflexivity.
Qed.

End ContainerRoundTrip.

(** C1. Take collaborators that keep their contracts, a tree that conforms
    to the schema once the [FloatFixer] has coerced it, and budgets above its
    size. Then [write] returns, and [read], started where [write] started
    writing and given the same shared dictionary, returns the coerced tree
    itself, with the stream at its end. *)
Theorem read_write_round_trip {C : Collaborators}
    (iteration : gset string -> list string) (fuel_w fuel_r : nat)
    (types : TypeResolver) (ty : Ty) (st : written) (size : tree -> nat) :
  Contracts types size ->
  is_iteration iteration ->
  let tree := FloatFixer_rewrite types ty (w_tree st) in
  TypeChecker_check_any types ty tree = true ->
  size tree < fuel_w ->
  size tree < fuel_r ->
  exists out,
    write iteration fuel_w types ty st
    = (Returned tt,
       {| w_tree := tree; w_string_dict := w_string_dict st;
          w_out := w_out st ++ out |}) /\
    read fuel_r types ty
      {| r_inp := {| data := w_out st ++ out; pos := length (w_out st) |};
         r_string_dict := w_string_dict st |}
    = (Returned tree,
       {| r_inp := {| data := w_out st ++ out; pos := length (w_out st ++ out) |};
          r_string_dict := w_string_dict st |}).
Proof.
  intros K Hit tree Hcheck Hfuel_w Hfuel_r.
  destruct (write_returns iteration fuel_w types ty st size
              (lazy_parts_smaller types size K) Hcheck Hfuel_w)
    as (piece & Hlayout & Hwrite).
  set (string_dict := w_string_dict st) in *.
  set (local := local_strings iteration types string_dict ty tree) in *.
  set (m := model_tree types ty tree) in *.
  set (content := write_dict local
                  ++ ModelWriter_write types (local ++ string_dict) ty m ++ piece) in *.
  exists (MAGIC_HEADER ++ FORMAT_VERSION ++ brotli_compress content).
  split; [exact Hwrite |].
  set (before := w_out st).
  set (compressed := brotli_compress content).
  set (whole := before ++ MAGIC_HEADER ++ FORMAT_VERSION ++ compressed).
  unfold read.
  rewrite (prog_bind_step _ _ _ MAGIC_HEADER
             {| r_inp := {| data := whole; pos := length before + 8 |};
                r_string_dict := string_dict |}).
  2: { unfold on_inp, inp_read, stream_read. cbn [r_inp r_string_dict data pos].
       unfold whole. rewrite drop_app_length.
       by rewrite (take_app_length' MAGIC_HEADER). }
  rewrite (prog_bind_step _ _ _ tt
             {| r_inp := {| data := whole; pos := length before + 8 |};
                r_string_dict := string_dict |}).
  2: { unfold assert. by rewrite bool_decide_eq_true_2. }
  rewrite (prog_bind_step _ _ _ FORMAT_VERSION
             {| r_inp := {| data := whole; pos := length before + 8 + 1 |};
                r_string_dict := string_dict |}).
  2: { unfold on_inp, inp_read, stream_read. cbn [r_inp r_string_dict data pos].
       unfold whole. rewrite <- drop_drop, drop_app_length.
       rewrite (drop_app_length' MAGIC_HEADER) by reflexivity.
       by rewrite (take_app_length' FORMAT_VERSION). }
  rewrite (prog_bind_step _ _ _ tt
             {| r_inp := {| data := whole; pos := length before + 8 + 1 |};
                r_string_dict := string_dict |}).
  2: { unfold assert. by rewrite bool_decide_eq_true_2. }
  rewrite (prog_bind_step _ _ _ compressed
             {| r_inp := {| data := whole; pos := length whole |};
                r_string_dict := string_dict |}).
  2: { unfold on_inp, inp_read_all, stream_read_all.
       cbn [r_inp r_string_dict data pos].
       assert (drop (length before + 8 + 1) whole = compressed) as ->.
       { unfold whole. rewrite <- !drop_drop, drop_app_length.
         rewrite (drop_app_length' MAGIC_HEADER) by reflexivity.
         by rewrite (drop_app_length' FORMAT_VERSION). }
       do 3 f_equal. unfold whole. rewrite !length_app. simpl. lia. }
  rewrite (prog_bind_step _ _ _ content
             {| r_inp := {| data := whole; pos := length whole |};
                r_string_dict := string_dict |}).
  2: { unfold lift, compressed. by rewrite (brotli_round_trip types size K). }
  pose proof (read_content_written types size K iteration fuel_r string_dict ty tree
                piece Hit Hcheck Hfuel_r Hlayout) as Hcontent.
  cbv zeta in Hcontent. fold local m content in Hcontent.
  unfold gets, mbind, prog_bind, lift. cbn [r_string_dict].
  rewrite Hcontent. cbn [fst]. do 3 f_equal.
Qed.

(** ** The small instance keeps the contracts *)

Lemma outcome_bind_returned {A B} (x : outcome A) (k : A -> outcome B) a :
  x = Returned a -> x ≫= k = k a.
Proof. by intros ->. Qed.

Lemma toy_byte_of_nat n : n < 256 -> Byte.to_nat (Toy.byte_of_nat n) = n.
Proof.
  intros Hn. unfold Toy.byte_of_nat.
  destruct (Byte.of_nat n) as [b |] eqn:Hb.
  - by apply Byte.to_of_nat.
  - apply Byte.of_nat_None_iff in Hb. lia.
Qed.

Lemma toy_varint_digits fuel : forall n rest,
  n < fuel ->
  Toy.read_varint (Toy.varint_digits fuel n ++ rest)
  = Returned (n, length (Toy.varint_digits fuel n)).
Proof.
  induction fuel as [| fuel IH]; intros n rest Hn; [lia |].
  cbn [Toy.varint_digits]. destruct (n <? 128) eqn:Hsmall.
  - apply Nat.ltb_lt in Hsmall. cbn [app Toy.read_varint].
    rewrite toy_byte_of_nat by lia.
    apply Nat.ltb_lt in Hsmall. by rewrite Hsmall.
  - apply Nat.ltb_ge in Hsmall. cbn [app Toy.read_varint].
    pose proof (Nat.mod_upper_bound n 128 ltac:(lia)) as Hmod.
    pose proof (Nat.div_mod_eq n 128) as Hdiv.
    rewrite toy_byte_of_nat by lia.
    assert ((128 + n mod 128 <? 128) = false) as -> by (apply Nat.ltb_ge; lia).
    rewrite (outcome_bind_returned _ _ _ (IH (n / 128) rest ltac:(lia))).
    cbn [length]. do 2 f_equal. lia.
Qed.

Lemma toy_varint_round_trip n :
  reads_back Toy.read_varint (Toy.write_varint n) n.
Proof. intros rest. apply toy_varint_digits. lia. Qed.

Lemma length_list_byte_of_string s :
  length (list_byte_of_string s) = String.length s.
Proof.
  unfold list_byte_of_string. rewrite length_map.
  induction s as [| c s IH]; simpl; [reflexivity | by rewrite IH].
Qed.

Lemma toy_str_round_trip s : reads_back Toy.read_str (Toy.write_str s) s.
Proof.
  intros rest. unfold Toy.read_str, Toy.write_str. rewrite <- app_assoc.
  rewrite (outcome_bind_returned _ _ _ (toy_varint_round_trip (String.length s) _)).
  rewrite drop_app_length.
  rewrite decide_True by (rewrite length_app, length_list_byte_of_string; lia).
  rewrite <- length_list_byte_of_string at 1. rewrite take_app_length.
  rewrite string_of_list_byte_of_string.
  by rewrite length_app, length_list_byte_of_string.
Qed.

Lemma toy_strs_round_trip strings : forall rest,
  Toy.read_strs (length strings) (concat (map Toy.write_str strings) ++ rest)
  = Returned (strings, length (concat (map Toy.write_str strings))).
Proof.
  induction strings as [| s strings IH]; intros rest; [reflexivity |].
  cbn [length map concat Toy.read_strs]. rewrite <- app_assoc.
  rewrite (outcome_bind_returned _ _ _ (toy_str_round_trip s _)).
  cbn beta iota. rewrite drop_app_length.
  rewrite (outcome_bind_returned _ _ _ (IH rest)).
  cbn beta iota. by rewrite length_app.
Qed.

Lemma toy_dict_round_trip strings :
  reads_back Toy.read_dict (Toy.write_dict strings) strings.
Proof.
  intros rest. unfold Toy.read_dict, Toy.write_dict. rewrite <- app_assoc.
  rewrite (outcome_bind_returned _ _ _ (toy_varint_round_trip (length strings) _)).
  cbn beta iota. rewrite drop_app_length.
  rewrite (outcome_bind_returned _ _ _ (toy_strs_round_trip strings rest)).
  cbn beta iota. by rewrite length_app.
Qed.

Lemma toy_placeholders_seq (kids : list Toy.ttree) : forall start,
  imap (fun index _ => Toy.Placeholder (start + index)) kids
  = map Toy.Placeholder (seq start (length kids)).
Proof.
  induction kids as [| kid kids IH]; intros start; [reflexivity |].
  cbn [imap length seq map]. rewrite Nat.add_0_r. f_equal.
  rewrite <- IH. apply imap_ext. intros i x _. simpl. f_equal. lia.
Qed.

Lemma toy_coder_round_trip label (kids : list Toy.ttree) :
  let body := Toy.Node label (imap (fun index _ => Toy.Placeholder index) kids) in
  reads_back Toy.decode (Toy.encode body) body.
Proof.
  intros body rest. unfold Toy.decode, body, Toy.encode. rewrite <- app_assoc.
  rewrite (outcome_bind_returned _ _ _ (toy_str_round_trip label _)).
  cbn beta iota. rewrite drop_app_length.
  rewrite (outcome_bind_returned _ _ _ (toy_varint_round_trip _ _)).
  cbn beta iota. rewrite length_imap, length_app.
  by rewrite <- (toy_placeholders_seq kids 0).
Qed.

Lemma toy_holes ty (kids : list Toy.ttree) : forall start,
  omap (fun k => match k with
                 | Toy.Placeholder index => Some (ty, Toy.kid, index)
                 | Toy.Node _ _ => None
                 end)
       (imap (fun index _ => Toy.Placeholder (start + index)) kids)
  = imap (fun index '((pty, attr, _) : Ty * Attr * Toy.ttree) =>
            (pty, attr, start + index))
         (map (fun part => (ty, Toy.kid, part)) kids).
Proof.
  induction kids as [| kid kids IH]; intros start; [reflexivity |].
  simpl. f_equal.
  transitivity
    (omap (fun k => match k with
                    | Toy.Placeholder index => Some (ty, Toy.kid, index)
                    | Toy.Node _ _ => None
                    end)
          (imap (fun index (_ : Toy.ttree) => Toy.Placeholder (S start + index)) kids)).
  { f_equal. apply imap_ext. intros i x _. simpl. f_equal. lia. }
  rewrite IH. apply imap_ext. intros i [[pty attr] part] _. simpl. f_equal. lia.
Qed.

Lemma toy_piece_checked types (root : Ty * Toy.ttree) (piece : Ty * Toy.ttree) :
  piece_of (C := Toy.collaborators) types root piece ->
  Toy.check_any root.2 = true -> Toy.check_any piece.2 = true.
Proof.
  intros Hpiece Hroot. induction Hpiece as [| ty node pty attr part _ IH Hin];
    [exact Hroot |].
  simpl in *. destruct node as [label kids | index]; [| discriminate].
  simpl in Hin. apply list_elem_of_fmap in Hin as (kid & [= _ _ ->] & Hkid).
  simpl in IH. rewrite forallb_forall in IH. apply IH.
  by apply list_elem_of_In.
Qed.

Lemma toy_contracts types :
  Contracts (C := Toy.collaborators) types Toy.tree_size.
Proof.
  split.
  - reflexivity.
  - apply toy_varint_round_trip.
  - apply toy_dict_round_trip.
  - intros string_dict ty tree _ _ rest. reflexivity.
  - intros ty0 tree0 ty node Hroot Hpiece.
    pose proof (toy_piece_checked types _ _ Hpiece Hroot) as Hnode.
    simpl in Hnode. destruct node as [label kids | index]; [| discriminate].
    apply toy_coder_round_trip.
  - intros ty0 tree0 ty node Hroot Hpiece.
    pose proof (toy_piece_checked types _ _ Hpiece Hroot) as Hnode.
    simpl in Hnode. destruct node as [label kids | index]; [| discriminate].
    simpl. split.
    + apply (toy_holes ty kids 0).
    + rewrite map_map. simpl. by rewrite map_id.
  - apply toy_lazies_smaller.
Qed.

Lemma read_write_round_trip_witness :
  let st := @Build_written Toy.collaborators Toy.sample Toy.shared [] in
  Contracts (C := Toy.collaborators) Example.types Toy.tree_size /\
  is_iteration elements /\
  Toy.check_any Toy.sample = true /\
  Toy.tree_size Toy.sample < 10 /\
  exists out,
    write (C := Toy.collaborators) elements 10 Example.types 0 st
    = (Returned tt, @Build_written Toy.collaborators Toy.sample Toy.shared out) /\
    read (C := Toy.collaborators) 10 Example.types 0
      {| r_inp := {| data := out; pos := 0 |}; r_string_dict := Toy.shared |}
    = (Returned Toy.sample,
       {| r_inp := {| data := out; pos := length out |};
          r_string_dict := Toy.shared |}).
Proof.
  intros st.
  pose proof (toy_contracts Example.types) as H1.
  pose proof is_iteration_elements as H2.
  assert (Toy.check_any Toy.sample = true) as H3 by reflexivity.
  assert (Toy.tree_size Toy.sample < 10) as H4 by (simpl; lia).
  split; [exact H1 |]. split; [exact H2 |]. split; [exact H3 |]. split; [exact H4 |].
  exact (read_write_round_trip (C := Toy.collaborators) elements 10 10 Example.types
           0 st Toy.tree_size H1 H2 H3 H4 H4).
Defined.

(** The container of the sample, and reading it back. *)
Example sample_round_trip :
  (write (C := Toy.collaborators) elements 10 Example.types 0
     (@Build_written Toy.collaborators Toy.sample Toy.shared [])).2
  = @Build_written Toy.collaborators Toy.sample Toy.shared Toy.container /\
  (read (C := Toy.collaborators) 10 Example.types 0
     {| r_inp := {| data := Toy.container; pos := 0 |};
        r_string_dict := Toy.shared |}).1
  = Returned Toy.sample.
Proof. split; vm_compute; reflexivity. Qed.

(** ** The stream's content stays, its position moves *)

Section StreamFrame.
Context {C : Collaborators}.

Lemma same_data_trans inp1 inp2 inp3 :
  same_data inp1 inp2 -> same_data inp2 inp3 -> same_data inp1 inp3.
Proof. unfold same_data. congruence. Qed.

Lemma preserves_inp_run {A} (p : reader A) : preserves same_data (inp_run p).
Proof. intros inp. apply stream_run_data. Qed.

Lemma preserves_pure {A} (x : outcome A) : preserves same_data (lift x).
Proof. intros inp. reflexivity. Qed.

Lemma preserves_prog_map {A B} (f : A -> prog stream B) (xs : list A) :
  (forall x, preserves same_data (f x)) -> preserves same_data (prog_map f xs).
Proof.
  intros Hf. induction xs as [| x xs IH]; [intros inp; reflexivity |].
  simpl. apply preserves_bind; [apply same_data_trans | apply Hf |].
  intros y. apply preserves_bind; [apply same_data_trans | exact IH |].
  intros ys inp. reflexivity.
Qed.

Lemma preserves_read_lazy_sizes n : forall lazy_offsets,
  preserves same_data (read_lazy_sizes n lazy_offsets).
Proof.
  induction n as [| n IH]; intros lazy_offsets; [intros inp; reflexivity |].
  simpl. apply preserves_bind;
    [apply same_data_trans | apply preserves_inp_run | intros; apply IH].
Qed.

Lemma preserves_read_lazy_offsets : preserves same_data read_lazy_offsets.
Proof.
  unfold read_lazy_offsets.
  apply preserves_bind; [apply same_data_trans | apply preserves_inp_run |].
  intros n. apply preserves_bind;
    [apply same_data_trans | apply preserves_read_lazy_sizes |].
  intros offsets. apply preserves_bind; [apply same_data_trans | |];
    intros; intros inp; reflexivity.
Qed.

Lemma preserves_restore_lazy_part read_piece lazy_offsets ty attr index :
  (forall ty, preserves same_data (read_piece ty)) ->
  preserves same_data (restore_lazy_part read_piece lazy_offsets ty attr index).
Proof.
  intros Hread. unfold restore_lazy_part.
  apply preserves_bind; [apply same_data_trans | apply preserves_pure |].
  intros target. apply preserves_bind;
    [apply same_data_trans | intros inp; reflexivity |].
  intros _. apply preserves_bind; [apply same_data_trans | apply Hread |].
  intros part. apply preserves_bind;
    [apply same_data_trans | intros inp; reflexivity |].
  intros here. apply preserves_bind; [apply same_data_trans | apply preserves_pure |].
  intros expected. apply preserves_bind; [apply same_data_trans | |].
  - unfold assert. destruct (bool_decide _); intros inp; reflexivity.
  - intros _ inp. reflexivity.
Qed.

Lemma preserves_restorer types read_piece lazy_offsets ty node :
  (forall ty, preserves same_data (read_piece ty)) ->
  preserves same_data
    (LazyMemberRestorer_replace types (restore_lazy_part read_piece lazy_offsets)
       ty node).
Proof.
  intros Hread. unfold LazyMemberRestorer_replace.
  apply preserves_bind; [apply same_data_trans | | intros; intros inp; reflexivity].
  apply preserves_prog_map. intros [[pty attr] index].
  by apply preserves_restore_lazy_part.
Qed.

Lemma preserves_read_piece fuel types m : forall ty,
  preserves same_data (read_piece fuel types m ty).
Proof.
  induction fuel as [| fuel IH]; intros ty; [intros inp; reflexivity |].
  simpl. apply preserves_bind; [apply same_data_trans | apply preserves_inp_run |].
  intros body. apply preserves_bind;
    [apply same_data_trans | apply preserves_read_lazy_offsets |].
  intros lazy_offsets. apply preserves_bind;
    [apply same_data_trans | by apply preserves_restorer |].
  intros tree. apply preserves_bind; [apply same_data_trans | |];
    intros; intros inp; reflexivity.
Qed.

End StreamFrame.

Lemma prog_map_app_raised {St A B} (f : A -> prog St B) (done : list A) (x : A)
    (rest : list A) (e : exn) (st2 : St) :
  forall st ys st1,
    prog_map f done st = (Returned ys, st1) -> f x st1 = (Raised e, st2) ->
    prog_map f (done ++ x :: rest) st = (Raised e, st2).
Proof.
  induction done as [| y done IH]; intros st ys st1; simpl.
  - intros [= <- <-] Hx. by apply prog_bind_raised.
  - intros H Hx. apply prog_bind_returned in H as (b & st' & Hb & H).
    apply prog_bind_returned in H as (bs & st'' & Hbs & [= <- <-]).
    rewrite (prog_bind_step _ _ _ _ _ Hb).
    apply prog_bind_raised. by apply (IH _ _ _ Hbs).
Qed.

Section ReadPieceSteps.
Context {C : Collaborators}.

(** [read_piece] returns exactly when the body is decoded, the lazy index
    is read, and every placeholder of the body is resolved at its offset. *)
Lemma read_piece_returned (fuel : nat) (types : TypeResolver) (m : model) (ty : Ty)
    (inp : stream) (tree : tree) (inp' : stream) :
  read_piece (S fuel) types m ty inp = (Returned tree, inp') <->
  exists body inp1 lazy_offsets inp2 parts inp3,
    inp_run (decode types m ty) inp = (Returned body, inp1) /\
    read_lazy_offsets inp1 = (Returned lazy_offsets, inp2) /\
    restores (read_piece fuel types m) lazy_offsets (placeholders types ty body)
      inp2 parts inp3 /\
    tree = fill_placeholders types ty body parts /\
    inp' = stream_seek (List.last lazy_offsets 0) inp3.
Proof.
  cbn [read_piece]. unfold LazyMemberRestorer_replace. split.
  - intros H. apply prog_bind_returned in H as (body & inp1 & Hbody & H).
    apply prog_bind_returned in H as (lazy_offsets & inp2 & Hoffsets & H).
    apply prog_bind_returned in H as (tree' & inp3 & Hrestore & H).
    apply prog_bind_returned in H as ([] & inp4 & [= <-] & [= <- <-]).
    apply prog_bind_returned in Hrestore as (parts & inp5 & Hparts & [= <- <-]).
    apply prog_map_restores in Hparts.
    by exists body, inp1, lazy_offsets, inp2, parts, inp5.
  - intros (body & inp1 & lazy_offsets & inp2 & parts & inp3 & Hbody & Hoffsets
            & Hparts & -> & ->).
    apply prog_map_restores in Hparts.
    rewrite (prog_bind_step _ _ _ _ _ Hbody).
    rewrite (prog_bind_step _ _ _ _ _ Hoffsets).
    rewrite (prog_bind_step _ _ _ (fill_placeholders types ty body parts) inp3).
    2: { by rewrite (prog_bind_step _ _ _ _ _ Hparts). }
    reflexivity.
Qed.

(** A lazy part that does not end where the index says ends [read_piece]. *)
Lemma read_piece_boundary (fuel : nat) (types : TypeResolver) (m : model) (ty : Ty)
    (inp : stream) (body : tree) (inp1 : stream) (lazy_offsets : list nat)
    (inp2 : stream) (done : list (Ty * Attr * nat)) (pty : Ty) (attr : Attr)
    (index : nat) (rest : list (Ty * Attr * nat)) (parts : list tree)
    (inp3 : stream) (target : nat) (part : tree) (inp4 : stream) (expected : nat) :
  inp_run (decode types m ty) inp = (Returned body, inp1) ->
  read_lazy_offsets inp1 = (Returned lazy_offsets, inp2) ->
  placeholders types ty body = done ++ (pty, attr, index) :: rest ->
  restores (read_piece fuel types m) lazy_offsets done inp2 parts inp3 ->
  lazy_offsets !! index = Some target ->
  read_piece fuel types m (resolved_ty attr) (stream_seek target inp3)
    = (Returned part, inp4) ->
  lazy_offsets !! (index + 1) = Some expected ->
  pos inp4 <> expected ->
  read_piece (S fuel) types m ty inp
  = (Raised (AssertionError "inp.tell() == lazy_offsets[index + 1]"), inp4).
Proof.
  intros Hbody Hoffsets Hholes Hdone Htarget Hread Hnext Hne.
  cbn [read_piece]. unfold LazyMemberRestorer_replace.
  rewrite (prog_bind_step _ _ _ _ _ Hbody).
  rewrite (prog_bind_step _ _ _ _ _ Hoffsets).
  apply prog_bind_raised, prog_bind_raised. rewrite Hholes.
  apply prog_map_restores in Hdone.
  apply (prog_map_app_raised _ done (pty, attr, index) rest _ _ _ _ _ Hdone).
  rewrite (restore_lazy_part_steps _ lazy_offsets pty attr index inp3 inp4 target
             expected part Htarget Hread Hnext).
  by rewrite decide_False.
Qed.

(** Where [read_piece] leaves the stream. *)
Lemma read_piece_final (fuel : nat) (types : TypeResolver) (m : model) (ty : Ty)
    (inp : stream) (tree : tree) (inp' : stream) :
  read_piece fuel types m ty inp = (Returned tree, inp') ->
  exists body inp1 sizes inp2,
    inp_run (decode types m ty) inp = (Returned body, inp1) /\
    read_lazy_offsets inp1 = (Returned (offsets_from (pos inp2) sizes), inp2) /\
    pos inp' = List.last (offsets_from (pos inp2) sizes) 0 /\
    pos inp' = pos inp2 + sum_list sizes /\
    data inp' = data inp /\
    (sizes = [] -> inp' = inp2).
Proof.
  intros Hread.
  pose proof (preserves_read_piece fuel types m ty inp) as Hdata.
  rewrite Hread in Hdata. unfold same_data in Hdata. simpl in Hdata.
  destruct fuel as [| fuel]; [discriminate |]. simpl in Hread.
  apply prog_bind_returned in Hread as (body & inp1 & Hbody & Hread).
  apply prog_bind_returned in Hread as (lazy_offsets & inp2 & Hoffsets & Hread).
  apply prog_bind_returned in Hread as (tree' & inp3 & Hrestore & Hread).
  apply prog_bind_returned in Hread as ([] & inp4 & Hseek & [= <- <-]).
  injection Hseek as <-.
  destruct (read_lazy_offsets_sums _ _ _ Hoffsets) as (sizes & -> & Hdata2).
  exists body, inp1, sizes, inp2.
  split; [exact Hbody |]. split; [exact Hoffsets |].
  split; [reflexivity |]. split; [apply offsets_from_last |].
  split; [exact Hdata |].
  intros ->. simpl.
  assert (data inp3 = data inp2) as Hdata3.
  { pose proof (preserves_restorer types (read_piece fuel types m)
                  (offsets_from (pos inp2) []) ty body
                  (preserves_read_piece fuel types m) inp2) as Hp.
    rewrite Hrestore in Hp. exact Hp. }
  unfold stream_seek. rewrite Hdata3. apply stream_eta.
Qed.

End ReadPieceSteps.

(** C5. The lazy offsets [read_piece] computes are the running sums of the
    sizes the stream declares, counted from the position of the stream just
    after the size list: [read_lazy_offsets] returns exactly when the count
    and then that many sizes are read, and its result is those sums. They
    are the sizes [write_piece] wrote when the stream holds its lazy index.
    [read_piece] returns exactly when it has decoded the body, read the
    index and resolved every placeholder of the body in turn, each at
    [lazy_offsets[index]] by reading a piece of the attribute's resolved
    type that ends at [lazy_offsets[index + 1]]; the tree is the body with
    those parts put in, and the stream is left at the last offset, past all
    the lazy parts, with its content untouched (where it stood after the
    count, when there is no lazy part). A part that ends anywhere else is
    fatal: [read_piece] raises the assertion error with the stream where the
    part ended, and resolves no further placeholder. *)
Theorem lazy_offsets_boundaries {C : Collaborators}
    (fuel : nat) (types : TypeResolver) (m : model) (ty : Ty) :
  (forall inp lazy_offsets inp',
     read_lazy_offsets inp = (Returned lazy_offsets, inp') <->
     exists inp1 sizes,
       inp_run read_varint inp = (Returned (length sizes), inp1) /\
       reads_sizes inp1 sizes inp' /\
       lazy_offsets = offsets_from (pos inp') sizes) /\
  ((forall n, reads_back read_varint (write_varint n) n) ->
   forall sizes before rest,
     let index := write_varint (length sizes) ++ concat (map write_varint sizes) in
     read_lazy_offsets {| data := before ++ index ++ rest; pos := length before |}
     = (Returned (offsets_from (length before + length index) sizes),
        {| data := before ++ index ++ rest;
           pos := length before + length index |})) /\
  (forall read_piece lazy_offsets pty attr index inp inp1 target expected part,
     lazy_offsets !! index = Some target ->
     read_piece (resolved_ty attr) (stream_seek target inp) = (Returned part, inp1) ->
     lazy_offsets !! (index + 1) = Some expected ->
     restore_lazy_part read_piece lazy_offsets pty attr index inp
     = (if decide (pos inp1 = expected) then Returned part
        else Raised (AssertionError "inp.tell() == lazy_offsets[index + 1]"),
        inp1)) /\
  (forall inp tree inp',
     read_piece (S fuel) types m ty inp = (Returned tree, inp') <->
     exists body inp1 lazy_offsets inp2 parts inp3,
       inp_run (decode types m ty) inp = (Returned body, inp1) /\
       read_lazy_offsets inp1 = (Returned lazy_offsets, inp2) /\
       restores (read_piece fuel types m) lazy_offsets (placeholders types ty body)
         inp2 parts inp3 /\
       tree = fill_placeholders types ty body parts /\
       inp' = stream_seek (List.last lazy_offsets 0) inp3) /\
  (forall inp body inp1 lazy_offsets inp2 done pty attr index rest parts inp3
          target part inp4 expected,
     inp_run (decode types m ty) inp = (Returned body, inp1) ->
     read_lazy_offsets inp1 = (Returned lazy_offsets, inp2) ->
     placeholders types ty body = done ++ (pty, attr, index) :: rest ->
     restores (read_piece fuel types m) lazy_offsets done inp2 parts inp3 ->
     lazy_offsets !! index = Some target ->
     read_piece fuel types m (resolved_ty attr) (stream_seek target inp3)
       = (Returned part, inp4) ->
     lazy_offsets !! (index + 1) = Some expected ->
     pos inp4 <> expected ->
     read_piece (S fuel) types m ty inp
     = (Raised (AssertionError "inp.tell() == lazy_offsets[index + 1]"), inp4)) /\
  (forall inp tree inp',
     read_piece (S fuel) types m ty inp = (Returned tree, inp') ->
     exists body inp1 sizes inp2,
       inp_run (decode types m ty) inp = (Returned body, inp1) /\
       read_lazy_offsets inp1 = (Returned (offsets_from (pos inp2) sizes), inp2) /\
       pos inp' = List.last (offsets_from (pos inp2) sizes) 0 /\
       pos inp' = pos inp2 + sum_list sizes /\
       data inp' = data inp /\
       (sizes = [] -> inp' = inp2)).
Proof.
  split; [apply read_lazy_offsets_reads |].
  split; [apply read_lazy_offsets_written |].
  split; [intros; by eapply restore_lazy_part_steps |].
  split; [apply read_piece_returned |].
  split; [intros; by eapply read_piece_boundary |].
  intros inp tree inp'. apply read_piece_final.
Qed.

Lemma lazy_offsets_boundaries_witness :
  (* the hypotheses, on the content of the sample's container *)
  read_lazy_offsets (C := Toy.collaborators) (Toy.content_at 20)
    = (Returned [23; 27; 41], Toy.content_at 23) /\
  (forall n, reads_back Toy.read_varint (Toy.write_varint n) n) /\
  [23; 27; 41] !! 0 = Some 23 /\
  read_piece (C := Toy.collaborators) 9 Example.types tt (resolved_ty Toy.kid)
    (stream_seek 23 (Toy.content_at 23))
    = (Returned (Toy.Node "x" []), Toy.content_at 27) /\
  [23; 27; 41] !! (0 + 1) = Some 27 /\
  read_piece (C := Toy.collaborators) 10 Example.types tt 0 (Toy.content_at 12)
    = (Returned Toy.sample, Toy.content_at 41) /\
  (* and on that content with the first size one too large *)
  inp_run (decode (Collaborators := Toy.collaborators) Example.types tt 0)
    (Toy.corrupt_at 12)
    = (Returned (Toy.Node "script" [Toy.Placeholder 0; Toy.Placeholder 1]),
       Toy.corrupt_at 20) /\
  read_lazy_offsets (C := Toy.collaborators) (Toy.corrupt_at 20)
    = (Returned [23; 28; 42], Toy.corrupt_at 23) /\
  placeholders (Collaborators := Toy.collaborators) Example.types 0
    (Toy.Node "script" [Toy.Placeholder 0; Toy.Placeholder 1])
    = [] ++ (0, Toy.kid, 0) :: [(0, Toy.kid, 1)] /\
  restores (C := Toy.collaborators)
    (read_piece (C := Toy.collaborators) 9 Example.types tt) [23; 28; 42] []
    (Toy.corrupt_at 23) [] (Toy.corrupt_at 23) /\
  [23; 28; 42] !! 0 = Some 23 /\
  read_piece (C := Toy.collaborators) 9 Example.types tt (resolved_ty Toy.kid)
    (stream_seek 23 (Toy.corrupt_at 23))
    = (Returned (Toy.Node "x" []), Toy.corrupt_at 27) /\
  [23; 28; 42] !! (0 + 1) = Some 28 /\
  pos (Toy.corrupt_at 27) <> 28 /\
  (* what the theorem gives there *)
  (exists inp1 sizes,
     inp_run (read_varint (Collaborators := Toy.collaborators)) (Toy.content_at 20)
       = (Returned (length sizes), inp1) /\
     reads_sizes (C := Toy.collaborators) inp1 sizes (Toy.content_at 23) /\
     [23; 27; 41] = offsets_from (pos (Toy.content_at 23)) sizes) /\
  restore_lazy_part (C := Toy.collaborators)
    (read_piece (C := Toy.collaborators) 9 Example.types tt)
    [23; 27; 41] 0 Toy.kid 0 (Toy.content_at 23)
    = (if decide (pos (Toy.content_at 27) = 27) then Returned (Toy.Node "x" [])
       else Raised (AssertionError "inp.tell() == lazy_offsets[index + 1]"),
       Toy.content_at 27) /\
  (exists body inp1 lazy_offsets inp2 parts inp3,
     inp_run (decode (Collaborators := Toy.collaborators) Example.types tt 0)
       (Toy.content_at 12) = (Returned body, inp1) /\
     read_lazy_offsets (C := Toy.collaborators) inp1
       = (Returned lazy_offsets, inp2) /\
     restores (C := Toy.collaborators)
       (read_piece (C := Toy.collaborators) 9 Example.types tt) lazy_offsets
       (placeholders (Collaborators := Toy.collaborators) Example.types 0 body)
       inp2 parts inp3 /\
     Toy.sample
       = fill_placeholders (Collaborators := Toy.collaborators) Example.types 0
           body parts /\
     Toy.content_at 41 = stream_seek (List.last lazy_offsets 0) inp3) /\
  read_piece (C := Toy.collaborators) 10 Example.types tt 0 (Toy.corrupt_at 12)
    = (Raised (AssertionError "inp.tell() == lazy_offsets[index + 1]"),
       Toy.corrupt_at 27) /\
  (exists sizes inp2,
     pos (Toy.content_at 41) = List.last (offsets_from (pos inp2) sizes) 0 /\
     pos (Toy.content_at 41) = pos inp2 + sum_list sizes).
Proof.
  assert (read_lazy_offsets (C := Toy.collaborators) (Toy.content_at 20)
          = (Returned [23; 27; 41], Toy.content_at 23)) as H1
    by (vm_compute; reflexivity).
  pose proof toy_varint_round_trip as H2.
  assert ([23; 27; 41] !! 0 = Some 23) as H3 by reflexivity.
  assert (read_piece (C := Toy.collaborators) 9 Example.types tt
            (resolved_ty Toy.kid) (stream_seek 23 (Toy.content_at 23))
          = (Returned (Toy.Node "x" []), Toy.content_at 27)) as H4
    by (vm_compute; reflexivity).
  assert ([23; 27; 41] !! (0 + 1) = Some 27) as H5 by reflexivity.
  assert (read_piece (C := Toy.collaborators) 10 Example.types tt 0
            (Toy.content_at 12)
          = (Returned Toy.sample, Toy.content_at 41)) as H6
    by (vm_compute; reflexivity).
  assert (inp_run (decode (Collaborators := Toy.collaborators) Example.types tt 0)
            (Toy.corrupt_at 12)
          = (Returned (Toy.Node "script" [Toy.Placeholder 0; Toy.Placeholder 1]),
             Toy.corrupt_at 20)) as H7
    by (vm_compute; reflexivity).
  assert (read_lazy_offsets (C := Toy.collaborators) (Toy.corrupt_at 20)
          = (Returned [23; 28; 42], Toy.corrupt_at 23)) as H8
    by (vm_compute; reflexivity).
  assert (placeholders (Collaborators := Toy.collaborators) Example.types 0
            (Toy.Node "script" [Toy.Placeholder 0; Toy.Placeholder 1])
          = [] ++ (0, Toy.kid, 0) :: [(0, Toy.kid, 1)]) as H9 by reflexivity.
  assert (restores (C := Toy.collaborators)
            (read_piece (C := Toy.collaborators) 9 Example.types tt) [23; 28; 42] []
            (Toy.corrupt_at 23) [] (Toy.corrupt_at 23)) as H10 by reflexivity.
  assert ([23; 28; 42] !! 0 = Some 23) as H11 by reflexivity.
  assert (read_piece (C := Toy.collaborators) 9 Example.types tt
            (resolved_ty Toy.kid) (stream_seek 23 (Toy.corrupt_at 23))
          = (Returned (Toy.Node "x" []), Toy.corrupt_at 27)) as H12
    by (vm_compute; reflexivity).
  assert ([23; 28; 42] !! (0 + 1) = Some 28) as H13 by reflexivity.
  assert (pos (Toy.corrupt_at 27) <> 28) as H14 by (simpl; lia).
  destruct (lazy_offsets_boundaries (C := Toy.collaborators) 9 Example.types tt 0)
    as (Hsums & Hwritten & Hrestore & Hreturned & Hfatal & Hfinal).
  split; [exact H1 |]. split; [exact H2 |]. split; [exact H3 |].
  split; [exact H4 |]. split; [exact H5 |]. split; [exact H6 |].
  split; [exact H7 |]. split; [exact H8 |]. split; [exact H9 |].
  split; [exact H10 |]. split; [exact H11 |]. split; [exact H12 |].
  split; [exact H13 |]. split; [exact H14 |].
  split; [| split; [| split; [| split]]].
  - exact (proj1 (Hsums _ _ _) H1).
  - exact (Hrestore (read_piece (C := Toy.collaborators) 9 Example.types tt)
             [23; 27; 41] 0 Toy.kid 0 (Toy.content_at 23) (Toy.content_at 27) 23 27
             (Toy.Node "x" []) H3 H4 H5).
  - exact (proj1 (Hreturned _ _ _) H6).
  - exact (Hfatal (Toy.corrupt_at 12)
             (Toy.Node "script" [Toy.Placeholder 0; Toy.Placeholder 1])
             (Toy.corrupt_at 20) [23; 28; 42] (Toy.corrupt_at 23) [] 0 Toy.kid 0
             [(0, Toy.kid, 1)] [] (Toy.corrupt_at 23) 23 (Toy.Node "x" [])
             (Toy.corrupt_at 27) 28 H7 H8 H9 H10 H11 H12 H13 H14).
  - destruct (Hfinal _ _ _ H6) as (body & inp1 & sizes & inp2 & _ & _ & Hl & Hs & _).
    exists sizes, inp2. split; [exact Hl | exact Hs].
Defined.

(** * Further properties of the code *)

(** ** The walker: what it reaches and what its subclass sees *)

Lemma recorder_returns r : methods_within (M := Example.recorder) (fun _ => False) r.
Proof. intros ty s. unfold visit_one. by destruct (desc r ty). Qed.

Lemma example_recorder_returns :
  exists self',
    visit (M := Example.recorder) 15 0 (TypeVisitor_init Example.types [])
    = Returned self'.
Proof.
  apply returns_iff.
  apply (visit_within _ Example.types); [apply recorder_returns | reflexivity |].
  pose proof (unvisited_bound Example.types ∅) as Hb. simpl in *. lia.
Qed.

(** X1. Started with nothing visited, a traversal that returns has visited
    exactly the types its root reaches through attributes, alternation
    members and array elements, whatever the methods of the subclass do. *)
Theorem visit_exactly_reachable {St : Type} {M : TypeVisitorMethods St}
    (fuel : nat) (root : Ty) (self self' : TypeVisitor St) :
  visited_types self = ∅ ->
  visit fuel root self = Returned self' ->
  forall ty, ty ∈ visited_types self' <-> reachable (resolver self) root ty.
Proof.
  intros Hempty Hvisit ty. split.
  - intros Hin.
    destruct (visit_adds_reachable (resolver self) fuel root self self' eq_refl Hvisit)
      as [_ Hadd].
    destruct (Hadd ty Hin) as [Hin0 | (root' & Hroot & Hreach)].
    + rewrite Hempty in Hin0. set_solver.
    + by apply list_elem_of_singleton in Hroot as ->.
  - by apply (visit_reachable (resolver self) fuel root self self').
Qed.

Lemma visit_exactly_reachable_witness :
  exists self',
    visited_types (TypeVisitor_init Example.types ([] : list Ty)) = ∅ /\
    visit (M := Example.recorder) 15 0 (TypeVisitor_init Example.types []) = Returned self' /\
    forall ty, ty ∈ visited_types self' <-> reachable Example.types 0 ty.
Proof.
  destruct example_recorder_returns as (self' & Hvisit).
  exists self'. split; [reflexivity |]. split; [exact Hvisit |].
  exact (visit_exactly_reachable (M := Example.recorder) 15 0
           (TypeVisitor_init Example.types []) self' eq_refl Hvisit).
Defined.

Section CanonicalCalls.
Context {St : Type} {M : TypeVisitorMethods St}.

Lemma replays_nil run (self : TypeVisitor St) :
  (forall log, run (recording self log) = Returned (recording self log)) ->
  replays run self self [].
Proof.
  intros Hrun. split; [reflexivity |]. split; [| reflexivity].
  intros log. by rewrite app_nil_r.
Qed.

Lemma replays_seq run1 run2 (self1 self2 self3 : TypeVisitor St) calls1 calls2 :
  replays run1 self1 self2 calls1 -> replays run2 self2 self3 calls2 ->
  replays (fun s => run1 s ≫= run2) self1 self3 (calls1 ++ calls2).
Proof.
  intros (Hr1 & Hrun1 & Hf1) (Hr2 & Hrun2 & Hf2).
  split; [congruence |]. split.
  - intros log. rewrite Hrun1. simpl. rewrite Hrun2. by rewrite app_assoc.
  - rewrite for_each_app, Hf1. simpl. by rewrite <- Hr1.
Qed.

Lemma replays_children {A} (f : A -> Ty) fuel (xs : list A) :
  (forall ty self self',
     visit (M := M) fuel ty self = Returned self' ->
     exists calls, replays (visit (M := Example.recorder) fuel ty) self self' calls) ->
  forall self self',
    for_each (fun x => visit (M := M) fuel (f x)) xs self = Returned self' ->
    exists calls,
      replays (for_each (fun x => visit (M := Example.recorder) fuel (f x)) xs)
        self self' calls.
Proof.
  intros IH. induction xs as [| x xs IHxs]; intros self self'; simpl.
  - intros [= <-]. exists []. by apply replays_nil.
  - intros H. apply bind_returned in H as (self1 & H1 & H2).
    apply IH in H1 as (calls1 & Hc1). apply IHxs in H2 as (calls2 & Hc2).
    exists (calls1 ++ calls2).
    exact (replays_seq _ _ _ _ _ _ _ Hc1 Hc2).
Qed.

(** The first visit of a type with a method: the recorder notes the type,
    then sees what the children give. *)
Lemma replays_first ty (self self1 self' : TypeVisitor St) m run calls :
  (forall s, visit_one (resolver self) ty s = m (resolver self) ty s) ->
  call_method m ty (mark_visited ty self) = Returned self1 ->
  replays run self1 self' calls ->
  replays (fun s => call_method Example.record_call ty (mark_visited ty s) ≫= run)
    self self' (ty :: calls).
Proof.
  intros Hone Hcall (Hr & Hrun & Hf).
  apply call_method_returned in Hcall as (Hr1 & Hv1 & Hm). simpl in *.
  split; [congruence |]. split.
  - intros log. unfold call_method, Example.record_call. simpl.
    specialize (Hrun (log ++ [ty])). unfold recording in *.
    rewrite Hr1, Hv1 in Hrun. rewrite Hrun. by rewrite <- app_assoc.
  - simpl. rewrite Hone, Hm. simpl. by rewrite <- Hr1.
Qed.

Lemma visit_replays fuel : forall ty self self',
  visit (M := M) fuel ty self = Returned self' ->
  exists calls, replays (visit (M := Example.recorder) fuel ty) self self' calls.
Proof.
  induction fuel as [| fuel IH]; intros ty self self' H; [discriminate |].
  cbn [visit] in H. cbn [mark_visited resolver] in H. revert H.
  destruct (decide (ty ∈ visited_types self)) as [Hin | Hnin].
  { intros [= <-]. exists []. apply replays_nil. intros log.
    cbn [visit recording visited_types]. by rewrite decide_True. }
  assert (forall run calls,
    (forall log,
       visit (M := Example.recorder) (S fuel) ty (recording self log)
       = run (recording self log)) ->
    replays run self self' calls ->
    replays (visit (M := Example.recorder) (S fuel) ty) self self' calls) as Hsame.
  { intros run calls Heq (Hr & Hrun & Hf). split; [exact Hr |]. split; [| exact Hf].
    intros log. by rewrite Heq. }
  destruct (desc (resolver self) ty) as [n attrs | tys | n | n | elem |] eqn:Hdesc;
    intros H.
  - apply bind_returned in H as (self1 & H1 & H2).
    apply (replays_children resolved_ty) in H2 as (calls & Hc); [| exact IH].
    exists (ty :: calls). eapply Hsame.
    2: { apply (replays_first ty self self1 self' visit_interface_type); eauto.
         intros s. unfold visit_one. by rewrite Hdesc. }
    intros log. cbn [visit recording visited_types resolver].
    rewrite decide_False by exact Hnin.
    change (resolver (mark_visited ty (recording self log))) with (resolver self). by rewrite Hdesc.
  - apply bind_returned in H as (self1 & H1 & H2).
    apply (replays_children (fun x => x)) in H2 as (calls & Hc); [| exact IH].
    exists (ty :: calls). eapply Hsame.
    2: { apply (replays_first ty self self1 self' visit_alt_type); eauto.
         intros s. unfold visit_one. by rewrite Hdesc. }
    intros log. cbn [visit recording visited_types resolver].
    rewrite decide_False by exact Hnin.
    change (resolver (mark_visited ty (recording self log))) with (resolver self). by rewrite Hdesc.
  - exists (ty :: []). eapply Hsame.
    2: { apply (replays_first ty self self' self' visit_enum_type
                  (fun s => Returned s)); eauto.
         - intros s. unfold visit_one. by rewrite Hdesc.
         - by apply replays_nil. }
    intros log. cbn [visit recording visited_types resolver].
    rewrite decide_False by exact Hnin.
    change (resolver (mark_visited ty (recording self log))) with (resolver self). rewrite Hdesc.
    by destruct (call_method _ _ _).
  - exists (ty :: []). eapply Hsame.
    2: { apply (replays_first ty self self' self' visit_primitive_type
                  (fun s => Returned s)); eauto.
         - intros s. unfold visit_one. by rewrite Hdesc.
         - by apply replays_nil. }
    intros log. cbn [visit recording visited_types resolver].
    rewrite decide_False by exact Hnin.
    change (resolver (mark_visited ty (recording self log))) with (resolver self). rewrite Hdesc.
    by destruct (call_method _ _ _).
  - apply bind_returned in H as (self1 & H1 & H2).
    apply IH in H2 as (calls & Hc).
    exists (ty :: calls). eapply Hsame.
    2: { apply (replays_first ty self self1 self' visit_frozen_array_type); eauto.
         intros s. unfold visit_one. by rewrite Hdesc. }
    intros log. cbn [visit recording visited_types resolver].
    rewrite decide_False by exact Hnin.
    change (resolver (mark_visited ty (recording self log))) with (resolver self). by rewrite Hdesc.
  - injection H as <-. exists []. split; [reflexivity |]. split; [| reflexivity].
    intros log. cbn [visit recording visited_types resolver].
    rewrite decide_False by exact Hnin.
    change (resolver (mark_visited ty (recording self log))) with (resolver self). rewrite Hdesc.
    by rewrite app_nil_r.
Qed.

End CanonicalCalls.

Lemma example_generator_returns :
  exists self',
    visit (M := CppTypeMacroGenerator.methods 15) 15 0
      (TypeVisitor_init Example.types CppTypeMacroGenerator.fresh)
    = Returned self'.
Proof.
  apply returns_iff.
  apply (visit_within _ Example.types);
    [apply methods_return, example_names_return | reflexivity |].
  pose proof (unvisited_bound Example.types ∅) as Hb. simpl in *. lia.
Qed.

(** X2. What a subclass sees of a traversal is a sequence of method calls
    that the schema and the visited set alone decide: the calls the
    recorder notes when started from the same visited set with the same
    budget. The fields the traversal leaves are those calls applied in that
    order to the fields it started with, and its visited set is the
    recorder's. *)
Theorem visit_calls_canonical {St : Type} {M : TypeVisitorMethods St}
    (fuel : nat) (ty : Ty) (self self' : TypeVisitor St) :
  visit fuel ty self = Returned self' ->
  exists calls,
    visit (M := Example.recorder) fuel ty (recording self [])
    = Returned (recording self' calls) /\
    for_each (visit_one (resolver self)) calls (fields self)
    = Returned (fields self').
Proof.
  intros Hvisit.
  destruct (visit_replays fuel ty self self' Hvisit) as (calls & _ & Hrun & Hfields).
  exists calls. split; [exact (Hrun []) | exact Hfields].
Qed.

Lemma visit_calls_canonical_witness :
  exists self' calls,
    visit (M := CppTypeMacroGenerator.methods 15) 15 0
      (TypeVisitor_init Example.types CppTypeMacroGenerator.fresh)
    = Returned self' /\
    visit (M := Example.recorder) 15 0
      (recording (TypeVisitor_init Example.types CppTypeMacroGenerator.fresh) [])
    = Returned (recording self' calls) /\
    for_each (visit_one (M := CppTypeMacroGenerator.methods 15) Example.types)
      calls CppTypeMacroGenerator.fresh
    = Returned (fields self').
Proof.
  destruct example_generator_returns as (self' & Hvisit).
  destruct (visit_calls_canonical (M := CppTypeMacroGenerator.methods 15) 15 0
              (TypeVisitor_init Example.types CppTypeMacroGenerator.fresh) self'
              Hvisit) as (calls & Hrun & Hfields).
  exists self', calls. split; [exact Hvisit |]. split; [exact Hrun | exact Hfields].
Defined.

(** ** The generator: ids, names, errors *)

(** X3. [_get_insert_model_id] gets or inserts: the id it returns is the one
    the table then holds for the key; asking again returns the same id and
    changes nothing; no other key's id changes; a key that had an id keeps
    it and the generator is left as it was; a new key gets [next_model_id],
    which then grows by one. *)
Theorem get_insert_model_id_laws (k : Ty * string)
    (self : CppTypeMacroGenerator.state) :
  let '(model_id, self') := CppTypeMacroGenerator._get_insert_model_id k self in
  CppTypeMacroGenerator.model_ids self' !! k = Some model_id /\
  CppTypeMacroGenerator._get_insert_model_id k self' = (model_id, self') /\
  (forall k', k' <> k ->
     CppTypeMacroGenerator.model_ids self' !! k'
     = CppTypeMacroGenerator.model_ids self !! k') /\
  (is_Some (CppTypeMacroGenerator.model_ids self !! k) -> self' = self) /\
  (CppTypeMacroGenerator.model_ids self !! k = None ->
     model_id = CppTypeMacroGenerator.next_model_id self /\
     CppTypeMacroGenerator.next_model_id self'
     = CppTypeMacroGenerator.next_model_id self + 1).
Proof.
  unfold CppTypeMacroGenerator._get_insert_model_id.
  destruct (CppTypeMacroGenerator.model_ids self !! k) as [id |] eqn:Hk.
  - split; [exact Hk |]. split; [by rewrite Hk |]. split; [done |].
    split; [done | discriminate].
  - cbn [CppTypeMacroGenerator.model_ids CppTypeMacroGenerator.next_model_id].
    split; [by rewrite lookup_insert_eq |].
    split; [by rewrite lookup_insert_eq |].
    split; [intros k' Hne; by rewrite lookup_insert_ne |].
    split; [intros [x Hx]; discriminate | done].
Qed.

Lemma bind_never_raises {A B} (x : outcome A) (k : A -> outcome B) :
  never_raises x -> (forall a, x = Returned a -> never_raises (k a)) ->
  never_raises (x ≫= k).
Proof.
  intros Hx Hk. destruct x as [a | e |]; simpl.
  - by apply Hk.
  - by destruct (Hx e).
  - discriminate.
Qed.

Lemma returned_never_raises {A} (a : A) : never_raises (Returned a).
Proof. discriminate. Qed.

Lemma for_each_never_raises {A St} (P : St -> Prop) (body : A -> St -> outcome St)
    (xs : list A) (st : St) :
  (forall x s, P s -> never_raises (body x s)) ->
  (forall x s s', P s -> body x s = Returned s' -> P s') ->
  P st -> never_raises (for_each body xs st).
Proof.
  intros Hbody Hkeep. revert st. induction xs as [| x xs IH]; intros st HP; simpl.
  - apply returned_never_raises.
  - apply bind_never_raises; [by apply Hbody |].
    intros s1 H1. apply IH. by eapply Hkeep.
Qed.

Lemma map_each_never_raises {A B} (f : A -> outcome B) (xs : list A) :
  (forall x, never_raises (f x)) -> never_raises (map_each f xs).
Proof.
  intros Hf. induction xs as [| x xs IH]; simpl; [apply returned_never_raises |].
  apply bind_never_raises; [apply Hf |]. intros y _.
  apply bind_never_raises; [exact IH |]. intros ys _. apply returned_never_raises.
Qed.

(** One element that does not come back keeps the whole list from coming
    back. *)
Lemma map_each_out_of_fuel {A B} (f : A -> outcome B) (xs : list A) (x : A) :
  (forall y, never_raises (f y)) -> x ∈ xs -> f x = OutOfFuel ->
  map_each f xs = OutOfFuel.
Proof.
  intros Hf Hin Hx. induction xs as [| y xs IH]; [by apply elem_of_nil in Hin |].
  simpl. apply elem_of_cons in Hin as [<- | Hin]; [by rewrite Hx |].
  destruct (f y) as [b | e |] eqn:Hy; simpl.
  - by rewrite (IH Hin).
  - by destruct (Hf y e).
  - reflexivity.
Qed.

Lemma cpp_name_never_raises r : forall fuel ty,
  never_raises (CppTypeMacroGenerator._cpp_name fuel r ty).
Proof.
  induction fuel as [| fuel IH]; intros ty; [discriminate |].
  simpl. destruct (desc r ty); try apply returned_never_raises.
  - apply bind_never_raises; [by apply map_each_never_raises |].
    intros; apply returned_never_raises.
  - apply bind_never_raises; [apply IH |]. intros; apply returned_never_raises.
Qed.

Lemma generator_methods_never_raise fuel r ty s :
  never_raises (visit_one (M := CppTypeMacroGenerator.methods fuel) r ty s).
Proof.
  pose proof (cpp_name_never_raises r fuel) as Hname.
  unfold visit_one. simpl.
  destruct (desc r ty) as [n attrs | tys | n | n | elem |] eqn:Hdesc.
  - unfold CppTypeMacroGenerator.visit_interface_type. rewrite Hdesc.
    apply bind_never_raises.
    + apply (for_each_never_raises (fun _ => True)); [| done | done].
      intros a [g fs] _. unfold CppTypeMacroGenerator.interface_field.
      destruct (CppTypeMacroGenerator._get_insert_model_id _ g) as [id g1].
      apply bind_never_raises; [apply Hname |]. intros; apply returned_never_raises.
    + intros [g fs] _. apply bind_never_raises; [apply Hname |].
      intros; apply returned_never_raises.
  - unfold CppTypeMacroGenerator.visit_alt_type. rewrite Hdesc.
    apply bind_never_raises; [apply Hname |]. intros nm _.
    apply bind_never_raises; [by apply map_each_never_raises |].
    intros; apply returned_never_raises.
  - unfold CppTypeMacroGenerator.visit_enum_type.
    apply bind_never_raises; [apply Hname |]. intros; apply returned_never_raises.
  - unfold CppTypeMacroGenerator.visit_primitive_type.
    apply bind_never_raises; [apply Hname |]. intros; apply returned_never_raises.
  - unfold CppTypeMacroGenerator.visit_frozen_array_type. rewrite Hdesc.
    destruct (CppTypeMacroGenerator._get_insert_model_id _ s) as [id g1].
    apply bind_never_raises; [apply Hname |]. intros nm _.
    apply bind_never_raises; [apply Hname |]. intros; apply returned_never_raises.
  - apply returned_never_raises.
Qed.

(** A traversal raises only what its methods raise. *)
Lemma visit_never_raises {St} {M : TypeVisitorMethods St} r :
  (forall ty s, never_raises (visit_one r ty s)) ->
  forall fuel ty self, resolver self = r -> never_raises (visit fuel ty self).
Proof.
  intros Hone. induction fuel as [| fuel IH]; intros ty self Hr; [discriminate |].
  simpl. destruct (decide (ty ∈ visited_types self)); [apply returned_never_raises |].
  pose proof (Hone ty (fields self)) as Hm. unfold visit_one in Hm. rewrite <- Hr in Hm.
  assert (forall m, never_raises (m (resolver self) ty (fields self)) ->
                    never_raises (call_method m ty (mark_visited ty self))) as Hcall.
  { intros m H. unfold call_method. apply bind_never_raises; [exact H |].
    intros; apply returned_never_raises. }
  assert (forall m self1, call_method m ty (mark_visited ty self) = Returned self1 ->
                          resolver self1 = r) as Hres.
  { intros m self1 H. by apply call_method_returned in H as (-> & _). }
  assert (forall (A : Type) (f : A -> Ty) (xs : list A) self1,
            resolver self1 = r ->
            never_raises (for_each (fun x => visit fuel (f x)) xs self1)) as Hchildren.
  { intros A f xs self1 Hr1.
    apply (for_each_never_raises (fun s => resolver s = r)); [| | exact Hr1].
    - intros x s Hs. by apply IH.
    - intros x s s' Hs Hv. apply visit_walked in Hv as (o & -> & _). exact Hs. }
  destruct (desc (resolver self) ty) as [n' attrs | tys | n' | n' | elem |].
  - apply bind_never_raises; [by apply Hcall |]. intros self1 H1.
    apply (Hchildren _ resolved_ty). eauto.
  - apply bind_never_raises; [by apply Hcall |]. intros self1 H1.
    apply (Hchildren _ (fun x => x)). eauto.
  - by apply Hcall.
  - by apply Hcall.
  - apply bind_never_raises; [by apply Hcall |]. intros self1 H1. apply IH. eauto.
  - apply returned_never_raises.
Qed.

Lemma for_each_out_of_fuel {A St} (body : A -> St -> outcome St) (xs : list A)
    (x : A) :
  (forall y s, never_raises (body y s)) -> x ∈ xs ->
  (forall s, body x s = OutOfFuel) ->
  forall s, for_each body xs s = OutOfFuel.
Proof.
  intros Hbody Hin Hx. induction xs as [| y xs IH]; intros s;
    [by apply elem_of_nil in Hin |].
  simpl. apply elem_of_cons in Hin as [<- | Hin]; [by rewrite Hx |].
  destruct (body y s) as [s' | e |] eqn:Hy; simpl.
  - by apply IH.
  - by destruct (Hbody y s e).
  - reflexivity.
Qed.

(** The name of a type that holds itself is never returned. *)
Lemma cpp_name_loops (r : TypeResolver) (ty : Ty) :
  desc r ty = TyFrozenArray ty \/ (exists tys, desc r ty = Alt tys /\ ty ∈ tys) ->
  forall fuel, CppTypeMacroGenerator._cpp_name fuel r ty = OutOfFuel.
Proof.
  intros Hself. induction fuel as [| fuel IH]; [reflexivity |].
  simpl. destruct Hself as [Harray | (tys & Halt & Hin)].
  - rewrite Harray. by rewrite IH.
  - rewrite Halt.
    by rewrite (map_each_out_of_fuel _ tys ty (cpp_name_never_raises r fuel) Hin IH).
Qed.

(** X4. The outcomes of a run of the generator. Without an interface named
    [Script] in the resolver it raises [KeyError], before anything is
    visited. With [Script] there, the traversal and the generator's methods
    raise no exception of their own, whatever the schema (the methods are
    never handed a type of another kind than theirs): the run returns, or
    its recursion goes deeper than any depth allowed, which Python reports
    as [RecursionError]. The latter is what happens, whatever the depth
    allowed, when an attribute of [Script] is an array that is its own
    element type or an alternation that lists itself: [visit_interface_type]
    asks [_cpp_name] for the name of that type. *)
Theorem run_outcomes (fuel : nat) (r : TypeResolver) :
  (idl.interfaces r !! "Script"%string = None ->
   CppTypeMacroGenerator.run fuel r = Raised KeyError) /\
  (forall script,
     idl.interfaces r !! "Script"%string = Some script ->
     (forall e, CppTypeMacroGenerator.run fuel r <> Raised e) /\
     ((exists self', CppTypeMacroGenerator.run fuel r = Returned self') \/
      CppTypeMacroGenerator.run fuel r = OutOfFuel) /\
     forall n attrs attr,
       desc r script = TyInterface n attrs -> attr ∈ attrs ->
       (desc r (resolved_ty attr) = TyFrozenArray (resolved_ty attr) \/
        exists tys, desc r (resolved_ty attr) = Alt tys /\ resolved_ty attr ∈ tys) ->
       CppTypeMacroGenerator.run fuel r = OutOfFuel).
Proof.
  unfold CppTypeMacroGenerator.run, CppTypeMacroGenerator.generate. simpl.
  split; [by intros -> |].
  intros script ->.
  assert (forall e,
            visit (M := CppTypeMacroGenerator.methods fuel) fuel script
              {| resolver := r; visited_types := ∅;
                 fields := CppTypeMacroGenerator.fresh |} <> Raised e) as Hnever.
  { exact (visit_never_raises (M := CppTypeMacroGenerator.methods fuel) r
             (generator_methods_never_raise fuel r) fuel script
             {| resolver := r; visited_types := ∅;
                fields := CppTypeMacroGenerator.fresh |} eq_refl). }
  split; [exact Hnever |]. split.
  - destruct (visit _ _ _) as [self' | e |]; [left; by exists self' | | by right].
    by destruct (Hnever e).
  - intros n attrs attr Hdesc Hin Hself.
    destruct fuel as [| fuel]; [reflexivity |].
    cbn [visit]. rewrite decide_False by set_solver.
    cbn [mark_visited resolver]. rewrite Hdesc.
    unfold call_method. cbn [resolver fields mark_visited visit_interface_type
                               CppTypeMacroGenerator.methods].
    unfold CppTypeMacroGenerator.visit_interface_type. rewrite Hdesc.
    rewrite (for_each_out_of_fuel
               (CppTypeMacroGenerator.interface_field (S fuel) r script) attrs attr).
    + reflexivity.
    + intros a [g fs]. unfold CppTypeMacroGenerator.interface_field.
      destruct (CppTypeMacroGenerator._get_insert_model_id _ g) as [id g1].
      apply bind_never_raises; [apply cpp_name_never_raises |].
      intros; apply returned_never_raises.
    + exact Hin.
    + intros [g fs]. unfold CppTypeMacroGenerator.interface_field.
      destruct (CppTypeMacroGenerator._get_insert_model_id _ g) as [id g1].
      by rewrite (cpp_name_loops r (resolved_ty attr) Hself (S fuel)).
Qed.

Lemma run_outcomes_witness :
  let r := {| universe := [TyInterface "Script" [Example.attr "items" 1 false];
                           TyFrozenArray 1];
              idl.interfaces := {[ "Script"%string := 0 ]} |} in
  let empty := {| universe := []; idl.interfaces := ∅ |} in
  idl.interfaces empty !! "Script"%string = None /\
  idl.interfaces r !! "Script"%string = Some (0 : Ty) /\
  desc r 0 = TyInterface "Script" [Example.attr "items" 1 false] /\
Example.attr "items" 1 false ∈ [Example.attr "items" 1 false] /\
  (desc r (resolved_ty (Example.attr "items" 1 false))
   = TyFrozenArray (resolved_ty (Example.attr "items" 1 false)) \/
   exists tys, desc r (resolved_ty (Example.attr "items" 1 false)) = Alt tys /\
               resolved_ty (Example.attr "items" 1 false) ∈ tys) /\
  CppTypeMacroGenerator.run 5 empty = Raised KeyError /\
  CppTypeMacroGenerator.run 5 r = OutOfFuel.
Proof.
  intros r empty.
  assert (idl.interfaces empty !! "Script"%string = None) as H1 by reflexivity.
  assert (idl.interfaces r !! "Script"%string = Some (0 : Ty)) as H2 by reflexivity.
  assert (desc r 0 = TyInterface "Script" [Example.attr "items" 1 false]) as H3
    by reflexivity.
  assert (Example.attr "items" 1 false ∈ [Example.attr "items" 1 false]) as H4
    by apply list_elem_of_here.
  assert (desc r (resolved_ty (Example.attr "items" 1 false))
          = TyFrozenArray (resolved_ty (Example.attr "items" 1 false)) \/
          exists tys, desc r (resolved_ty (Example.attr "items" 1 false)) = Alt tys /\
                      resolved_ty (Example.attr "items" 1 false) ∈ tys) as H5
    by (left; reflexivity).
  split; [exact H1 |]. split; [exact H2 |]. split; [exact H3 |].
  split; [exact H4 |]. split; [exact H5 |]. split.
  - exact (proj1 (run_outcomes 5 empty) H1).
  - exact (proj2 (proj2 (proj2 (run_outcomes 5 r) 0 H2)) _ _ _ H3 H4 H5).
Defined.

(** X5. [_cpp_name] does not return a name for an array type that is its own
    element type, nor for an alternation that lists itself: the recursion
    goes on whatever the budget. (The walker, which keeps a visited set,
    returns on such a schema.) *)
Theorem cpp_name_self_reference (r : TypeResolver) (ty : Ty) :
  desc r ty = TyFrozenArray ty \/ (exists tys, desc r ty = Alt tys /\ ty ∈ tys) ->
  forall fuel, CppTypeMacroGenerator._cpp_name fuel r ty = OutOfFuel.
Proof.
  intros Hself. induction fuel as [| fuel IH]; [reflexivity |].
  simpl. destruct Hself as [Harray | (tys & Halt & Hin)].
  - rewrite Harray. by rewrite IH.
  - rewrite Halt.
    by rewrite (map_each_out_of_fuel _ tys ty (cpp_name_never_raises r fuel) Hin IH).
Qed.

Lemma cpp_name_self_reference_witness :
  let r := {| universe := [TyInterface "Script" [Example.attr "items" 1 false];
                           TyFrozenArray 1];
              idl.interfaces := {[ "Script"%string := 0 ]} |} in
  (desc r 1 = TyFrozenArray 1 \/ (exists tys, desc r 1 = Alt tys /\ 1 ∈ tys)) /\
  forall fuel, CppTypeMacroGenerator._cpp_name fuel r 1 = OutOfFuel.
Proof.
  intros r.
  assert (desc r 1 = TyFrozenArray 1 \/ (exists tys, desc r 1 = Alt tys /\ 1 ∈ tys))
    as Hself by (left; reflexivity).
  split; [exact Hself |].
  exact (cpp_name_self_reference r 1 Hself).
Defined.

(** ** Names in CamelCase *)



















(** ** The generator's tables *)

Section TablesFacts.
Import CppTypeMacroGenerator ModelIds Tables.

Lemma name_of_returned fuel r ty n :
  _cpp_name fuel r ty = Returned n -> name_of fuel r ty = n.
Proof. unfold name_of. by intros ->. Qed.

Lemma names_of_returned fuel r tys : forall names,
  map_each (_cpp_name fuel r) tys = Returned names ->
  names = map (name_of fuel r) tys.
Proof.
  induction tys as [| ty tys IH]; intros names; simpl.
  - by intros [= <-].
  - intros H. apply bind_returned in H as (n & H1 & H2).
    apply bind_returned in H2 as (ns & H2 & [= <-]).
    by rewrite (name_of_returned _ _ _ _ H1), (IH _ H2).
Qed.

Lemma id_of_weaken (ids ids' : gmap (Ty * string) nat) k :
  ids ⊆ ids' -> is_Some (ids !! k) -> id_of ids' k = id_of ids k.
Proof.
  intros Hsub [i Hi]. unfold id_of.
  by rewrite Hi, (lookup_weaken _ _ _ _ Hi Hsub).
Qed.

(** What a call of [_get_insert_model_id] leaves of the generator. *)
Lemma get_insert_keeps k g :
  let g' := (_get_insert_model_id k g).2 in
  model_ids g ⊆ model_ids g' /\
  model_ids g' !! k = Some (_get_insert_model_id k g).1 /\
  interfaces g' = interfaces g /\ alts g' = alts g /\ enums g' = enums g /\
  primitives g' = primitives g /\ frozen_arrays g' = frozen_arrays g.
Proof.
  unfold _get_insert_model_id.
  destruct (model_ids g !! k) as [id |] eqn:Hk; simpl.
  - by repeat split.
  - repeat split; [by apply insert_subseteq | by rewrite lookup_insert_eq].
Qed.

Lemma interface_fields_rows fuel r ty attrs : forall g fs g' fs',
  for_each (interface_field fuel r ty) attrs (g, fs) = Returned (g', fs') ->
  model_ids g ⊆ model_ids g' /\
  (forall a, a ∈ attrs -> is_Some (model_ids g' !! (ty, name a))) /\
  fs' = fs ++ map (field_row fuel r (model_ids g') ty) attrs /\
  interfaces g' = interfaces g /\ alts g' = alts g /\ enums g' = enums g /\
  primitives g' = primitives g /\ frozen_arrays g' = frozen_arrays g.
Proof.
  induction attrs as [| a attrs IH]; intros g fs g' fs'; simpl.
  - intros [= <- <-]. rewrite app_nil_r. repeat split; try done.
    intros a Ha. by apply elem_of_nil in Ha.
  - intros H. apply bind_returned in H as ([g1 fs1] & H1 & H2).
    unfold interface_field in H1.
    pose proof (get_insert_keeps (ty, name a) g) as Hkeep.
    destruct (_get_insert_model_id (ty, name a) g) as [id g0]. simpl in Hkeep.
    destruct Hkeep as (Hsub0 & Hid & Hi & Ha & He & Hp & Hf).
    apply bind_returned in H1 as (nm & Hnm & [= <- <-]).
    apply IH in H2 as (Hsub & Hkeys & -> & Hi' & Ha' & He' & Hp' & Hf').
    split; [by etransitivity |].
    split.
    { intros a' Hin. apply elem_of_cons in Hin as [-> | Hin]; [| by apply Hkeys].
      exists id. by eapply lookup_weaken. }
    split.
    { rewrite <- app_assoc. simpl. do 2 f_equal. unfold field_row.
      rewrite (name_of_returned _ _ _ _ Hnm). do 2 f_equal.
      unfold id_of. by rewrite (lookup_weaken _ _ _ _ Hid Hsub). }
    repeat split; congruence.
Qed.

Lemma visit_one_rows fuel r ty g g' :
  visit_one (M := methods fuel) r ty g = Returned g' ->
  model_ids g ⊆ model_ids g' /\
  (forall k, k ∈ model_keys r ty -> is_Some (model_ids g' !! k)) /\
  interfaces g' = interfaces g ++ interface_rows fuel r (model_ids g') ty /\
  alts g' = alts g ++ alt_rows fuel r ty /\
  enums g' = enums g ++ enum_rows fuel r ty /\
  primitives g' = primitives g ++ primitive_rows fuel r ty /\
  frozen_arrays g' = frozen_arrays g ++ frozen_array_rows fuel r (model_ids g') ty.
Proof.
  unfold visit_one, model_keys, interface_rows, alt_rows, enum_rows, primitive_rows,
    frozen_array_rows. simpl.
  destruct (desc r ty) as [n attrs | tys | n | n | elem |] eqn:Hdesc; simpl.
  - unfold visit_interface_type. rewrite Hdesc. intros H.
    apply bind_returned in H as ([g1 fs] & H1 & H2).
    apply bind_returned in H2 as (nm & Hnm & [= <-]).
    apply interface_fields_rows in H1
      as (Hsub & Hkeys & -> & Hi & Ha & He & Hp & Hf).
    simpl. rewrite !app_nil_r, (name_of_returned _ _ _ _ Hnm), Hi, Ha, He, Hp, Hf.
    repeat split; try done.
    intros k Hk. apply list_elem_of_fmap in Hk as (a & -> & Hin). by apply Hkeys.
  - unfold visit_alt_type. rewrite Hdesc. intros H.
    apply bind_returned in H as (nm & Hnm & H).
    apply bind_returned in H as (nms & Hnms & [= <-]).
    simpl. rewrite !app_nil_r, (name_of_returned _ _ _ _ Hnm).
    rewrite <- (names_of_returned _ _ _ _ Hnms).
    repeat split; try done. intros k Hk. by apply elem_of_nil in Hk.
  - unfold visit_enum_type. intros H.
    apply bind_returned in H as (nm & Hnm & [= <-]).
    simpl. rewrite !app_nil_r, (name_of_returned _ _ _ _ Hnm).
    repeat split; try done. intros k Hk. by apply elem_of_nil in Hk.
  - unfold visit_primitive_type. intros H.
    apply bind_returned in H as (nm & Hnm & [= <-]).
    simpl. rewrite !app_nil_r, (name_of_returned _ _ _ _ Hnm).
    repeat split; try done. intros k Hk. by apply elem_of_nil in Hk.
  - unfold visit_frozen_array_type. rewrite Hdesc. intros H.
    pose proof (get_insert_keeps (ty, "list-length"%string) g) as Hkeep.
    destruct (_get_insert_model_id (ty, "list-length"%string) g) as [id g0].
    simpl in Hkeep. destruct Hkeep as (Hsub0 & Hid & Hi & Ha & He & Hp & Hf).
    apply bind_returned in H as (nm & Hnm & H).
    apply bind_returned in H as (nm' & Hnm' & [= <-]).
    simpl. rewrite !app_nil_r, (name_of_returned _ _ _ _ Hnm),
      (name_of_returned _ _ _ _ Hnm'), Hi, Ha, He, Hp, Hf.
    unfold id_of. rewrite Hid. simpl.
    repeat split; try done.
    intros k Hk. apply list_elem_of_singleton in Hk as ->. by exists id.
  - intros [= <-]. rewrite !app_nil_r. repeat split; try done.
    intros k Hk. by apply elem_of_nil in Hk.
Qed.

Lemma interface_rows_weaken (fuel : nat) (r : TypeResolver)
    (ids ids' : gmap (Ty * string) nat) (ty : Ty) :
  ids ⊆ ids' -> (forall k, k ∈ model_keys r ty -> is_Some (ids !! k)) ->
  interface_rows fuel r ids' ty = interface_rows fuel r ids ty.
Proof.
  intros Hsub Hkeys. unfold interface_rows, model_keys in *.
  destruct (desc r ty) as [n attrs | | | | |]; try done.
  do 2 f_equal. apply map_ext_in. intros a Ha. unfold field_row. f_equal.
  apply id_of_weaken; [exact Hsub |]. apply Hkeys.
  apply list_elem_of_fmap. exists a. split; [done | by apply list_elem_of_In].
Qed.

Lemma frozen_array_rows_weaken (fuel : nat) (r : TypeResolver)
    (ids ids' : gmap (Ty * string) nat) (ty : Ty) :
  ids ⊆ ids' -> (forall k, k ∈ model_keys r ty -> is_Some (ids !! k)) ->
  frozen_array_rows fuel r ids' ty = frozen_array_rows fuel r ids ty.
Proof.
  intros Hsub Hkeys. unfold frozen_array_rows, model_keys in *.
  destruct (desc r ty) as [| | | | elem |]; try done.
  do 2 f_equal. apply id_of_weaken; [exact Hsub |]. apply Hkeys.
  apply list_elem_of_here.
Qed.

Lemma bind_rows_weaken {B} (rows : gmap (Ty * string) nat -> Ty -> list B)
    (ids ids' : gmap (Ty * string) nat) (r : TypeResolver) (calls : list Ty) :
  (forall ty, (forall k, k ∈ model_keys r ty -> is_Some (ids !! k)) ->
              rows ids' ty = rows ids ty) ->
  (forall ty k, ty ∈ calls -> k ∈ model_keys r ty -> is_Some (ids !! k)) ->
  calls ≫= rows ids' = calls ≫= rows ids.
Proof.
  intros Hrows Hkeys. induction calls as [| ty calls IH]; [reflexivity |].
  rewrite !bind_cons, Hrows, IH; [reflexivity | |].
  - intros ty' k Hin. apply Hkeys. by apply list_elem_of_further.
  - intros k. apply Hkeys. apply list_elem_of_here.
Qed.

Lemma walk_tabulates fuel r calls : forall done g g',
  for_each (visit_one (M := methods fuel) r) calls g = Returned g' ->
  tabulates fuel r done g -> tabulates fuel r (done ++ calls) g'.
Proof.
  induction calls as [| ty calls IH]; intros done g g'; simpl.
  - intros [= <-]. by rewrite app_nil_r.
  - intros H Htab. apply bind_returned in H as (g1 & H1 & H2).
    replace (done ++ ty :: calls) with ((done ++ [ty]) ++ calls)
      by (by rewrite <- app_assoc).
    apply (IH _ g1 g' H2). clear H2 IH.
    destruct Htab as (Hi & Ha & He & Hp & Hf & Hkeys).
    apply visit_one_rows in H1 as (Hsub & Hnew & Hi1 & Ha1 & He1 & Hp1 & Hf1).
    unfold tabulates. rewrite !bind_app. simpl. rewrite !app_nil_r.
    rewrite Hi1, Ha1, He1, Hp1, Hf1, Hi, Ha, He, Hp, Hf.
    rewrite (bind_rows_weaken (interface_rows fuel r) (model_ids g) (model_ids g1)
               r done (fun ty' => interface_rows_weaken fuel r _ _ ty' Hsub) Hkeys).
    rewrite (bind_rows_weaken (frozen_array_rows fuel r) (model_ids g) (model_ids g1)
               r done (fun ty' => frozen_array_rows_weaken fuel r _ _ ty' Hsub) Hkeys).
    repeat split; try done.
    intros ty' k Hin Hk. apply elem_of_app in Hin as [Hin | Hin].
    + destruct (Hkeys ty' k Hin Hk) as [i Hi']. exists i. by eapply lookup_weaken.
    + apply list_elem_of_singleton in Hin as ->. by apply Hnew.
Qed.

End TablesFacts.

(** X7. When the module's top level returns, the five tables of the generator
    are the rows of the types the walk called a method on, in the order of
    the calls (the order the recorder notes): one row per interface,
    alternation, enumeration, primitive and array, each in its own table.
    The id in a field's row and in an array's row is the id [model_ids]
    holds for that key at the end, and every such key has one. *)
Theorem generate_tabulates (fuel : nat) (r : TypeResolver)
    (self' : TypeVisitor CppTypeMacroGenerator.state) :
  CppTypeMacroGenerator.run fuel r = Returned self' ->
  exists script calls,
    idl.interfaces r !! "Script"%string = Some script /\
    visit (M := Example.recorder) fuel script (TypeVisitor_init r [])
    = Returned (recording self' calls) /\
    Tables.tabulates fuel r calls (fields self').
Proof.
  unfold CppTypeMacroGenerator.run, CppTypeMacroGenerator.generate. simpl.
  destruct (idl.interfaces r !! "Script"%string) as [script |]; [| discriminate].
  intros Hvisit. exists script.
  destruct (visit_replays (M := CppTypeMacroGenerator.methods fuel) fuel script _ _
              Hvisit) as (calls & _ & Hrun & Hfields).
  exists calls. split; [reflexivity |]. split; [exact (Hrun []) |].
  simpl in Hfields.
  apply (walk_tabulates fuel r calls [] CppTypeMacroGenerator.fresh _ Hfields).
  repeat split; try reflexivity.
  intros ty k Hin. by apply elem_of_nil in Hin.
Qed.

Lemma example_script :
  idl.interfaces Example.types !! "Script"%string = Some (0 : idl.Ty).
Proof. reflexivity. Qed.

Lemma example_run_returns :
  exists self', CppTypeMacroGenerator.run 15 Example.types = Returned self'.
Proof.
  destruct example_generator_returns as (self' & Hvisit). exists self'.
  unfold CppTypeMacroGenerator.run, CppTypeMacroGenerator.generate.
  change (match idl.interfaces Example.types !! "Script"%string with
          | Some script =>
              visit (M := CppTypeMacroGenerator.methods 15) 15 script
                (TypeVisitor_init Example.types CppTypeMacroGenerator.fresh)
          | None => Raised KeyError
          end = Returned self').
  rewrite example_script. exact Hvisit.
Qed.

Lemma generate_tabulates_witness :
  exists self' script calls,
    CppTypeMacroGenerator.run 15 Example.types = Returned self' /\
    idl.interfaces Example.types !! "Script"%string = Some script /\
    visit (M := Example.recorder) 15 script (TypeVisitor_init Example.types [])
    = Returned (recording self' calls) /\
    Tables.tabulates 15 Example.types calls (fields self').
Proof.
  destruct example_run_returns as (self' & Hrun).
  destruct (generate_tabulates 15 Example.types self' Hrun)
    as (script & calls & Hscript & Hrec & Htab).
  exists self', script, calls.
  split; [exact Hrun |]. split; [exact Hscript |]. split; [exact Hrec | exact Htab].
Defined.

(** ** The container: errors and edges *)

(** X8. When the stream holds the magic header and the version byte, [read]
    hands everything that follows them to the decompressor and leaves the
    stream at its end, whatever happens next. An error of the decompressor
    is the error of [read]; otherwise the outcome of [read] is the outcome
    of decoding the decompressed content from its start, on a stream of its
    own: where decoding stops in that content does not show. *)
Theorem read_accepted_header {C : Collaborators}
    (fuel : nat) (types : TypeResolver) (ty : Ty) (st : reading) :
  let rest := drop (pos (r_inp st)) (data (r_inp st)) in
  take 9 rest = MAGIC_HEADER ++ FORMAT_VERSION ->
  (read fuel types ty st).2
  = {| r_inp := {| data := data (r_inp st); pos := length (data (r_inp st)) |};
       r_string_dict := r_string_dict st |} /\
  (forall e, brotli_decompress (drop 9 rest) = Raised e ->
     (read fuel types ty st).1 = Raised e) /\
  (forall content, brotli_decompress (drop 9 rest) = Returned content ->
     (read fuel types ty st).1
     = (read_content fuel types (r_string_dict st) ty
          {| data := content; pos := 0 |}).1).
Proof.
  intros rest Hheader. rewrite (read_after_header fuel types ty st Hheader).
  fold rest. split; [reflexivity |]. split.
  - by intros e ->.
  - by intros content ->.
Qed.

Lemma read_accepted_header_witness :
  let st := {| r_inp := {| data := Toy.container ++ [x2a]; pos := 0 |};
               r_string_dict := Toy.shared |} in
  take 9 (drop 0 (Toy.container ++ [x2a])) = MAGIC_HEADER ++ FORMAT_VERSION /\
  (read (C := Toy.collaborators) 10 Example.types 0 st).2
  = {| r_inp := {| data := Toy.container ++ [x2a];
                   pos := length (Toy.container ++ [x2a]) |};
       r_string_dict := Toy.shared |}.
Proof.
  intros st.
  assert (take 9 (drop 0 (Toy.container ++ [x2a])) = MAGIC_HEADER ++ FORMAT_VERSION)
    as Hheader by reflexivity.
  split; [exact Hheader |].
  exact (proj1 (read_accepted_header (C := Toy.collaborators) 10 Example.types 0 st
                  Hheader)).
Defined.

(** X9. [write] emits nothing for a tree that fails the type check: it raises
    before the header is written and leaves the output as it was, with the
    tree already coerced by the [FloatFixer]. When [write] returns, the tree
    has passed the check and the output has grown by the header, the version
    byte and the compressed content, in one piece. *)
Theorem write_checks_first {C : Collaborators}
    (iteration : gset string -> list string) (fuel : nat) (types : TypeResolver)
    (ty : Ty) (st : written) :
  let tree := FloatFixer_rewrite types ty (w_tree st) in
  (TypeChecker_check_any types ty tree = false ->
   write iteration fuel types ty st
   = (Raised SchemaViolation,
      {| w_tree := tree; w_string_dict := w_string_dict st; w_out := w_out st |})) /\
  (forall st', write iteration fuel types ty st = (Returned tt, st') ->
   TypeChecker_check_any types ty tree = true /\
   exists content,
     content_no_brotli iteration fuel types (w_string_dict st) ty tree
     = Returned content /\
     st' = {| w_tree := tree; w_string_dict := w_string_dict st;
              w_out := w_out st ++ MAGIC_HEADER ++ FORMAT_VERSION
                       ++ brotli_compress content |}).
Proof.
  intros tree. unfold write, mbind, prog_bind, gets, modify, raise, lift, mret,
    prog_ret.
  cbn -[content_no_brotli MAGIC_HEADER FORMAT_VERSION]. fold tree.
  destruct (TypeChecker_check_any types ty tree).
  - split; [discriminate |]. intros st'.
    cbn -[content_no_brotli MAGIC_HEADER FORMAT_VERSION].
    destruct (content_no_brotli iteration fuel types (w_string_dict st) ty tree)
      as [content | e |]; [| discriminate | discriminate].
    intros [= <-]. split; [reflexivity |]. exists content.
    split; [reflexivity |]. unfold out_write. simpl. by rewrite <- !app_assoc.
  - split; [reflexivity | discriminate].
Qed.

Lemma write_checks_first_witness :
  let st := @Build_written Toy.collaborators (Toy.Placeholder 0) Toy.shared [x2a] in
  Toy.check_any (Toy.Placeholder 0) = false /\
  write (C := Toy.collaborators) elements 10 Example.types 0 st
  = (Raised SchemaViolation, st).
Proof.
  intros st. split; [reflexivity |].
  exact (proj1 (write_checks_first (C := Toy.collaborators) elements 10
Example.types 0 st) eq_refl).
Defined.

Section TrailingContent.
Context {C : Collaborators} (types : TypeResolver) (size : tree -> nat).
Context (K : Contracts types size).

(** The content [write] compresses is read back whatever follows it. *)
Lemma read_content_followed (iteration : gset string -> list string) (fuel : nat)
    (string_dict : list string) (ty : Ty) (tree : tree) (piece junk : bytes) :
  is_iteration iteration ->
  TypeChecker_check_any types ty tree = true ->
  size tree < fuel ->
  let local := local_strings iteration types string_dict ty tree in
  let m := model_tree types ty tree in
  piece_layout types m ty tree piece ->
  let content :=
    write_dict local ++ ModelWriter_write types (local ++ string_dict) ty m ++ piece in
  read_content fuel types string_dict ty {| data := content ++ junk; pos := 0 |}
  = (Returned tree, {| data := content ++ junk; pos := length content |}).
Proof.
  intros Hit Hcheck Hsize local m Hlayout content.
  set (dict_bytes := write_dict local).
  set (model_bytes := ModelWriter_write types (local ++ string_dict) ty m).
  assert (content ++ junk = dict_bytes ++ model_bytes ++ piece ++ junk) as Hwhole
    by (unfold content; by rewrite <- !app_assoc).
  unfold read_content.
  rewrite (prog_bind_step _ _ _ local
             {| data := content ++ junk; pos := length dict_bytes |}).
  2: { rewrite Hwhole.
       apply (stream_run_reads_back read_dict dict_bytes local []
                (model_bytes ++ piece ++ junk)).
       apply (dict_round_trip types size K). }
  rewrite (prog_bind_step _ _ _ m
             {| data := content ++ junk;
                pos := length dict_bytes + length model_bytes |}).
  2: { rewrite Hwhole.
       apply (stream_run_reads_back _ model_bytes m dict_bytes (piece ++ junk)).
       apply (model_round_trip types size K); [exact Hcheck |].
       intros s Hs. by apply collected_resolvable. }
  rewrite (prog_bind_step _ _ _ tree
             {| data := content ++ junk; pos := length content |}).
  2: { pose proof (read_piece_layout types size K ty tree Hcheck fuel ty tree piece
                     (dict_bytes ++ model_bytes) junk
                     (piece_root types (ty, tree)) Hsize Hlayout) as Hread.
       rewrite <- app_assoc, length_app in Hread. rewrite Hwhole.
       etransitivity; [exact Hread |].
       do 2 f_equal. unfold content. rewrite !length_app. fold dict_bytes model_bytes.
       lia. }
  rewrite Hcheck. reflexivity.
Qed.

End TrailingContent.

(** X10. [read] does not check that decoding uses up the decompressed
    content. With collaborators that keep their contracts and a conforming
    tree, take the content [write] compresses and put any bytes after it
    before compressing: [read] still returns the tree, from any place in a
    stream where that container starts, and leaves the stream at its end. *)
Theorem read_ignores_trailing_content {C : Collaborators}
    (iteration : gset string -> list string) (fuel_w fuel_r : nat)
    (types : TypeResolver) (string_dict : list string) (ty : Ty)
    (size : tree -> nat) (tree : tree) :
  Contracts types size ->
  is_iteration iteration ->
  TypeChecker_check_any types ty tree = true ->
  size tree < fuel_w ->
  size tree < fuel_r ->
  exists content,
    content_no_brotli iteration fuel_w types string_dict ty tree = Returned content /\
    forall before junk,
      let container :=
        before ++ MAGIC_HEADER ++ FORMAT_VERSION ++ brotli_compress (content ++ junk) in
      read fuel_r types ty
        {| r_inp := {| data := container; pos := length before |};
           r_string_dict := string_dict |}
      = (Returned tree,
         {| r_inp := {| data := container; pos := length container |};
            r_string_dict := string_dict |}).
Proof.
  intros K Hit Hcheck Hfuel_w Hfuel_r.
  set (local := local_strings iteration types string_dict ty tree).
  set (m := model_tree types ty tree).
  destruct (write_piece_layout types m size (lazy_parts_smaller types size K)
              fuel_w ty tree
              (write_dict local ++ ModelWriter_write types (local ++ string_dict) ty m)
              Hfuel_w) as (piece & Hpiece & Hlayout).
  exists ((write_dict local ++ ModelWriter_write types (local ++ string_dict) ty m)
          ++ piece).
  split; [exact Hpiece |].
  intros before junk container.
  set (st := {| r_inp := {| data := container; pos := length before |};
                r_string_dict := string_dict |}).
  assert (drop (pos (r_inp st)) (data (r_inp st))
          = (MAGIC_HEADER ++ FORMAT_VERSION)
            ++ brotli_compress
                 (((write_dict local
                    ++ ModelWriter_write types (local ++ string_dict) ty m)
                   ++ piece) ++ junk)) as Hrest.
  { unfold st, container. simpl. rewrite drop_app_length. by rewrite <- app_assoc. }
  assert (take 9 (drop (pos (r_inp st)) (data (r_inp st)))
          = MAGIC_HEADER ++ FORMAT_VERSION) as Hheader.
  { rewrite Hrest. by rewrite (take_app_length' (MAGIC_HEADER ++ FORMAT_VERSION)). }
  rewrite (read_after_header fuel_r types ty st Hheader).
  rewrite Hrest, (drop_app_length' (MAGIC_HEADER ++ FORMAT_VERSION)) by reflexivity.
  rewrite (brotli_round_trip types size K). cbn [mbind outcome_bind st r_string_dict].
  pose proof (read_content_followed types size K iteration fuel_r string_dict ty tree
                piece junk Hit Hcheck Hfuel_r Hlayout) as Hcontent.
  cbv zeta in Hcontent. fold local m in Hcontent.
  rewrite <- app_assoc. rewrite <- app_assoc in Hcontent.
  rewrite <- !app_assoc in Hcontent. rewrite <- !app_assoc.
  by rewrite Hcontent.
Qed.

Lemma read_ignores_trailing_content_witness :
  Contracts (C := Toy.collaborators) Example.types Toy.tree_size /\
  is_iteration elements /\
  Toy.check_any Toy.sample = true /\
  Toy.tree_size Toy.sample < 10 /\
  exists content,
    content_no_brotli (C := Toy.collaborators) elements 10 Example.types Toy.shared 0
      Toy.sample = Returned content /\
    read (C := Toy.collaborators) 10 Example.types 0
      {| r_inp := {| data := [x2a] ++ MAGIC_HEADER ++ FORMAT_VERSION
                             ++ Toy.compress (content ++ [xff; xff]);
                     pos := 1 |};
         r_string_dict := Toy.shared |}
    = (Returned Toy.sample,
       {| r_inp := {| data := [x2a] ++ MAGIC_HEADER ++ FORMAT_VERSION
                              ++ Toy.compress (content ++ [xff; xff]);
                      pos := length ([x2a] ++ MAGIC_HEADER ++ FORMAT_VERSION
                                     ++ Toy.compress (content ++ [xff; xff])) |};
          r_string_dict := Toy.shared |}).
Proof.
  pose proof (toy_contracts Example.types) as H1.
  pose proof is_iteration_elements as H2.
  assert (Toy.check_any Toy.sample = true) as H3 by reflexivity.
  assert (Toy.tree_size Toy.sample < 10) as H4 by (simpl; lia).
  split; [exact H1 |]. split; [exact H2 |]. split; [exact H3 |]. split; [exact H4 |].
  destruct (read_ignores_trailing_content (C := Toy.collaborators) elements 10 10
Example.types Toy.shared 0 Toy.tree_size Toy.sample H1 H2 H3 H4 H4)
    as (content & Hcontent & Hread).
  exists content. split; [exact Hcontent |].
  exact (Hread [x2a] [xff; xff]).
Defined.

(** ** [read_piece] on any bytes *)

Lemma prog_bind_terminates {St A B} (x : prog St A) (k : A -> prog St B) st :
  terminates (x st).1 ->
  (forall a st1, x st = (Returned a, st1) -> terminates (k a st1).1) ->
  terminates ((x ≫= k) st).1.
Proof.
  intros Hx Hk. unfold mbind, prog_bind.
  destruct (x st) as [[a | e |] st1]; simpl in *; [by apply Hk | done | done].
Qed.

(** A loop whose steps come back on the states that satisfy [P], and keep
    [P], comes back. *)
Lemma prog_map_terminates {St A B} (P : St -> Prop) (f : A -> prog St B)
    (xs : list A) :
  (forall x st, x ∈ xs -> P st -> terminates (f x st).1 /\ P (f x st).2) ->
  forall st, P st -> terminates (prog_map f xs st).1.
Proof.
  induction xs as [| x xs IH]; intros Hf st HP; [exact I |].
  simpl. apply prog_bind_terminates.
  - apply Hf; [apply list_elem_of_here | exact HP].
  - intros y st1 Hy. apply prog_bind_terminates.
    + apply IH.
      * intros x' st' Hin. apply Hf. by apply list_elem_of_further.
      * pose proof (Hf x st (list_elem_of_here _ _) HP) as [_ HP1].
        by rewrite Hy in HP1.
    + intros ys st2 _. exact I.
Qed.

Lemma offsets_from_lower sizes : forall start offset,
  offset ∈ offsets_from start sizes -> start <= offset.
Proof.
  induction sizes as [| size sizes IH]; intros start offset; simpl.
  - intros Hin. apply list_elem_of_singleton in Hin. lia.
  - intros Hin. apply elem_of_cons in Hin as [-> | Hin]; [lia |].
    apply IH in Hin. lia.
Qed.

Section ReadPieceTerminates.
Context {C : Collaborators} (types : TypeResolver) (m : model).
Hypothesis decode_terminates : forall ty input, terminates (decode types m ty input).
Hypothesis varint_terminates : forall input, terminates (read_varint input).
Hypothesis varint_consumes :
  forall input n read, read_varint input = Returned (n, read) ->
    1 <= read <= length input.

Lemma inp_run_terminates {A} (p : reader A) inp :
  (forall input, terminates (p input)) -> terminates (inp_run p inp).1.
Proof.
  intros Hp. unfold inp_run, stream_run.
  specialize (Hp (drop (pos inp) (data inp))).
  by destruct (p _) as [[a n] | e |].
Qed.

Lemma inp_run_forward {A} (p : reader A) inp a inp' :
  inp_run p inp = (Returned a, inp') -> pos inp <= pos inp' /\ data inp' = data inp.
Proof.
  unfold inp_run, stream_run.
  destruct (p _) as [[a' n] | e |]; [| discriminate | discriminate].
  intros [= <- <-]. simpl. split; [lia | reflexivity].
Qed.

Lemma inp_run_varint_forward inp n inp' :
  inp_run read_varint inp = (Returned n, inp') ->
  pos inp < pos inp' <= length (data inp) /\ data inp' = data inp.
Proof.
  unfold inp_run, stream_run.
  destruct (read_varint _) as [[n' read] | e |] eqn:Hread;
    [| discriminate | discriminate].
  apply varint_consumes in Hread. rewrite length_drop in Hread.
  intros [= <- <-]. simpl. rewrite length_drop. split; [lia | reflexivity].
Qed.

Lemma read_lazy_sizes_terminates n : forall lazy_offsets inp,
  terminates (read_lazy_sizes n lazy_offsets inp).1.
Proof.
  induction n as [| n IH]; intros lazy_offsets inp; [exact I |].
  simpl. apply prog_bind_terminates.
  - by apply inp_run_terminates.
  - intros lazy_size inp1 _. apply IH.
Qed.

Lemma read_lazy_sizes_forward n : forall lazy_offsets inp offsets inp',
  read_lazy_sizes n lazy_offsets inp = (Returned offsets, inp') ->
  pos inp <= pos inp' <= Nat.max (pos inp) (length (data inp)).
Proof.
  induction n as [| n IH]; intros lazy_offsets inp offsets inp'; simpl.
  - intros [= <- <-]. lia.
  - intros H. apply prog_bind_returned in H as (lazy_size & inp1 & H1 & H2).
    apply inp_run_varint_forward in H1 as (Hpos & Hdata).
    apply IH in H2. rewrite Hdata in H2. lia.
Qed.

Lemma read_lazy_offsets_terminates inp : terminates (read_lazy_offsets inp).1.
Proof.
  unfold read_lazy_offsets. apply prog_bind_terminates.
  - by apply inp_run_terminates.
  - intros n inp1 _. apply prog_bind_terminates.
    + apply read_lazy_sizes_terminates.
    + intros offsets inp2 _. exact I.
Qed.

(** The offsets point at or after the place where the index ends, which is
    after the place where it starts and within the content. *)
Lemma read_lazy_offsets_forward inp lazy_offsets inp' :
  read_lazy_offsets inp = (Returned lazy_offsets, inp') ->
  pos inp < pos inp' <= length (data inp) /\
  forall offset, offset ∈ lazy_offsets -> pos inp' <= offset.
Proof.
  intros H. split.
  - unfold read_lazy_offsets in H.
    apply prog_bind_returned in H as (n & inp1 & H1 & H).
    apply prog_bind_returned in H as (offsets & inp2 & H2 & H).
    apply prog_bind_returned in H as (here & inp3 & [= <- <-] & [= <- <-]).
    apply inp_run_varint_forward in H1 as (Hpos & Hdata).
    apply read_lazy_sizes_forward in H2. rewrite Hdata in H2. lia.
  - apply read_lazy_offsets_sums in H as (sizes & -> & _).
    intros offset. apply offsets_from_lower.
Qed.

Lemma read_piece_comes_back fuel : forall ty inp,
  length (data inp) - pos inp < fuel ->
  terminates (read_piece fuel types m ty inp).1.
Proof.
  induction fuel as [| fuel IH]; intros ty inp Hfuel; [lia |].
  cbn [read_piece]. apply prog_bind_terminates.
  { by apply inp_run_terminates. }
  intros body inp1 Hbody. apply inp_run_forward in Hbody as (Hpos1 & Hdata1).
  apply prog_bind_terminates; [apply read_lazy_offsets_terminates |].
  intros lazy_offsets inp2 Hoffsets.
  pose proof (preserves_read_lazy_offsets inp1) as Hdata2.
  rewrite Hoffsets in Hdata2. unfold same_data in Hdata2. simpl in Hdata2.
  apply read_lazy_offsets_forward in Hoffsets as (Hpos2 & Hlower).
  rewrite Hdata1 in Hpos2.
  apply prog_bind_terminates; [| intros tree inp3 _; exact I].
  unfold LazyMemberRestorer_replace.
  apply prog_bind_terminates; [| intros parts inp3 _; exact I].
  apply (prog_map_terminates (fun st => data st = data inp)); [| congruence].
  intros [[pty attr] index] st _ Hst. split.
  - unfold restore_lazy_part, index_list.
    destruct (lazy_offsets !! index) as [target |] eqn:Htarget; [| exact I].
    apply list_elem_of_lookup_2, Hlower in Htarget.
    apply prog_bind_terminates; [exact I |]. intros ? ? [= <- <-].
    apply prog_bind_terminates; [exact I |]. intros [] ? [= <-].
    apply prog_bind_terminates.
    { apply IH. simpl. rewrite Hst. lia. }
    intros part st1 _.
    apply prog_bind_terminates; [exact I |]. intros ? ? [= <- <-].
    destruct (lazy_offsets !! (index + 1)) as [expected |]; [| exact I].
    apply prog_bind_terminates; [exact I |]. intros ? ? [= <- <-].
    apply prog_bind_terminates; [| intros; exact I].
    unfold assert. by destruct (bool_decide _).
  - pose proof (preserves_restore_lazy_part (read_piece fuel types m) lazy_offsets
                  pty attr index (preserves_read_piece fuel types m) st) as Hkeep.
    unfold same_data in Hkeep. congruence.
Qed.

End ReadPieceTerminates.

Lemma toy_read_varint_total input :
  terminates (Toy.read_varint input) /\
  forall n read, Toy.read_varint input = Returned (n, read) -> 1 <= read <= length input.
Proof.
  induction input as [| b input [IHt IHc]]; simpl.
  - split; [exact I | discriminate].
  - destruct (Byte.to_nat b <? 128).
    + split; [exact I |]. intros n read [= <- <-]. lia.
    + destruct (Toy.read_varint input) as [[high read'] | e |]; simpl;
        [| split; [exact I | discriminate] | done].
      split; [exact I |]. intros n read [= <- <-].
      specialize (IHc high read' eq_refl). lia.
Qed.

Lemma toy_decode_terminates input : terminates (Toy.decode input).
Proof.
  unfold Toy.decode, Toy.read_str.
  pose proof (proj1 (toy_read_varint_total input)) as Hlen.
  destruct (Toy.read_varint input) as [[len read] | e |]; simpl; [| done | done].
  destruct (decide (len <= length (drop read input))); simpl; [| done].
  pose proof (proj1 (toy_read_varint_total (drop (read + len) input))) as Hcount.
  by destruct (Toy.read_varint (drop (read + len) input)) as [[count read'] | e |].
Qed.

(** X11. [read_piece] comes back on any bytes, provided the coder and the
    reader of variable-length integers come back and that reader uses at
    least one byte of its input: a lazy offset never lies before the place
    where the lazy index ends, so a nested piece starts further in the
    stream than the piece that holds it, and the nesting is bounded by the
    number of bytes left. A budget above that number is enough, whatever
    the bytes say about sizes and indices. *)
Theorem read_piece_terminates {C : Collaborators}
    (types : TypeResolver) (m : model) (fuel : nat) (ty : Ty) (inp : stream) :
  (forall ty input, terminates (decode types m ty input)) ->
  (forall input, terminates (read_varint input)) ->
  (forall input n read, read_varint input = Returned (n, read) ->
     1 <= read <= length input) ->
  length (data inp) - pos inp < fuel ->
  terminates (read_piece fuel types m ty inp).1.
Proof.
  intros Hdecode Hvarint Hconsumes. by apply read_piece_comes_back.
Qed.

Lemma read_piece_terminates_witness :
  (forall (ty : Ty) input, terminates (Toy.decode input)) /\
  (forall input, terminates (Toy.read_varint input)) /\
  (forall input n read, Toy.read_varint input = Returned (n, read) ->
     1 <= read <= length input) /\
  length (data (Toy.content_at 13)) - pos (Toy.content_at 13) < 30 /\
  terminates (read_piece (C := Toy.collaborators) 30 Example.types tt 0
                (Toy.content_at 13)).1.
Proof.
  assert (forall (ty : Ty) input, terminates (Toy.decode input)) as H1
    by (intros _; apply toy_decode_terminates).
  assert (forall input, terminates (Toy.read_varint input)) as H2
    by (intros input; apply toy_read_varint_total).
  assert (forall input n read, Toy.read_varint input = Returned (n, read) ->
            1 <= read <= length input) as H3
    by (intros input; apply toy_read_varint_total).
  assert (length (data (Toy.content_at 13)) - pos (Toy.content_at 13) < 30) as H4
    by (vm_compute; lia).
  split; [exact H1 |]. split; [exact H2 |]. split; [exact H3 |]. split; [exact H4 |].
  exact (read_piece_terminates (C := Toy.collaborators) Example.types tt 30 0
           (Toy.content_at 13) H1 H2 H3 H4).
Defined.

(** ** Lazy indices out of range *)

Lemma prog_map_returned {St A B} (f : A -> prog St B) (xs : list A) :
  forall st ys st', prog_map f xs st = (Returned ys, st') ->
  forall x, x ∈ xs -> exists st1 y st2, f x st1 = (Returned y, st2).
Proof.
  induction xs as [| x0 xs IH]; intros st ys st' H x Hin.
  - by apply elem_of_nil in Hin.
  - simpl in H. apply prog_bind_returned in H as (y & st1 & Hy & H).
    apply prog_bind_returned in H as (ys' & st2 & Hys & _).
    apply elem_of_cons in Hin as [-> | Hin]; [by exists st, y, st1 |].
    by apply (IH _ _ _ Hys).
Qed.

Lemma length_offsets_from sizes : forall start,
  length (offsets_from start sizes) = S (length sizes).
Proof.
  induction sizes as [| size sizes IH]; intros start; [reflexivity |].
  simpl. by rewrite IH.
Qed.

(** X12. The lazy index bounds the placeholders. Resolving an index past the
    list of offsets raises [IndexError] with the stream where it was.
    Resolving the index just after the last lazy part finds the final
    offset, reads a piece there, and raises [IndexError] only then, with the
    stream where that piece ended. When resolving returns, the part was
    read at [lazy_offsets[index]] and ended exactly at
    [lazy_offsets[index + 1]]. So when [read_piece] returns, every
    placeholder of the body it decoded has an index below the number of
    sizes in the lazy index it read. *)
Theorem lazy_index_bounds {C : Collaborators}
    (fuel : nat) (types : TypeResolver) (m : model) (ty : Ty) :
  (forall read_piece lazy_offsets pty attr index inp,
     length lazy_offsets <= index ->
     restore_lazy_part read_piece lazy_offsets pty attr index inp
     = (Raised IndexError, inp)) /\
  (forall read_piece lazy_offsets pty attr index inp target part inp1,
     length lazy_offsets = index + 1 ->
     lazy_offsets !! index = Some target ->
     read_piece (resolved_ty attr) (stream_seek target inp) = (Returned part, inp1) ->
     restore_lazy_part read_piece lazy_offsets pty attr index inp
     = (Raised IndexError, inp1)) /\
  (forall read_piece lazy_offsets pty attr index inp part inp',
     restore_lazy_part read_piece lazy_offsets pty attr index inp
     = (Returned part, inp') ->
     exists target,
       lazy_offsets !! index = Some target /\
       read_piece (resolved_ty attr) (stream_seek target inp) = (Returned part, inp') /\
       lazy_offsets !! (index + 1) = Some (pos inp')) /\
  (forall inp tree inp',
     read_piece fuel types m ty inp = (Returned tree, inp') ->
     exists body inp1 sizes inp2,
       inp_run (decode types m ty) inp = (Returned body, inp1) /\
       read_lazy_offsets inp1 = (Returned (offsets_from (pos inp2) sizes), inp2) /\
       forall pty attr index,
         (pty, attr, index) ∈ placeholders types ty body -> index < length sizes).
Proof.
  split; [| split; [| split]].
  - intros read_piece lazy_offsets pty attr index inp Hlen.
    unfold restore_lazy_part, index_list.
    by rewrite (lookup_ge_None_2 lazy_offsets index Hlen).
  - intros read_piece lazy_offsets pty attr index inp target part inp1 Hlen Htarget
      Hread.
    unfold restore_lazy_part, index_list. rewrite Htarget.
    rewrite (lookup_ge_None_2 lazy_offsets (index + 1)) by lia.
    unfold mbind, prog_bind, lift, inp_seek, modify, inp_tell, gets.
    by rewrite Hread.
  - intros read_piece lazy_offsets pty attr index inp part inp'.
    apply restore_lazy_part_returned.
  - intros inp tree inp' Hread.
    destruct fuel as [| fuel]; [discriminate |]. cbn [read_piece] in Hread.
    apply prog_bind_returned in Hread as (body & inp1 & Hbody & Hread).
    apply prog_bind_returned in Hread as (lazy_offsets & inp2 & Hoffsets & Hread).
    apply prog_bind_returned in Hread as (tree' & inp3 & Hrestore & _).
    destruct (read_lazy_offsets_sums _ _ _ Hoffsets) as (sizes & -> & _).
    exists body, inp1, sizes, inp2. split; [exact Hbody |]. split; [exact Hoffsets |].
    intros pty attr index Hin.
    unfold LazyMemberRestorer_replace in Hrestore.
    apply prog_bind_returned in Hrestore as (parts & inp4 & Hparts & _).
    destruct (prog_map_returned _ _ _ _ _ Hparts _ Hin) as (st1 & part & st2 & Hone).
    apply restore_lazy_part_returned in Hone as (target & _ & _ & Hnext).
    apply lookup_lt_Some in Hnext. rewrite length_offsets_from in Hnext. lia.
Qed.

Lemma lazy_index_bounds_witness :
  (* the hypotheses, on the content of the sample's container *)
  length [23; 27; 41] <= 3 /\
  length [23] = 0 + 1 /\
  [23] !! 0 = Some 23 /\
  read_piece (C := Toy.collaborators) 9 Example.types tt (resolved_ty Toy.kid)
    (stream_seek 23 (Toy.content_at 23))
    = (Returned (Toy.Node "x" []), Toy.content_at 27) /\
  read_piece (C := Toy.collaborators) 10 Example.types tt 0 (Toy.content_at 12)
    = (Returned Toy.sample, Toy.content_at 41) /\
  (* what the theorem gives there *)
  restore_lazy_part (C := Toy.collaborators)
    (read_piece (C := Toy.collaborators) 9 Example.types tt)
    [23; 27; 41] 0 Toy.kid 3 (Toy.content_at 23)
    = (Raised IndexError, Toy.content_at 23) /\
  restore_lazy_part (C := Toy.collaborators)
    (read_piece (C := Toy.collaborators) 9 Example.types tt)
    [23] 0 Toy.kid 0 (Toy.content_at 23)
    = (Raised IndexError, Toy.content_at 27) /\
  (exists body inp1 sizes inp2,
     inp_run (decode (Collaborators := Toy.collaborators) Example.types tt 0)
       (Toy.content_at 12)
       = (Returned body, inp1) /\
     read_lazy_offsets (C := Toy.collaborators) inp1
       = (Returned (offsets_from (pos inp2) sizes), inp2) /\
     forall pty attr index,
       (pty, attr, index)
         ∈ placeholders (Collaborators := Toy.collaborators) Example.types 0 body ->
       index < length sizes).
Proof.
  assert (length [23; 27; 41] <= 3) as H1 by (simpl; lia).
  assert (length [23] = 0 + 1) as H2 by reflexivity.
  assert ([23] !! 0 = Some 23) as H3 by reflexivity.
  assert (read_piece (C := Toy.collaborators) 9 Example.types tt
            (resolved_ty Toy.kid) (stream_seek 23 (Toy.content_at 23))
          = (Returned (Toy.Node "x" []), Toy.content_at 27)) as H4
    by (vm_compute; reflexivity).
  assert (read_piece (C := Toy.collaborators) 10 Example.types tt 0
            (Toy.content_at 12)
          = (Returned Toy.sample, Toy.content_at 41)) as H5
    by (vm_compute; reflexivity).
  destruct (lazy_index_bounds (C := Toy.collaborators) 10 Example.types tt 0)
    as (Hpast & Hlast & _ & Hpiece).
  split; [exact H1 |]. split; [exact H2 |]. split; [exact H3 |].
  split; [exact H4 |]. split; [exact H5 |].
  split; [| split].
  - exact (Hpast (read_piece (C := Toy.collaborators) 9 Example.types tt)
             [23; 27; 41] 0 Toy.kid 3 (Toy.content_at 23) H1).
  - exact (Hlast (read_piece (C := Toy.collaborators) 9 Example.types tt)
             [23] 0 Toy.kid 0 (Toy.content_at 23) 23 (Toy.Node "x" [])
             (Toy.content_at 27) H2 H3 H4).
  - exact (Hpiece _ _ _ H5).
Defined.

(** ** Traversals one after another *)

(** X13. [visit] keeps the visited set closed under children: called on a
    visitor whose visited set holds the children of each of its types (a new
    visitor, or one whose earlier traversals have returned), a traversal
    that returns leaves such a set again, and it has added exactly the
    types its root reaches. So the traversals of one visitor add up: after
    several of them the visited set is what their roots reach together. *)
Theorem visit_keeps_closed {St : Type} {M : TypeVisitorMethods St}
    (fuel : nat) (ty : Ty) (self self' : TypeVisitor St) :
  closed (resolver self) (visited_types self) ->
  visit fuel ty self = Returned self' ->
  closed (resolver self) (visited_types self') /\
  forall x, x ∈ visited_types self'
            <-> x ∈ visited_types self \/ reachable (resolver self) ty x.
Proof.
  intros Hclosed Hvisit.
  pose proof (visit_marks _ _ _ _ Hvisit) as Hroot.
  destruct (visit_closes (resolver self) fuel ty self self' eq_refl Hvisit)
    as (_ & Hsub & Hnew).
  destruct (visit_adds_reachable (resolver self) fuel ty self self' eq_refl Hvisit)
    as [_ Hadd].
  assert (closed (resolver self) (visited_types self')) as Hclosed'.
  { intros x c Hx Hc.
    destruct (decide (x ∈ visited_types self)) as [Hold | Hfresh].
    - apply Hsub. by apply (Hclosed x).
    - by apply (Hnew x). }
  split; [exact Hclosed' |].
  intros x. split.
  - intros Hx. destruct (Hadd x Hx) as [Hold | (root & Hin & Hreach)]; [by left |].
    apply list_elem_of_singleton in Hin as ->. by right.
  - intros [Hold | Hreach]; [by apply Hsub |].
    induction Hreach as [| x x' _ IH Hchild]; [exact Hroot |].
    by apply (Hclosed' x).
Qed.

(** Two traversals of one recorder: from [Block], then from [Script]. *)
Lemma example_recorder_twice :
  exists self1 self2,
    visit (M := Example.recorder) 15 6 (TypeVisitor_init Example.types [])
    = Returned self1 /\
    resolver self1 = Example.types /\
    visit (M := Example.recorder) 15 0 self1 = Returned self2.
Proof.
  assert (exists self1,
            visit (M := Example.recorder) 15 6 (TypeVisitor_init Example.types [])
            = Returned self1) as (self1 & Hv1).
  { apply returns_iff.
    apply (visit_within _ Example.types); [apply recorder_returns | reflexivity |].
    pose proof (unvisited_bound Example.types ∅) as Hb.
    change (length (universe Example.types)) with 14 in Hb.
    change (visited_types (TypeVisitor_init Example.types ([] : list Ty)))
      with (∅ : gset Ty).
    lia. }
  assert (resolver self1 = Example.types) as Hres.
  { by destruct (visit_closes Example.types 15 6
                   (TypeVisitor_init Example.types []) self1 eq_refl Hv1)
       as (Hr & _). }
  exists self1.
  assert (exists self2, visit (M := Example.recorder) 15 0 self1 = Returned self2)
    as (self2 & Hv2).
  { apply returns_iff.
    apply (visit_within _ Example.types); [apply recorder_returns | exact Hres |].
    pose proof (unvisited_bound Example.types (visited_types self1)) as Hb.
    change (length (universe Example.types)) with 14 in Hb. lia. }
  by exists self2.
Qed.

Lemma visit_keeps_closed_witness :
  exists self1 self2,
    (* a first traversal, from [Block], of a new recorder *)
    visit (M := Example.recorder) 15 6 (TypeVisitor_init Example.types [])
    = Returned self1 /\
    6 ∈ visited_types self1 /\
    (* the hypotheses of a second one, from [Script] *)
    closed (resolver self1) (visited_types self1) /\
    visit (M := Example.recorder) 15 0 self1 = Returned self2 /\
    (* what the theorem gives there *)
    closed (resolver self1) (visited_types self2) /\
    forall x, x ∈ visited_types self2
              <-> x ∈ visited_types self1 \/ reachable (resolver self1) 0 x.
Proof.
  destruct example_recorder_twice as (self1 & self2 & Hv1 & Hres & Hv2).
  assert (closed Example.types
            (visited_types (TypeVisitor_init Example.types ([] : list Ty))))
    as Hclosed0.
  { intros x c Hx. change (x ∈ (∅ : gset Ty)) in Hx.
    by apply not_elem_of_empty in Hx. }
  pose proof (proj1 (visit_keeps_closed (M := Example.recorder) 15 6
                       (TypeVisitor_init Example.types []) self1 Hclosed0 Hv1))
    as Hclosed1.
  change (resolver (TypeVisitor_init Example.types ([] : list Ty)))
    with Example.types in Hclosed1.
  rewrite <- Hres in Hclosed1.
  exists self1, self2. split; [exact Hv1 |].
  split; [exact (visit_marks _ _ _ _ Hv1) |].
  split; [exact Hclosed1 |]. split; [exact Hv2 |].
  exact (visit_keeps_closed (M := Example.recorder) 15 0 self1 self2 Hclosed1 Hv2).
Defined.

(** ** A piece on its own *)

(** X14. A piece is self-contained. With collaborators that keep their
    contracts, take any piece of a conforming tree, the root or a lazy part
    at any depth, and budgets above its size: [write_piece] appends the
    bytes of the piece to its output, and [read_piece] reads the piece back
    from those bytes wherever they lie in a stream and whatever follows
    them, and leaves the stream just after them. *)
Theorem piece_round_trip {C : Collaborators}
    (types : TypeResolver) (size : tree -> nat) (ty0 : Ty) (tree0 : tree)
    (ty : Ty) (node : tree) (fuel_w fuel_r : nat) (out : bytes) :
  Contracts types size ->
  TypeChecker_check_any types ty0 tree0 = true ->
  piece_of types (ty0, tree0) (ty, node) ->
  size node < fuel_w ->
  size node < fuel_r ->
  let m := model_tree types ty0 tree0 in
  exists piece,
    write_piece fuel_w types m ty node out = Returned (out ++ piece) /\
    forall before rest,
      read_piece fuel_r types m ty
        {| data := before ++ piece ++ rest; pos := length before |}
      = (Returned node,
         {| data := before ++ piece ++ rest; pos := length before + length piece |}).
Proof.
  intros K Hcheck Hpiece Hfuel_w Hfuel_r m.
  destruct (write_piece_layout types m size (lazy_parts_smaller types size K)
              fuel_w ty node out Hfuel_w) as (piece & Hwrite & Hlayout).
  exists piece. split; [exact Hwrite |].
  intros before rest.
  exact (read_piece_layout types size K ty0 tree0 Hcheck fuel_r ty node piece
           before rest Hpiece Hfuel_r Hlayout).
Qed.

Lemma piece_round_trip_witness :
  let part := Toy.Node "f" [Toy.Node "y" []; Toy.Node "x" []] in
  Contracts (C := Toy.collaborators) Example.types Toy.tree_size /\
  Toy.check_any Toy.sample = true /\
  piece_of (C := Toy.collaborators) Example.types (0, Toy.sample)
    (resolved_ty Toy.kid, part) /\
  Toy.tree_size part < 5 /\
  exists piece,
    write_piece (C := Toy.collaborators) 5 Example.types tt (resolved_ty Toy.kid)
      part [x2a] = Returned ([x2a] ++ piece) /\
    read_piece (C := Toy.collaborators) 5 Example.types tt (resolved_ty Toy.kid)
      {| data := [xff; xff] ++ piece ++ [x00]; pos := 2 |}
    = (Returned part,
       {| data := [xff; xff] ++ piece ++ [x00]; pos := 2 + length piece |}).
Proof.
  intros part.
  pose proof (toy_contracts Example.types) as H1.
  assert (Toy.check_any Toy.sample = true) as H2 by reflexivity.
  assert (piece_of (C := Toy.collaborators) Example.types (0, Toy.sample)
            (resolved_ty Toy.kid, part)) as H3.
  { apply (piece_lazy (C := Toy.collaborators) Example.types (0, Toy.sample)
             0 Toy.sample 0 Toy.kid part (piece_root _ _)).
    apply list_elem_of_further, list_elem_of_here. }
  assert (Toy.tree_size part < 5) as H4 by (simpl; lia).
  split; [exact H1 |]. split; [exact H2 |]. split; [exact H3 |]. split; [exact H4 |].
  destruct (piece_round_trip (C := Toy.collaborators) Example.types Toy.tree_size
              0 Toy.sample (resolved_ty Toy.kid) part 5 5 [x2a] H1 H2 H3 H4 H4)
    as (piece & Hwrite & Hread).
  exists piece. split; [exact Hwrite |]. exact (Hread [xff; xff] [x00]).
Defined.
